(** * GitSignal: weekly time series from paginated GitHub data

    A shallow embedding of [src/lib/github.ts]: the three paginated
    operations ([fetchStarHistory], [fetchIssuesOverTime],
    [fetchIssuesClosedOverTime]) and the two statistics operations
    ([fetchCommitActivity], [fetchContributorsOverTime]), followed by the
    properties of the series they return.

    Conventions of the embedding.
    - A JavaScript number that holds an instant or a count is a [Z]
      (the values stay far below 2^53, where the arithmetic of doubles is
      exact).  A [Date] is the [Z] of its [getTime()] (milliseconds since
      the epoch); a timestamp string of a payload is a valid timestamp and
      is represented by the instant it denotes, and [None] stands for a
      field that is absent, null or empty (all falsy in the source's
      tests).
    - [%] is JavaScript's remainder, which truncates towards zero:
      [Z.rem].  [Math.floor (x / 1000)] is [x / 1000] on [Z].
    - [Map<number, number>] is a [gmap Z Z]; [Set<number>] is the list of
      its members in insertion order.
    - [fetch] is a function from the page number to the response the
      server gives; the two clock reads are parameters.
    - A promise is [Resolved] with a value or [Rejected] with the thrown
      error; an [await] of a rejected promise throws its reason. *)

From Stdlib Require Import ZArith Lia.
From stdpp Require Import base option list sorting gmap strings.

Local Open Scope Z_scope.

(** ** Values, errors and responses *)

(** The JavaScript values a payload field typed [unknown] may hold, as far
    as a truthiness test can tell them apart. *)
Inductive js_value :=
  | JsNull
  | JsBool (b : bool)
  | JsNumber (n : Z)
  | JsString (s : string)
  | JsObject.

Definition truthy (v : js_value) : bool :=
  match v with
  | JsNull => false
  | JsBool b => b
  | JsNumber n => negb (n =? 0)
  | JsString s => negb (String.eqb s "")
  | JsObject => true
  end.

(** [!field] for an optional field: an absent field is [undefined]. *)
Definition falsy (field : option js_value) : bool :=
  match field with
  | None => true
  | Some v => negb (truthy v)
  end.

(** [new Error(message)], [new StatsComputingError()], and the
    [SyntaxError] with which [response.json()] rejects. *)
Inductive js_error :=
  | Error (message : string)
  | StatsComputingError
  | SyntaxError.

Inductive promise (A : Type) :=
  | Resolved (value : A)
  | Rejected (reason : js_error).
Arguments Resolved {A} value.
Arguments Rejected {A} reason.

(** What [response.json()] makes of the body.  A body that is not JSON
    text -- the empty body of a 204 response, for one -- makes the promise
    reject with a [SyntaxError]; otherwise the promise resolves with the
    parsed value, which is an array of items or some other JSON value
    ([Array.isArray] is false). *)
Inductive Json (A : Type) :=
  | NotJson
  | NotArray
  | Array (data : list A).
Arguments NotJson {A}.
Arguments NotArray {A}.
Arguments Array {A} data.

Record Response (A : Type) := mkResponse {
  status : Z;
  statusText : string;
  json : Json A
}.
Arguments mkResponse {A} status statusText json.
Arguments status {A} r.
Arguments statusText {A} r.
Arguments json {A} r.

(** [response.ok]: the status is in the range 200-299. *)
Definition ok {A} (response : Response A) : bool :=
  (200 <=? status response) && (status response <=? 299).

(** ** Payload items *)

Record Stargazer := mkStargazer { starred_at : option Z }.

Record Issue := mkIssue {
  created_at : option Z;
  closed_at : option Z;
  pull_request : option js_value
}.

Record WeekEntry := mkWeekEntry { w : Z; c : Z }.

Record Contributor := mkContributor {
  login : string;
  weeks : list WeekEntry
}.

(** ** Result points *)

Module CommitActivity.
Record t := mk { week : Z; total : Z; days : list Z }.
End CommitActivity.

Module ContributorWeek.
Record t := mk { week : Z; contributors : Z }.
End ContributorWeek.

Module StarWeek.
Record t := mk { week : Z; stars : Z }.
End StarWeek.

Module IssueWeek.
Record t := mk { week : Z; issues : Z }.
End IssueWeek.

(** ** Error messages *)

Definition notFound (owner name : string) : js_error :=
  Error ("Repository " +:+ owner +:+ "/" +:+ name +:+ " not found").

Definition rateLimited : js_error :=
  Error "GitHub API rate limit exceeded. Try again later.".

Definition failedToFetch {A} (what : string) (response : Response A) : js_error :=
  Error ("Failed to fetch " +:+ what +:+ ": " +:+ statusText response).

(** The [if (!response.ok)] block of the paginated operations. *)
Definition pageFailure {A} (what owner name : string) (response : Response A)
  : js_error :=
  if status response =? 404 then notFound owner name
  else if status response =? 403 then rateLimited
  else failedToFetch what response.

(** The [if (!response.ok)] block of the statistics operations, which
    also tests for 202. *)
Definition statsFailure {A} (what owner name : string) (response : Response A)
  : js_error :=
  if status response =? 404 then notFound owner name
  else if status response =? 403 then rateLimited
  else if status response =? 202 then StatsComputingError
  else failedToFetch what response.

(** ** The pagination loop

    The three paginated operations run the same loop; they differ in the
    [forEach] callback that pushes dates ([push]) and in the failure text.
    [requested] is a ghost log of the page numbers passed to [fetch]. *)

Record PageLoop := mkPageLoop {
  dates : list Z;
  page : Z;
  hasMore : bool;
  requested : list Z
}.

Definition initialPageLoop : PageLoop :=
  {| dates := []; page := 1; hasMore := true; requested := [] |}.

Section Pagination.
Context {A : Type}.
Variable fetch : Z → Response A.
Variable push : list Z → A → list Z.
Variable failure : Response A → js_error.
Variable maxPages : Z.

(** One turn of the [while] body.  [await response.json()] throws what
    the promise rejects with, which ends the operation. *)
Definition pageBody (st : PageLoop) : js_error + PageLoop :=
  let response := fetch (page st) in
  let log := requested st ++ [page st] in
  if negb (ok response) then inl (failure response)
  else
    match json response with
    | NotJson => inl SyntaxError
    | Array ((_ :: _) as data) =>
        inr {| dates := foldl push (dates st) data;
               page := page st + 1;
               hasMore := negb (Z.of_nat (length data) <? 100);
               requested := log |}
    | _ =>
        inr {| dates := dates st; page := page st; hasMore := false;
               requested := log |}
    end.

(** [while (hasMore && page <= maxPages)].  The result pairs the log of
    the requests made with the outcome. *)
Fixpoint pageLoop (fuel : nat) (st : PageLoop) : list Z * promise (list Z) :=
  match fuel with
  | O => (requested st, Resolved (dates st))
  | S fuel' =>
      if hasMore st && (page st <=? maxPages) then
        match pageBody st with
        | inl e => (requested st ++ [page st], Rejected e)
        | inr st' => pageLoop fuel' st'
        end
      else (requested st, Resolved (dates st))
  end.

(** Every turn that does not end the loop advances [page], so
    [maxPages] turns and one more for the final test are enough. *)
Definition pageFuel : nat := S (Z.to_nat maxPages).

Definition fetchPages : list Z * promise (list Z) :=
  pageLoop pageFuel initialPageLoop.
End Pagination.

(** ** Week buckets and the dense series *)

Definition secondsPerWeek : Z := 7 * 24 * 60 * 60.

(** [timestamp - (timestamp % secondsPerWeek)]. *)
Definition weekStartOf (timestamp : Z) : Z :=
  timestamp - Z.rem timestamp secondsPerWeek.

(** [Math.floor(date.getTime() / 1000)]. *)
Definition unixSeconds (date : Z) : Z := date / 1000.

(** [map.get(key) || 0]: [undefined] and [0] both give [0]. *)
Definition getOrZero (m : gmap Z Z) (key : Z) : Z :=
  match m !! key with
  | Some v => if v =? 0 then 0 else v
  | None => 0
  end.

(** The week of an instant given in milliseconds: the source writes
    [t - (t % secondsPerWeek)] with [t = Math.floor(ms / 1000)] for the
    current instant, for the first date and for every counted date. *)
Definition weekOfDate (date : Z) : Z := weekStartOf (unixSeconds date).

(** The callback of [dates.forEach] that counts one date in its week. *)
Definition countDate (m : gmap Z Z) (date : Z) : gmap Z Z :=
  let weekStart := weekOfDate date in
  <[weekStart := getOrZero m weekStart + 1]> m.

Definition countPerWeek (dates : list Z) : gmap Z Z :=
  foldl countDate ∅ dates.

(** [while (weekStart <= currentWeekStart) { push; weekStart += secondsPerWeek }]. *)
Fixpoint fillWeeks {R} (point : Z → Z → R) (counts : gmap Z Z)
    (fuel : nat) (weekStart currentWeekStart : Z) : list R :=
  match fuel with
  | O => []
  | S fuel' =>
      if weekStart <=? currentWeekStart then
        point weekStart (getOrZero counts weekStart)
        :: fillWeeks point counts fuel' (weekStart + secondsPerWeek) currentWeekStart
      else []
  end.

(** The loop gains a whole week per turn, so the number of weeks between
    the two bounds, and one turn more for the final test, are enough. *)
Definition weekFuel (firstWeekStart currentWeekStart : Z) : nat :=
  S (S (Z.to_nat ((currentWeekStart - firstWeekStart) / secondsPerWeek))).

Definition buildResult {R} (point : Z → Z → R) (counts : gmap Z Z)
    (firstWeekStart currentWeekStart : Z) : list R :=
  fillWeeks point counts (weekFuel firstWeekStart currentWeekStart)
    firstWeekStart currentWeekStart.

(** ** The paginated operations *)

(** [if (star.starred_at) starDates.push(new Date(star.starred_at))]. *)
Definition pushStar (starDates : list Z) (star : Stargazer) : list Z :=
  match starred_at star with
  | Some starredAt => starDates ++ [starredAt]
  | None => starDates
  end.

(** The callback of [fetchIssuesOverTime]. *)
Definition pushOpened (fiftyTwoWeeksAgo : Z) (issueDates : list Z)
    (issue : Issue) : list Z :=
  if falsy (pull_request issue) then
    match created_at issue with
    | Some createdAt =>
        if fiftyTwoWeeksAgo <=? createdAt then issueDates ++ [createdAt]
        else issueDates
    | None => issueDates
    end
  else issueDates.

(** The callback of [fetchIssuesClosedOverTime]. *)
Definition pushClosed (fiftyTwoWeeksAgo : Z) (closedDates : list Z)
    (issue : Issue) : list Z :=
  if falsy (pull_request issue) then
    match closed_at issue with
    | Some closedAt =>
        if fiftyTwoWeeksAgo <=? closedAt then closedDates ++ [closedAt]
        else closedDates
    | None => closedDates
    end
  else closedDates.

Definition starPages (fetch : Z → Response Stargazer) (owner name : string)
    (maxPages : option Z) : list Z * promise (list Z) :=
  fetchPages fetch pushStar (pageFailure "star history" owner name)
    (default 10 maxPages).

Definition openedPages (fetch : Z → Response Issue) (fiftyTwoWeeksAgo : Z)
    (owner name : string) (maxPages : option Z) : list Z * promise (list Z) :=
  fetchPages fetch (pushOpened fiftyTwoWeeksAgo)
    (pageFailure "issues" owner name) (default 10 maxPages).

Definition closedPages (fetch : Z → Response Issue) (fiftyTwoWeeksAgo : Z)
    (owner name : string) (maxPages : option Z) : list Z * promise (list Z) :=
  fetchPages fetch (pushClosed fiftyTwoWeeksAgo)
    (pageFailure "issues" owner name) (default 10 maxPages).

(** The part of [fetchStarHistory] after the loop.  [dateNow] is the
    value of [Date.now()]. *)
Definition starWeeks (dateNow : Z) (starDates : list Z) : list StarWeek.t :=
  if (length starDates =? 0)%nat then []
  else
    let starDates := merge_sort Z.le starDates in
    let currentWeekStart := weekOfDate dateNow in
    let firstWeekStart := weekOfDate (default 0 (head starDates)) in
    let weekToStars := countPerWeek starDates in
    buildResult StarWeek.mk weekToStars firstWeekStart currentWeekStart.

Definition fetchStarHistory (fetch : Z → Response Stargazer) (dateNow : Z)
    (owner name : string) (maxPages : option Z) : promise (list StarWeek.t) :=
  match (starPages fetch owner name maxPages).2 with
  | Rejected e => Rejected e
  | Resolved starDates => Resolved (starWeeks dateNow starDates)
  end.

(** The part of the two issue operations after the loop.
    [fiftyTwoWeeksAgo] is the instant of the [Date] that [setDate] moved
    back by 52 * 7 days of local time. *)
Definition issueWeeks (fiftyTwoWeeksAgo dateNow : Z) (issueDates : list Z)
  : list IssueWeek.t :=
  let currentWeekStart := weekOfDate dateNow in
  let firstWeekStart := weekOfDate fiftyTwoWeeksAgo in
  let weekToIssues := countPerWeek issueDates in
  buildResult IssueWeek.mk weekToIssues firstWeekStart currentWeekStart.

Definition fetchIssuesOverTime (fetch : Z → Response Issue)
    (fiftyTwoWeeksAgo dateNow : Z) (owner name : string)
    (maxPages : option Z) : promise (list IssueWeek.t) :=
  match (openedPages fetch fiftyTwoWeeksAgo owner name maxPages).2 with
  | Rejected e => Rejected e
  | Resolved issueDates =>
      Resolved (issueWeeks fiftyTwoWeeksAgo dateNow issueDates)
  end.

Definition fetchIssuesClosedOverTime (fetch : Z → Response Issue)
    (fiftyTwoWeeksAgo dateNow : Z) (owner name : string)
    (maxPages : option Z) : promise (list IssueWeek.t) :=
  match (closedPages fetch fiftyTwoWeeksAgo owner name maxPages).2 with
  | Rejected e => Rejected e
  | Resolved closedDates =>
      Resolved (issueWeeks fiftyTwoWeeksAgo dateNow closedDates)
  end.

(** ** The statistics operations

    Both read the body with [await response.json()] before they look at
    it, so a successful response without a JSON body rejects with the
    [SyntaxError]. *)

Definition fetchCommitActivity (response : Response CommitActivity.t)
    (owner name : string) : promise (list CommitActivity.t) :=
  if negb (ok response) then
    Rejected (statsFailure "commit activity" owner name response)
  else
    match json response with
    | NotJson => Rejected SyntaxError
    | Array ((_ :: _) as data) =>
        Resolved
          (map (λ week, CommitActivity.mk (CommitActivity.week week)
                          (CommitActivity.total week) (CommitActivity.days week))
             data)
    | _ => Rejected StatsComputingError
    end.

(** [allWeeks.add(x)]: a [Set] keeps the first insertion of a member. *)
Definition setAdd (s : list Z) (x : Z) : list Z :=
  if decide (x ∈ s) then s else s ++ [x].

Record Tally := mkTally {
  allWeeks : list Z;
  weekToContributors : gmap Z Z
}.

(** The body of [for (const week of contributor.weeks)]. *)
Definition tallyWeek (t : Tally) (week : WeekEntry) : Tally :=
  {| allWeeks := setAdd (allWeeks t) (w week);
     weekToContributors :=
       if 0 <? c week then
         <[w week := getOrZero (weekToContributors t) (w week) + 1]>
           (weekToContributors t)
       else weekToContributors t |}.

Definition tallyContributor (t : Tally) (contributor : Contributor) : Tally :=
  foldl tallyWeek t (weeks contributor).

(** Lines 216-236 of [fetchContributorsOverTime]. *)
Definition contributorWeeks (data : list Contributor) : list ContributorWeek.t :=
  let t := foldl tallyContributor {| allWeeks := []; weekToContributors := ∅ |} data in
  let sortedWeeks := merge_sort Z.le (allWeeks t) in
  map (λ week, ContributorWeek.mk week (getOrZero (weekToContributors t) week))
    sortedWeeks.

Definition fetchContributorsOverTime (response : Response Contributor)
    (owner name : string) : promise (list ContributorWeek.t) :=
  if negb (ok response) then
    Rejected (statsFailure "contributors" owner name response)
  else
    match json response with
    | NotJson => Rejected SyntaxError
    | Array ((_ :: _) as data) => Resolved (contributorWeeks data)
    | _ => Rejected StatsComputingError
    end.

(** ** Text

    Where the content of a JavaScript string matters -- it is trimmed,
    split, matched or stored -- the string is the list of its UTF-16 code
    units. *)

Abbreviation jsstring := (list N).

(** The code units of a literal of the source (ASCII only). *)
Definition lit (s : string) : jsstring :=
  Ascii.N_of_ascii <$> String.list_ascii_of_string s.

(** The code units [String.prototype.trim] strips: WhiteSpace and
    LineTerminator of ECMAScript. *)
Definition isLineTerminator (c : N) : bool :=
  bool_decide (c ∈ [0x0A; 0x0D; 0x2028; 0x2029]%N).

Definition isWhiteSpace (c : N) : bool :=
  bool_decide (c ∈ [0x09; 0x0B; 0x0C; 0x20; 0xA0; 0x1680; 0x202F; 0x205F; 0x3000;
                    0xFEFF]%N)
  || ((0x2000 <=? c)%N && (c <=? 0x200A)%N)
  || isLineTerminator c.

Fixpoint trimStart (s : jsstring) : jsstring :=
  match s with
  | c :: s' => if isWhiteSpace c then trimStart s' else s
  | [] => []
  end.

Definition trimEnd (s : jsstring) : jsstring := reverse (trimStart (reverse s)).

(** [s.trim()]. *)
Definition trim (s : jsstring) : jsstring := trimEnd (trimStart s).

(** [parts.join(sep)]. *)
Fixpoint join (sep : jsstring) (parts : list jsstring) : jsstring :=
  match parts with
  | [] => []
  | [part] => part
  | part :: parts' => part ++ sep ++ join sep parts'
  end.

(** [s.split(sep)] for a separator of one code unit: the pieces between
    the occurrences of [sep]; an empty string gives one empty piece. *)
Fixpoint split (sep : N) (s : jsstring) : list jsstring :=
  match s with
  | [] => [[]]
  | c :: s' =>
      if (c =? sep)%N then [] :: split sep s'
      else
        match split sep s' with
        | piece :: pieces => (c :: piece) :: pieces
        | [] => [[c]]
        end
  end.

(** ** The stored token *)

Definition TOKEN_STORAGE_KEY : jsstring := lit "gitsignal_github_token".

(** [localStorage.getItem(TOKEN_STORAGE_KEY)]; [localStorage] is the map
    from keys to values. *)
Definition getStoredToken (localStorage : gmap jsstring jsstring) : option jsstring :=
  localStorage !! TOKEN_STORAGE_KEY.

(** The truthiness of a [string | null]: a non-empty string. *)
Definition hasText (text : option jsstring) : bool :=
  match text with
  | Some (_ :: _) => true
  | _ => false
  end.

Definition setStoredToken (token : option jsstring)
    (localStorage : gmap jsstring jsstring) : gmap jsstring jsstring :=
  if hasText token then <[TOKEN_STORAGE_KEY := default [] token]> localStorage
  else delete TOKEN_STORAGE_KEY localStorage.

(** [buildHeaders()]: the headers object as a map from names to values. *)
Definition buildHeaders (localStorage : gmap jsstring jsstring)
  : gmap jsstring jsstring :=
  let headers : gmap jsstring jsstring :=
    {[ lit "Accept" := lit "application/vnd.github.v3+json" ]} in
  let token := getStoredToken localStorage in
  if hasText token then
    <[lit "Authorization" := lit "Bearer " ++ default [] token]> headers
  else headers.

(** The headers of the stargazers request:
    [{ ...buildHeaders(), Accept: "application/vnd.github.star+json" }]. *)
Definition starHeaders (localStorage : gmap jsstring jsstring)
  : gmap jsstring jsstring :=
  <[lit "Accept" := lit "application/vnd.github.star+json"]>
    (buildHeaders localStorage).

(** ** The token form ([TokenInput])

    The state of the component, the storage it writes and the counter
    that [onTokenChange] advances in [App] ([handleTokenChange]). *)

Record TokenForm := mkTokenForm {
  isEditing : bool;
  inputValue : jsstring;
  localStorage : gmap jsstring jsstring;
  tokenVersion : Z
}.

(** [!!getStoredToken()]. *)
Definition hasToken (form : TokenForm) : bool :=
  hasText (getStoredToken (localStorage form)).

Definition handleSave (form : TokenForm) : TokenForm :=
  let trimmed := trim (inputValue form) in
  {| localStorage :=
       setStoredToken (if hasText (Some trimmed) then Some trimmed else None)
         (localStorage form);
     inputValue := [];
     isEditing := false;
     tokenVersion := tokenVersion form + 1 |}.

Definition handleClear (form : TokenForm) : TokenForm :=
  {| localStorage := setStoredToken None (localStorage form);
     inputValue := [];
     isEditing := false;
     tokenVersion := tokenVersion form + 1 |}.

Definition handleCancel (form : TokenForm) : TokenForm :=
  {| localStorage := localStorage form;
     inputValue := [];
     isEditing := false;
     tokenVersion := tokenVersion form |}.

(** ** Colours *)

Definition REPO_COLORS : list string :=
  ["#8b5cf6"; "#06b6d4"; "#f59e0b"; "#10b981"; "#f43f5e"; "#6366f1"].

(** [REPO_COLORS[index % REPO_COLORS.length]]: reading an array at a
    negative index gives [undefined] ([None]). *)
Definition getRepoColor (index : Z) : option string :=
  let i := Z.rem index (Z.of_nat (length REPO_COLORS)) in
  if i <? 0 then None else REPO_COLORS !! Z.to_nat i.

(** ** The repositories in the address ([App]) *)

Module ParsedRepo.
Record t := mk { owner : jsstring; name : jsstring }.
End ParsedRepo.

(** The callback of [reposParam.split(",").map(...)]: [null] is [None]. *)
Definition repoOfPiece (r : jsstring) : option ParsedRepo.t :=
  match split 47 r with
  | owner :: name :: _ =>
      if hasText (Some owner) && hasText (Some name)
      then Some (ParsedRepo.mk owner name) else None
  | _ => None
  end.

(** [getReposFromUrl()], from the value of the [repos] parameter of the
    address ([params.get("repos")], [None] when the parameter is absent). *)
Definition getReposFromUrl (reposParam : option jsstring) : list ParsedRepo.t :=
  if negb (hasText reposParam) then []
  else omap repoOfPiece (split 44 (default [] reposParam)).

(** The address holds well-formed text only: [searchParams.set] takes its
    value as a [USVString], so a surrogate code unit that is not part of a
    pair is replaced by U+FFFD (as [String.prototype.toWellFormed] does). *)
Definition isLeadSurrogate (c : N) : bool := (0xD800 <=? c)%N && (c <=? 0xDBFF)%N.
Definition isTrailSurrogate (c : N) : bool := (0xDC00 <=? c)%N && (c <=? 0xDFFF)%N.

Fixpoint toWellFormed (s : jsstring) : jsstring :=
  match s with
  | [] => []
  | c :: s' =>
      if isLeadSurrogate c then
        match s' with
        | d :: s'' =>
            if isTrailSurrogate d then c :: d :: toWellFormed s''
            else 0xFFFD%N :: toWellFormed s'
        | [] => [0xFFFD%N]
        end
      else if isTrailSurrogate c then 0xFFFD%N :: toWellFormed s'
      else c :: toWellFormed s'
  end.

(** [updateUrl(repos)]: the value of the [repos] parameter afterwards,
    [None] when the parameter is deleted.  Apart from the conversion
    above the address keeps the text it is given: what [searchParams.set]
    stores is what [params.get] returns, also after the address was
    serialised and parsed again. *)
Definition updateUrl (repos : list ParsedRepo.t) : option jsstring :=
  if (length repos =? 0)%nat then None
  else
    Some (toWellFormed
            (join (lit ",")
               ((λ r, ParsedRepo.owner r ++ lit "/" ++ ParsedRepo.name r) <$> repos))).

(** [handleAddRepo] and [handleRemoveRepo] of [App]. *)
Definition handleAddRepo (repo : ParsedRepo.t) (prev : list ParsedRepo.t)
  : list ParsedRepo.t :=
  prev ++ [repo].

Definition handleRemoveRepo (index : nat) (prev : list ParsedRepo.t)
  : list ParsedRepo.t :=
  snd <$> filter (λ ir, ir.1 ≠ index) (imap (λ i r, (i, r)) prev).

(** ** Regular expressions

    The two patterns of [parseRepoInput] use literal characters, the
    class that excludes the slash, the dot, greedy and lazy repetition of a class,
    optional non-capturing groups, capturing groups and the anchors.  The
    matcher below is the backtracking matcher of ECMAScript for these
    constructs, in continuation-passing style: a continuation receives
    the rest of the input and the captures so far, and an alternative is
    tried when the continuation of the earlier one fails. *)

Inductive charset :=
  | Char (c : N)
  | NotChar (c : N)
  | Dot.

Inductive regex :=
  | Empty
  | Atom (cs : charset)
  | Seq (r1 r2 : regex)
  | Optional (r : regex)
  | Repeat (lazy : bool) (cs : charset)
  | Group (index : nat) (r : regex)
  | StartOfInput
  | EndOfInput.

(** The characters of a literal, one after the other. *)
Definition chars (s : string) : regex :=
  foldr (λ c r, Seq (Atom (Char c)) r) Empty (lit s).

(** [cs+] and [cs+?]. *)
Definition oneOrMore (lazy : bool) (cs : charset) : regex :=
  Seq (Atom cs) (Repeat lazy cs).

(** Canonicalize of ECMAScript under the [i] flag, for the comparison
    with an ASCII pattern character: only the letters a-z fold, to A-Z. *)
Definition canonicalize (c : N) : N :=
  if ((97 <=? c) && (c <=? 122))%N then (c - 32)%N else c.

Section Matcher.
Variable ignoreCase : bool.
Variable input : jsstring.

Definition sameChar (c x : N) : bool :=
  if ignoreCase then (canonicalize c =? canonicalize x)%N else (c =? x)%N.

Definition accepts (cs : charset) (c : N) : bool :=
  match cs with
  | Char x => sameChar c x
  | NotChar x => negb (sameChar c x)
  | Dot => negb (isLineTerminator c)
  end.

(** Greedy repetition: take the character first, fall back to stopping. *)
Fixpoint repeatGreedy {M} (cs : charset) (k : jsstring → option M) (s : jsstring)
  : option M :=
  match s with
  | c :: s' =>
      if accepts cs c then
        match repeatGreedy cs k s' with
        | Some m => Some m
        | None => k s
        end
      else k s
  | [] => k s
  end.

(** Lazy repetition: stop first, fall back to taking the character. *)
Fixpoint repeatLazy {M} (cs : charset) (k : jsstring → option M) (s : jsstring)
  : option M :=
  match k s with
  | Some m => Some m
  | None =>
      match s with
      | c :: s' => if accepts cs c then repeatLazy cs k s' else None
      | [] => None
      end
  end.

Fixpoint matcher (r : regex) (k : jsstring → gmap nat jsstring → option (gmap nat jsstring))
    (s : jsstring) (captures : gmap nat jsstring) : option (gmap nat jsstring) :=
  match r with
  | Empty => k s captures
  | Atom cs =>
      match s with
      | c :: s' => if accepts cs c then k s' captures else None
      | [] => None
      end
  | Seq r1 r2 => matcher r1 (matcher r2 k) s captures
  | Optional r' =>
      match matcher r' k s captures with
      | Some m => Some m
      | None => k s captures
      end
  | Repeat lazy cs =>
      (if lazy then repeatLazy else repeatGreedy) cs (λ s', k s' captures) s
  | Group index r' =>
      matcher r'
        (λ s' captures',
           k s' (<[index := take (length s - length s') s]> captures'))
        s captures
  | StartOfInput => if (length s =? length input)%nat then k s captures else None
  | EndOfInput => match s with [] => k s captures | _ :: _ => None end
  end.

(** The start positions are tried from the left. *)
Fixpoint search (r : regex) (s : jsstring) : option (gmap nat jsstring) :=
  match matcher r (λ _ captures, Some captures) s ∅ with
  | Some m => Some m
  | None =>
      match s with
      | _ :: s' => search r s'
      | [] => None
      end
  end.
End Matcher.

(** [text.match(pattern)] for a pattern without the [g] flag: the
    captures of the leftmost match, or [None] for [null]. *)
Definition exec (ignoreCase : bool) (pattern : regex) (text : jsstring)
  : option (gmap nat jsstring) :=
  search ignoreCase text pattern text.

(** The pattern of [urlMatch], which has the flag [i], part by part: an
    optional "https?:\/\/", an optional "www\.", then "github\.com\/",
    group 1 "[^\/]+", a slash, group 2 "[^\/]+?", an optional "\.git", an
    optional slash followed by any number of characters, and "$". *)
Definition urlPattern : regex :=
  Seq (Optional (Seq (chars "http") (Seq (Optional (Atom (Char 115))) (chars "://"))))
 (Seq (Optional (chars "www."))
 (Seq (chars "github.com/")
 (Seq (Group 1 (oneOrMore false (NotChar 47)))
 (Seq (Atom (Char 47))
 (Seq (Group 2 (oneOrMore true (NotChar 47)))
 (Seq (Optional (chars ".git"))
 (Seq (Optional (Seq (Atom (Char 47)) (Repeat false Dot)))
      EndOfInput))))))).

(** The pattern of [shortMatch]: "/^([^\/]+)\/([^\/]+)$/". *)
Definition shortPattern : regex :=
  Seq StartOfInput
 (Seq (Group 1 (oneOrMore false (NotChar 47)))
 (Seq (Atom (Char 47))
 (Seq (Group 2 (oneOrMore false (NotChar 47)))
      EndOfInput))).

(** [{ owner: match[1], name: match[2] }]; both groups take part in every
    match of the two patterns. *)
Definition repoOfMatch (m : gmap nat jsstring) : ParsedRepo.t :=
  ParsedRepo.mk (default [] (m !! 1%nat)) (default [] (m !! 2%nat)).

Definition parseRepoInput (input : jsstring) : option ParsedRepo.t :=
  let trimmed := trim input in
  match exec true urlPattern trimmed with
  | Some urlMatch => Some (repoOfMatch urlMatch)
  | None =>
      match exec false shortPattern trimmed with
      | Some shortMatch => Some (repoOfMatch shortMatch)
      | None => None
      end
  end.

(** ** The repository form ([RepoInput])

    [repos] is the list [App] passes down; [handleAdd] returns the list
    after [onAddRepo] ([handleAddRepo] of [App]) and the state of the
    form.  [toLowerCase] is [String.prototype.toLowerCase]. *)

Module RepoInput.
Record state := mkState { inputValue : jsstring; error : option string }.

Section Handlers.
Variable toLowerCase : jsstring → jsstring.

(** The callback of [repos.some(...)]. *)
Definition sameRepo (parsed r : ParsedRepo.t) : bool :=
  bool_decide (toLowerCase (ParsedRepo.owner r) = toLowerCase (ParsedRepo.owner parsed))
  && bool_decide (toLowerCase (ParsedRepo.name r) = toLowerCase (ParsedRepo.name parsed)).

Definition handleAdd (repos : list ParsedRepo.t) (st : state)
  : list ParsedRepo.t * state :=
  match parseRepoInput (inputValue st) with
  | None =>
      (repos,
       {| inputValue := inputValue st;
          error := Some "Invalid format. Use owner/repo or a GitHub URL" |})
  | Some parsed =>
      let isDuplicate := existsb (sameRepo parsed) repos in
      if isDuplicate then
        (repos,
         {| inputValue := inputValue st; error := Some "Repository already added" |})
      else
        (handleAddRepo parsed repos, {| inputValue := []; error := None |})
  end.
End Handlers.
End RepoInput.

(** * Vocabulary of the properties

    The definitions below are not part of the program: they name what the
    properties speak about. *)

(** ** Pages *)

(** The items of a response: none when the body is not an array. *)
Definition items {A} (response : Response A) : list A :=
  match json response with
  | Array data => data
  | _ => []
  end.

(** The body is JSON text: [response.json()] resolves. *)
Definition parses {A} (response : Response A) : bool :=
  match json response with
  | NotJson => false
  | _ => true
  end.

(** A page after which the loop goes on: a success with 100 items or more. *)
Definition fullPage {A} (response : Response A) : bool :=
  ok response && (100 <=? Z.of_nat (length (items response))).

Section PaginationVocabulary.
Context {A : Type}.
Variable fetch : Z → Response A.
Variable push : list Z → A → list Z.
Variable failure : Response A → js_error.
Variable maxPages : Z.

(** The pages [1..k] are all that is requested: the ones before [k] are
    full, and page [k] is the ceiling or is not full. *)
Definition stopsAt (k : Z) : Prop :=
  0 ≤ k ∧ k ≤ Z.max 0 maxPages ∧
  (∀ j, 1 ≤ j < k → fullPage (fetch j) = true) ∧
  (k = 0 → maxPages < 1) ∧
  (0 < k → fullPage (fetch k) = false ∨ k = maxPages).

(** What the loop returns when it stops at page [k]. *)
Definition outcomeAt (k : Z) : promise (list Z) :=
  if k =? 0 then Resolved []
  else if ok (fetch k) then
    match json (fetch k) with
    | NotJson => Rejected SyntaxError
    | _ => Resolved (foldl push [] (concat ((λ j, items (fetch j)) <$> seqZ 1 k)))
    end
  else Rejected (failure (fetch k)).
End PaginationVocabulary.

(** The date a stargazer contributes, if any. *)
Definition starDate (star : Stargazer) : option Z := starred_at star.

(** The date an issue contributes to the issues-opened series, if any. *)
Definition openedDate (fiftyTwoWeeksAgo : Z) (issue : Issue) : option Z :=
  if falsy (pull_request issue) then
    match created_at issue with
    | Some createdAt => if fiftyTwoWeeksAgo <=? createdAt then Some createdAt else None
    | None => None
    end
  else None.

(** The date an issue contributes to the issues-closed series, if any. *)
Definition closedDate (fiftyTwoWeeksAgo : Z) (issue : Issue) : option Z :=
  if falsy (pull_request issue) then
    match closed_at issue with
    | Some closedAt => if fiftyTwoWeeksAgo <=? closedAt then Some closedAt else None
    | None => None
    end
  else None.

(** What a run of the loop is, for a server [fetch], a ceiling and the
    dates [kept] from the items of the pages: the pages [1..k] are
    requested in order; a next page is requested only after a successful
    page of 100 items or more; page [k] is the ceiling, or has fewer than
    100 items (none included), or failed; and when page [k] succeeded the
    dates are those of the items of the pages [1..k], in page order --
    unless its body is not JSON, which rejects with the [SyntaxError]. *)
Definition paginates {A} (fetch : Z → Response A) (maxPages : Z)
    (kept : list A → list Z) (run : list Z * promise (list Z)) : Prop :=
  ∃ k : Z,
    0 ≤ k ≤ Z.max 0 maxPages ∧
    run.1 = seqZ 1 k ∧
    (∀ j, 1 ≤ j < k →
       ok (fetch j) = true ∧ 100 ≤ Z.of_nat (length (items (fetch j)))) ∧
    (k = 0 → maxPages < 1 ∧ run.2 = Resolved []) ∧
    (0 < k →
       ok (fetch k) = false ∨ Z.of_nat (length (items (fetch k))) < 100 ∨ k = maxPages) ∧
    (0 < k → ok (fetch k) = true →
       run.2 = match json (fetch k) with
               | NotJson => Rejected SyntaxError
               | _ => Resolved (kept (concat ((λ j, items (fetch j)) <$> seqZ 1 k)))
               end).

(** Two responses that differ at most in their pull requests: the same
    status, both with a JSON body or both without, and item by item either
    the same record or two records that are both flagged as pull requests. *)
Definition samePageButPulls (r r' : Response Issue) : Prop :=
  status r = status r' ∧ statusText r = statusText r' ∧
  parses r = parses r' ∧
  Forall2 (λ issue issue',
             issue = issue'
             ∨ (falsy (pull_request issue) = false
                ∧ falsy (pull_request issue') = false))
    (items r) (items r').

(** ** Weeks and counts *)

(** The weeks [first], [first + 604800], ... up to [current]. *)
Definition weeksBetween (first current : Z) : list Z :=
  (λ k, first + k * secondsPerWeek) <$> seqZ 0 ((current - first) / secondsPerWeek + 1).

(** The dates of a list that fall in a given week. *)
Definition datesInWeek (week : Z) (dates : list Z) : list Z :=
  filter (λ date, weekOfDate date = week) dates.

(** What a counting map holds after the dates [seen]: no entry for a week
    without dates, the number of dates otherwise. *)
Definition countsOf (m : gmap Z Z) (seen : list Z) : Prop :=
  ∀ week,
    m !! week =
      if decide (datesInWeek week seen = []) then None
      else Some (Z.of_nat (length (datesInWeek week seen))).

(** [starDates[0]] after the sort: the earliest date. *)
Definition firstStarDate (starDates : list Z) : Z :=
  default 0 (head (merge_sort Z.le starDates)).

(** ** Contributors *)

(** Every week entry of every record, in the order the loops visit them. *)
Definition allEntries (data : list Contributor) : list WeekEntry :=
  concat (weeks <$> data).

(** The entries for a week that carry commits. *)
Definition activeEntries (week : Z) (entries : list WeekEntry) : list WeekEntry :=
  filter (λ e, w e = week ∧ 0 < c e) entries.

(** The records that have an entry with commits for a week. *)
Definition activeContributors (week : Z) (data : list Contributor) : list Contributor :=
  filter (λ k, Exists (λ e, w e = week ∧ 0 < c e) (weeks k)) data.

(** The distinct contributors that have an entry with commits for a week. *)
Definition activeLogins (week : Z) (data : list Contributor) : gset string :=
  list_to_set (login <$> activeContributors week data).

(** What the two collections hold after the entries [seen]. *)
Definition talliesOf (t : Tally) (seen : list WeekEntry) : Prop :=
  NoDup (allWeeks t) ∧
  (∀ week, week ∈ allWeeks t ↔ week ∈ w <$> seen) ∧
  (∀ week,
     weekToContributors t !! week =
       if decide (activeEntries week seen = []) then None
       else Some (Z.of_nat (length (activeEntries week seen)))).

(** ** Sample inputs *)

(** One page of three stargazers: two starred in the week that starts at
    1699488000 and one two weeks later. *)
Definition sampleStars (page : Z) : Response Stargazer :=
  if page =? 1 then
    mkResponse 200 "OK"
      (Array [mkStargazer (Some 1699500000000);
             mkStargazer (Some 1700700400000);
             mkStargazer (Some 1699488000000)])
  else mkResponse 200 "OK" (Array []).

(** An instant in the week that starts at 1700697600. *)
Definition sampleNow : Z := 1700900000123.

(** The sample stars with the clock one week further on: the week that
    starts at 1701302400. *)
Definition lateNow : Z := 1701400000000.

(** One page of issues: an issue, a pull request and a closed issue. *)
Definition sampleIssues (page : Z) : Response Issue :=
  if page =? 1 then
    mkResponse 200 "OK"
      (Array [mkIssue (Some 1700000000000) None None;
             mkIssue (Some 1700000100000) (Some 1700000200000) (Some JsObject);
             mkIssue (Some 1699500000000) (Some 1700700400000) None])
  else mkResponse 200 "OK" (Array []).

(** Four weeks before [sampleNow]. *)
Definition sampleHorizon : Z := 1698480800123.

(** Three pages of 100, 100 and 57 stargazers. *)
Definition threePages (page : Z) : Response Stargazer :=
  if page =? 1 then mkResponse 200 "OK" (Array (replicate 100 (mkStargazer (Some 1700000000000))))
  else if page =? 2 then mkResponse 200 "OK" (Array (replicate 100 (mkStargazer (Some 1700000001000))))
  else if page =? 3 then mkResponse 200 "OK" (Array (replicate 57 (mkStargazer (Some 1700000002000))))
  else mkResponse 200 "OK" (Array (replicate 100 (mkStargazer (Some 1700000003000)))).

(** Two full pages of stargazers, then the rate limit. *)
Definition failsOnThirdPage (page : Z) : Response Stargazer :=
  if page =? 3 then mkResponse 403 "Forbidden" NotArray else threePages page.

(** A contributor whose two week keys are two weeks apart. *)
Definition sparseContributors : Response Contributor :=
  mkResponse 200 "OK"
    (Array [mkContributor "a" [mkWeekEntry 1700352000 1; mkWeekEntry 1701561600 2]]).

(** A record that lists the same week twice. *)
Definition repeatedWeek : list Contributor :=
  [mkContributor "a" [mkWeekEntry 1700352000 1; mkWeekEntry 1700352000 2]].

(** The contributors of the scenario: a with 3 commits and b with none,
    both in week 1000. *)
Definition scenarioContributors : list Contributor :=
  [mkContributor "a" [mkWeekEntry (1000 * 604800) 3];
   mkContributor "b" [mkWeekEntry (1000 * 604800) 0]].

(** A successful response with one contributor record that lists no week. *)
Definition contributorWithoutWeeks : Response Contributor :=
  mkResponse 200 "OK" (Array [mkContributor "a" []]).

(** The 202 response GitHub sends while it computes the statistics: the
    body is the JSON object [{}]. *)
Definition acceptedComputing : Response CommitActivity.t :=
  mkResponse 202 "Accepted" NotArray.

(** A 204 response: a success without a body. *)
Definition noContent : Response CommitActivity.t :=
  mkResponse 204 "No Content" NotJson.
(** ** Totals *)

(** The sum of the values of a series. *)
Definition totalOf (values : list Z) : Z := foldr Z.add 0 values.

(** The server of [threePages], except that it fails on page 11. *)
Definition failsOnPageEleven (page : Z) : Response Stargazer :=
  if page =? 11 then mkResponse 500 "Server Error" NotArray else threePages page.

(** ** Repositories *)

(** A repository whose owner and name are not empty and hold neither a
    slash (47) nor a comma (44). *)
Definition cleanRepo (r : ParsedRepo.t) : Prop :=
  ParsedRepo.owner r ≠ [] ∧ ParsedRepo.name r ≠ [] ∧
  (47%N ∉ ParsedRepo.owner r) ∧ (47%N ∉ ParsedRepo.name r) ∧
  (44%N ∉ ParsedRepo.owner r) ∧ (44%N ∉ ParsedRepo.name r).

(** Text without a surrogate code unit outside a pair, and a repository
    whose owner and name are such text. *)
Definition wellFormedText (s : jsstring) : Prop := toWellFormed s = s.

Definition wellFormedUnicode (r : ParsedRepo.t) : Prop :=
  wellFormedText (ParsedRepo.owner r) ∧ wellFormedText (ParsedRepo.name r).

(** ** Words of a pattern *)

(** The words a pattern can consume, whatever the position: the anchors
    consume nothing. *)
Fixpoint matches (ignoreCase : bool) (r : regex) (word : jsstring) : Prop :=
  match r with
  | Empty | StartOfInput | EndOfInput => word = []
  | Atom cs => ∃ c, word = [c] ∧ accepts ignoreCase cs c = true
  | Seq r1 r2 =>
      ∃ u v, word = u ++ v ∧ matches ignoreCase r1 u ∧ matches ignoreCase r2 v
  | Optional r' => word = [] ∨ matches ignoreCase r' word
  | Repeat _ cs => Forall (λ c, accepts ignoreCase cs c = true) word
  | Group _ r' => matches ignoreCase r' word
  end.

(** A pattern without capturing groups. *)
Fixpoint groupFree (r : regex) : bool :=
  match r with
  | Seq r1 r2 => groupFree r1 && groupFree r2
  | Optional r' => groupFree r'
  | Group _ _ => false
  | _ => true
  end.

(** Two texts that are equal up to the case of the letters a-z. *)
Definition sameIgnoringCase (text text' : jsstring) : Prop :=
  Forall2 (λ c x, canonicalize c = canonicalize x) text text'.

(** The end of [urlPattern]: the optional ".git", the optional path and
    the end of the input. *)
Definition urlTail : regex :=
  Seq (Optional (chars ".git"))
    (Seq (Optional (Seq (Atom (Char 47)) (Repeat false Dot))) EndOfInput).

(** The next character, if any, is not of the class. *)
Definition stopsBefore (ignoreCase : bool) (cs : charset) (s : jsstring) : Prop :=
  match s with
  | c :: _ => accepts ignoreCase cs c = false
  | [] => True
  end.

(** ** Lists of repositories *)

(** No two repositories of the list have the same owner and the same
    name once both are put in lower case. *)
Definition distinctIgnoringCase (toLowerCase : jsstring → jsstring)
    (repos : list ParsedRepo.t) : Prop :=
  NoDup ((λ r, (toLowerCase (ParsedRepo.owner r), toLowerCase (ParsedRepo.name r)))
         <$> repos).

(** The owner and the name are not empty and hold no slash. *)
Definition wellFormedRepo (r : ParsedRepo.t) : Prop :=
  ParsedRepo.owner r ≠ [] ∧ ParsedRepo.name r ≠ [] ∧
  (47%N ∉ ParsedRepo.owner r) ∧ (47%N ∉ ParsedRepo.name r).

(** Lower case for the letters A to Z; on text made of ASCII characters
    this is what [toLowerCase()] returns. *)
Definition asciiLowerCase (s : jsstring) : jsstring :=
  (λ c, if (65 <=? c)%N && (c <=? 90)%N then (c + 32)%N else c) <$> s.

(** A list of two repositories. *)
Definition sampleRepos : list ParsedRepo.t :=
  [ParsedRepo.mk (lit "facebook") (lit "react");
   ParsedRepo.mk (lit "rocq-prover") (lit "rocq")].
(** * Properties *)

(** ** Week arithmetic *)

Lemma secondsPerWeek_value : secondsPerWeek = 604800.
Proof. reflexivity. Qed.

Lemma weekStartOf_quot t : weekStartOf t = secondsPerWeek * Z.quot t secondsPerWeek.
Proof.
  unfold weekStartOf.
  pose proof (Z.quot_rem' t secondsPerWeek). lia.
Qed.

Lemma weekStartOf_rem t : Z.rem (weekStartOf t) secondsPerWeek = 0.
Proof.
  rewrite weekStartOf_quot, Z.mul_comm.
  apply Z.rem_mul. rewrite secondsPerWeek_value. lia.
Qed.

Lemma weekStartOf_mod t : weekStartOf t mod secondsPerWeek = 0.
Proof.
  rewrite weekStartOf_quot, Z.mul_comm.
  apply Z.mod_mul. rewrite secondsPerWeek_value. lia.
Qed.

Lemma weekStartOf_mono t t' : t ≤ t' → weekStartOf t ≤ weekStartOf t'.
Proof.
  intros Hle. rewrite !weekStartOf_quot.
  apply Z.mul_le_mono_nonneg_l; [rewrite secondsPerWeek_value; lia|].
  apply Z.quot_le_mono; [rewrite secondsPerWeek_value; lia | done].
Qed.

Lemma weekOfDate_mod date : weekOfDate date mod secondsPerWeek = 0.
Proof. apply weekStartOf_mod. Qed.

Lemma weekOfDate_mono d d' : d ≤ d' → weekOfDate d ≤ weekOfDate d'.
Proof.
  intros Hle. apply weekStartOf_mono. unfold unixSeconds.
  apply Z.div_le_mono; lia.
Qed.

(** ** The dense series *)

Lemma weeksBetween_nil first current : current < first → weeksBetween first current = [].
Proof.
  intros Hlt. unfold weeksBetween. rewrite seqZ_nil; [done|].
  assert ((current - first) / secondsPerWeek < 0); [|lia].
  apply Z.div_lt_upper_bound; rewrite secondsPerWeek_value; lia.
Qed.

Lemma weeksBetween_cons first current :
  first ≤ current →
  weeksBetween first current = first :: weeksBetween (first + secondsPerWeek) current.
Proof.
  intros Hle. unfold weeksBetween.
  assert (0 ≤ (current - first) / secondsPerWeek) as Hq.
  { apply Z.div_pos; rewrite ?secondsPerWeek_value; lia. }
  rewrite seqZ_cons by lia. rewrite fmap_cons. f_equal; [lia|].
  replace (Z.pred ((current - first) / secondsPerWeek + 1))
    with ((current - (first + secondsPerWeek)) / secondsPerWeek + 1).
  - rewrite <- (fmap_add_seqZ 1 0). rewrite <- list_fmap_compose.
    apply list_fmap_ext. intros _ k _. simpl. lia.
  - replace (current - (first + secondsPerWeek))
      with ((current - first) + (-1) * secondsPerWeek) by lia.
    rewrite Z.div_add by (rewrite secondsPerWeek_value; lia). lia.
Qed.

Lemma fillWeeks_weeksBetween {R} (point : Z → Z → R) counts fuel weekStart current :
  (Z.to_nat ((current - weekStart) / secondsPerWeek + 1) ≤ fuel)%nat →
  fillWeeks point counts fuel weekStart current
  = (λ week, point week (getOrZero counts week)) <$> weeksBetween weekStart current.
Proof.
  revert weekStart. induction fuel as [|fuel IH]; intros weekStart Hfuel; simpl.
  - unfold weeksBetween. rewrite seqZ_nil; [done | lia].
  - destruct (Z.leb_spec weekStart current) as [Hle|Hlt].
    + rewrite (weeksBetween_cons _ _ Hle), fmap_cons. f_equal.
      apply IH.
      replace (current - (weekStart + secondsPerWeek))
        with ((current - weekStart) + (-1) * secondsPerWeek) by lia.
      rewrite Z.div_add by (rewrite secondsPerWeek_value; lia). lia.
    + by rewrite weeksBetween_nil.
Qed.

(** The fuel of [buildResult] is enough: the loop ends on its own test,
    and any larger fuel gives the same series. *)
Lemma buildResult_weeksBetween {R} (point : Z → Z → R) counts first current :
  buildResult point counts first current
  = (λ week, point week (getOrZero counts week)) <$> weeksBetween first current.
Proof.
  unfold buildResult, weekFuel. apply fillWeeks_weeksBetween.
  assert ((current - first) / secondsPerWeek + 1
          ≤ Z.succ (Z.succ ((current - first) / secondsPerWeek))) by lia.
  lia.
Qed.

Lemma fillWeeks_fuel {R} (point : Z → Z → R) counts fuel first current :
  (weekFuel first current ≤ fuel)%nat →
  fillWeeks point counts fuel first current = buildResult point counts first current.
Proof.
  intros Hfuel. rewrite buildResult_weeksBetween. apply fillWeeks_weeksBetween.
  unfold weekFuel in Hfuel. lia.
Qed.

Lemma weeksBetween_lookup first current (i : nat) week :
  weeksBetween first current !! i = Some week ↔
  week = first + Z.of_nat i * secondsPerWeek ∧ week ≤ current.
Proof.
  unfold weeksBetween. rewrite list_lookup_fmap, fmap_Some.
  pose proof secondsPerWeek_value as HW.
  split.
  - intros (k & Hk & ->). apply lookup_seqZ in Hk as [-> Hlt].
    split; [lia|].
    assert (Z.of_nat i ≤ (current - first) / secondsPerWeek) as Hi by lia.
    assert (secondsPerWeek * ((current - first) / secondsPerWeek) ≤ current - first).
    { apply Z.mul_div_le. lia. }
    nia.
  - intros [-> Hle]. exists (Z.of_nat i). split; [|done].
    apply lookup_seqZ. split; [lia|].
    assert (Z.of_nat i ≤ (current - first) / secondsPerWeek); [|lia].
    apply Z.div_le_lower_bound; lia.
Qed.

Lemma weeksBetween_length first current :
  first ≤ current →
  Z.of_nat (length (weeksBetween first current)) = (current - first) / secondsPerWeek + 1.
Proof.
  intros Hle. unfold weeksBetween. rewrite length_fmap, length_seqZ.
  assert (0 ≤ (current - first) / secondsPerWeek).
  { apply Z.div_pos; rewrite ?secondsPerWeek_value; lia. }
  lia.
Qed.

(** A week on the grid of [first], between the bounds, is in the list. *)
Lemma weeksBetween_elem first current week :
  first ≤ week ≤ current →
  (week - first) mod secondsPerWeek = 0 →
  week ∈ weeksBetween first current.
Proof.
  intros Hrange Hgrid. pose proof secondsPerWeek_value as HW.
  apply list_elem_of_lookup.
  exists (Z.to_nat ((week - first) / secondsPerWeek)).
  apply weeksBetween_lookup. split; [|lia].
  assert (0 ≤ (week - first) / secondsPerWeek) by (apply Z.div_pos; lia).
  rewrite Z2Nat.id by done.
  pose proof (Z.div_mod (week - first) secondsPerWeek). lia.
Qed.

(** ** Counting dates per week *)

Lemma countsOf_getOrZero m seen week :
  countsOf m seen → getOrZero m week = Z.of_nat (length (datesInWeek week seen)).
Proof.
  intros Hm. unfold getOrZero. rewrite (Hm week).
  case_decide as Hnil; [by rewrite Hnil|].
  destruct (datesInWeek week seen); [done|].
  by destruct (Z.eqb_spec (Z.of_nat (length (z :: l))) 0).
Qed.

Lemma countsOf_countDate m seen date :
  countsOf m seen → countsOf (countDate m date) (seen ++ [date]).
Proof.
  intros Hm week. unfold countDate.
  rewrite (countsOf_getOrZero _ _ _ Hm).
  unfold datesInWeek. rewrite filter_app, filter_cons, filter_nil.
  destruct (decide (weekOfDate date = week)) as [->|Hne].
  - rewrite lookup_insert_eq.
    case_decide as Hnil; [by destruct (filter _ seen)|].
    rewrite length_app. simpl. f_equal. lia.
  - rewrite lookup_insert_ne by done. rewrite app_nil_r. apply Hm.
Qed.

Lemma countsOf_foldl dates m seen :
  countsOf m seen → countsOf (foldl countDate m dates) (seen ++ dates).
Proof.
  revert m seen. induction dates as [|date dates IH]; intros m seen Hm; simpl.
  - by rewrite app_nil_r.
  - rewrite (assoc_L (++) seen [date] dates : seen ++ date :: dates = _).
    apply IH. by apply countsOf_countDate.
Qed.

Lemma countPerWeek_countsOf dates : countsOf (countPerWeek dates) dates.
Proof.
  apply (countsOf_foldl dates ∅ []). intros week. by rewrite lookup_empty.
Qed.

(** The value read back for a week is the number of dates in that week. *)
Lemma countPerWeek_getOrZero dates week :
  getOrZero (countPerWeek dates) week = Z.of_nat (length (datesInWeek week dates)).
Proof. apply countsOf_getOrZero, countPerWeek_countsOf. Qed.

Lemma countPerWeek_None dates week :
  countPerWeek dates !! week = None ↔ ∀ date, date ∈ dates → weekOfDate date ≠ week.
Proof.
  rewrite (countPerWeek_countsOf dates week). unfold datesInWeek.
  case_decide as Hnil.
  - split; [|done]. intros _ date Hin Heq.
    assert (date ∈ filter (λ d, weekOfDate d = week) dates) as Hf
      by (apply list_elem_of_filter; done).
    rewrite Hnil in Hf. by apply elem_of_nil in Hf.
  - split; [done|]. intros Hno. exfalso. apply Hnil.
    destruct (filter _ dates) as [|d l] eqn:Hf; [done|].
    assert (d ∈ filter (λ d, weekOfDate d = week) dates) as Hd
      by (rewrite Hf; left).
    apply list_elem_of_filter in Hd as [Hw Hin]. by destruct (Hno d Hin).
Qed.

Lemma getOrZero_None m key : m !! key = None → getOrZero m key = 0.
Proof. intros H. unfold getOrZero. by rewrite H. Qed.

(** Counting does not depend on the order of the dates. *)
Lemma datesInWeek_length_Permutation week l l' :
  l ≡ₚ l' → length (datesInWeek week l) = length (datesInWeek week l').
Proof. intros Hp. unfold datesInWeek. by rewrite Hp. Qed.

(** ** The pagination loop *)

Section PaginationFacts.
Context {A : Type}.
Variable fetch : Z → Response A.
Variable push : list Z → A → list Z.
Variable failure : Response A → js_error.
Variable maxPages : Z.

Local Abbreviation loop := (pageLoop fetch push failure maxPages).

(** What a run that starts in [st] returns when its last request is for
    page [last]. *)
Local Abbreviation outcomeFrom st last k :=
  (if ok (fetch last) then
     match json (fetch last) with
     | NotJson => Rejected SyntaxError
     | _ => Resolved (foldl push (dates st)
                        (concat ((λ j, items (fetch j)) <$> seqZ (page st) k)))
     end
   else Rejected (failure (fetch last))).

Lemma pageLoop_done fuel st :
  hasMore st = false → loop fuel st = (requested st, Resolved (dates st)).
Proof. intros Hmore. destruct fuel; simpl; [done|]. by rewrite Hmore. Qed.

Lemma pageLoop_spec fuel st :
  hasMore st = true →
  (Z.to_nat (maxPages + 1 - page st) < fuel)%nat →
  ∃ k : Z,
    0 ≤ k ∧ page st + k ≤ Z.max (page st) (maxPages + 1) ∧
    (loop fuel st).1 = requested st ++ seqZ (page st) k ∧
    (∀ j, page st ≤ j < page st + k - 1 → fullPage (fetch j) = true) ∧
    (k = 0 → maxPages < page st ∧ (loop fuel st).2 = Resolved (dates st)) ∧
    (0 < k →
       (fullPage (fetch (page st + k - 1)) = false ∨ page st + k - 1 = maxPages) ∧
       (loop fuel st).2 = outcomeFrom st (page st + k - 1) k).
Proof.
  revert st. induction fuel as [|fuel IH]; intros st Hmore Hfuel; [lia|].
  simpl. rewrite Hmore. simpl.
  destruct (Z.leb_spec (page st) maxPages) as [Hle|Hgt].
  2:{ exists 0. simpl. rewrite app_nil_r. repeat split; try lia. }
  unfold pageBody.
  destruct (ok (fetch (page st))) eqn:Hok; simpl.
  2:{ exists 1. replace (page st + 1 - 1) with (page st) by lia.
      rewrite Hok. repeat split; try lia.
      left. unfold fullPage. by rewrite Hok. }
  assert (∀ st', hasMore st' = false →
            requested st' = requested st ++ [page st] →
            dates st' = foldl push (dates st) (items (fetch (page st))) →
            fullPage (fetch (page st)) = false →
            json (fetch (page st)) ≠ NotJson →
            ∃ k : Z,
              0 ≤ k ∧ page st + k ≤ Z.max (page st) (maxPages + 1) ∧
              (loop fuel st').1 = requested st ++ seqZ (page st) k ∧
              (∀ j, page st ≤ j < page st + k - 1 → fullPage (fetch j) = true) ∧
              (k = 0 → maxPages < page st ∧ (loop fuel st').2 = Resolved (dates st)) ∧
              (0 < k →
                 (fullPage (fetch (page st + k - 1)) = false
                  ∨ page st + k - 1 = maxPages) ∧
                 (loop fuel st').2 = outcomeFrom st (page st + k - 1) k)) as Hlast.
  { intros st' Hmore' Hreq Hdates Hfull Hparsed. exists 1.
    rewrite (pageLoop_done _ _ Hmore'). simpl.
    replace (page st + 1 - 1) with (page st) by lia.
    rewrite Hok, Hreq, Hdates, app_nil_r.
    repeat split; try lia; [by left|].
    by destruct (json (fetch (page st))). }
  destruct (json (fetch (page st))) as [| |[|x data]] eqn:Hjson.
  - exists 1. replace (page st + 1 - 1) with (page st) by lia.
    rewrite Hok, Hjson. repeat split; try lia.
    left. unfold fullPage, items. by rewrite Hok, Hjson.
  - apply Hlast; simpl; try done.
    + unfold items. by rewrite Hjson.
    + unfold fullPage, items. by rewrite Hok, Hjson.
  - apply Hlast; simpl; try done.
    + unfold items. by rewrite Hjson.
    + unfold fullPage, items. by rewrite Hok, Hjson.
  - destruct (Z.ltb_spec (Z.of_nat (length (x :: data))) 100) as [Hshort|Hlong].
    + apply Hlast; simpl; try done.
      * unfold items. by rewrite Hjson.
      * unfold fullPage, items. rewrite Hok, Hjson. simpl.
        apply Z.leb_gt. simpl in Hshort. lia.
    + simpl negb.
      set (st' := {| dates := foldl push (dates st) (x :: data);
                     page := page st + 1; hasMore := true;
                     requested := requested st ++ [page st] |}).
      assert (fullPage (fetch (page st)) = true) as Hfull.
      { unfold fullPage, items. rewrite Hok, Hjson. simpl.
        apply Z.leb_le. simpl in Hlong. lia. }
      destruct (IH st') as (k & Hk & Hbound & Hlog & Hpages & Hzero & Hpos);
        [done | simpl; lia |].
      simpl in Hbound, Hlog, Hpages, Hzero, Hpos.
      exists (k + 1).
      replace (page st + (k + 1) - 1) with (page st + k) by lia.
      split; [lia|]. split; [lia|]. split.
      { rewrite Hlog, <- (assoc_L (++)). f_equal.
        rewrite (seqZ_cons (page st) (k + 1)) by lia.
        by replace (Z.pred (k + 1)) with k by lia. }
      split.
      { intros j Hj. destruct (decide (j = page st)) as [->|Hne]; [done|].
        apply Hpages. lia. }
      split; [lia|]. intros _.
      destruct (decide (k = 0)) as [->|Hne].
      * destruct (Hzero eq_refl) as [Hmax Hres].
        replace (page st + 0) with (page st) by lia.
        split; [right; lia|].
        rewrite Hres, Hok, Hjson. simpl dates.
        rewrite (seqZ_cons (page st) (0 + 1)) by lia.
        rewrite seqZ_nil by lia. simpl.
        unfold items. rewrite Hjson. simpl. by rewrite app_nil_r.
      * destruct Hpos as [Hstop Hres]; [lia|].
        replace (page st + 1 + k - 1) with (page st + k) in Hstop, Hres by lia.
        split; [done|]. rewrite Hres.
        destruct (ok (fetch (page st + k))); [|done].
        assert (foldl push (foldl push (dates st) (x :: data))
                  (concat ((λ j, items (fetch j)) <$> seqZ (page st + 1) k))
                = foldl push (dates st)
                    (concat ((λ j, items (fetch j)) <$> seqZ (page st) (k + 1))))
          as Hdates.
        { rewrite (seqZ_cons (page st) (k + 1)) by lia.
          replace (Z.pred (k + 1)) with k by lia.
          rewrite fmap_cons. simpl concat. rewrite foldl_app.
          replace (items (fetch (page st))) with (x :: data)
            by (unfold items; by rewrite Hjson).
          by replace (Z.succ (page st)) with (page st + 1) by lia. }
        simpl foldl in Hdates. rewrite Hdates.
        by destruct (json (fetch (page st + k))).
Qed.

(** The loop is total: its fuel is never what ends it, so any fuel
    above the number of pages left gives the same run. *)
Lemma pageLoop_fuel fuel fuel' st :
  (Z.to_nat (maxPages + 1 - page st) < fuel)%nat →
  (Z.to_nat (maxPages + 1 - page st) < fuel')%nat →
  loop fuel st = loop fuel' st.
Proof.
  revert fuel' st. induction fuel as [|fuel IH]; intros fuel' st Hf Hf'; [lia|].
  destruct fuel' as [|fuel']; [lia|]. simpl.
  destruct (hasMore st) eqn:Hmore; [|done]. simpl.
  destruct (Z.leb_spec (page st) maxPages) as [Hle|Hgt]; [|done].
  destruct (pageBody fetch push failure st) as [e|st'] eqn:Hbody; [done|].
  unfold pageBody in Hbody.
  destruct (ok (fetch (page st))); simpl in Hbody; [|done].
  destruct (json (fetch (page st))) as [| |[|x data]];
    inversion Hbody; subst st'; clear Hbody;
    try (by rewrite !pageLoop_done).
  apply IH; simpl; lia.
Qed.

Lemma fetchPages_spec :
  ∃ k : Z, stopsAt fetch maxPages k ∧
    (fetchPages fetch push failure maxPages).1 = seqZ 1 k ∧
    (fetchPages fetch push failure maxPages).2 = outcomeAt fetch push failure k.
Proof.
  unfold fetchPages, pageFuel.
  destruct (pageLoop_spec (S (Z.to_nat maxPages)) initialPageLoop)
    as (k & Hk & Hbound & Hlog & Hpages & Hzero & Hpos); [done | simpl; lia |].
  simpl in *. exists k. unfold stopsAt, outcomeAt.
  replace (1 + k - 1) with k in * by lia.
  split; [|split; [done|]].
  - split; [done|]. split; [lia|]. split; [intros j Hj; apply Hpages; lia|].
    split; [intros ->; by apply Hzero|]. intros Hlt. by apply Hpos.
  - destruct (Z.eqb_spec k 0) as [->|Hne]; [by apply Hzero|].
    apply Hpos. lia.
Qed.

(** The stopping page is determined by the responses and the ceiling. *)
Lemma stopsAt_unique k k' :
  stopsAt fetch maxPages k → stopsAt fetch maxPages k' → k = k'.
Proof.
  intros (Hk & Hmax & Hfull & Hzero & Hstop) (Hk' & Hmax' & Hfull' & Hzero' & Hstop').
  destruct (Z.lt_trichotomy k k') as [Hlt|[->|Hlt]]; [|done|].
  - destruct (decide (k = 0)) as [->|Hne]; [specialize (Hzero eq_refl); lia|].
    destruct Hstop as [Hnot|Heq]; [lia| |lia].
    rewrite Hfull' in Hnot by lia. done.
  - destruct (decide (k' = 0)) as [->|Hne]; [specialize (Hzero' eq_refl); lia|].
    destruct Hstop' as [Hnot|Heq]; [lia| |lia].
    rewrite Hfull in Hnot by lia. done.
Qed.

Lemma fetchPages_stopsAt k :
  stopsAt fetch maxPages k →
  (fetchPages fetch push failure maxPages).1 = seqZ 1 k ∧
  (fetchPages fetch push failure maxPages).2 = outcomeAt fetch push failure k.
Proof.
  intros Hk. destruct fetchPages_spec as (k' & Hk' & Hlog & Hres).
  by rewrite (stopsAt_unique k k' Hk Hk').
Qed.
End PaginationFacts.

(** ** The contributor tally *)

Lemma setAdd_elem s x y : y ∈ setAdd s x ↔ y ∈ s ∨ y = x.
Proof.
  unfold setAdd. case_decide as Hin.
  - split; [by left|]. by intros [?| ->].
  - rewrite elem_of_app, list_elem_of_singleton. done.
Qed.

Lemma setAdd_NoDup s x : NoDup s → NoDup (setAdd s x).
Proof.
  intros Hs. unfold setAdd. case_decide as Hin; [done|].
  apply NoDup_app. split; [done|]. split; [|apply NoDup_singleton].
  intros y Hy Hyx. apply list_elem_of_singleton in Hyx as ->. done.
Qed.

Lemma talliesOf_getOrZero t seen week :
  talliesOf t seen →
  getOrZero (weekToContributors t) week = Z.of_nat (length (activeEntries week seen)).
Proof.
  intros (_ & _ & Hm). unfold getOrZero. rewrite (Hm week).
  case_decide as Hnil; [by rewrite Hnil|].
  destruct (activeEntries week seen) as [|e l]; [done|].
  by destruct (Z.eqb_spec (Z.of_nat (length (e :: l))) 0).
Qed.

Lemma talliesOf_tallyWeek t seen e :
  talliesOf t seen → talliesOf (tallyWeek t e) (seen ++ [e]).
Proof.
  intros Ht. pose proof (talliesOf_getOrZero t seen (w e) Ht) as Hget.
  destruct Ht as (Hnd & Hin & Hm).
  split; [by apply setAdd_NoDup|]. split.
  - intros week. simpl. rewrite setAdd_elem, Hin, fmap_app, elem_of_app.
    simpl. by rewrite list_elem_of_singleton.
  - intros week. simpl. unfold activeEntries.
    rewrite filter_app, filter_cons, filter_nil.
    destruct (Z.ltb_spec 0 (c e)) as [Hpos|Hzero].
    + destruct (decide (w e = week)) as [<-|Hne].
      * rewrite lookup_insert_eq, Hget.
        destruct (decide (w e = w e ∧ 0 < c e)) as [_|Hn]; [|by destruct Hn].
        case_decide as Hnil; [by destruct (filter _ seen)|].
        rewrite length_app. simpl. f_equal. unfold activeEntries. lia.
      * rewrite lookup_insert_ne by done.
        destruct (decide (w e = week ∧ 0 < c e)) as [[? _]|_]; [done|].
        rewrite app_nil_r. apply Hm.
    + destruct (decide (w e = week ∧ 0 < c e)) as [[_ ?]|_]; [lia|].
      rewrite app_nil_r. apply Hm.
Qed.

Lemma talliesOf_foldl entries t seen :
  talliesOf t seen → talliesOf (foldl tallyWeek t entries) (seen ++ entries).
Proof.
  revert t seen. induction entries as [|e entries IH]; intros t seen Ht; simpl.
  - by rewrite app_nil_r.
  - rewrite (assoc_L (++) seen [e] entries : seen ++ e :: entries = _).
    apply IH. by apply talliesOf_tallyWeek.
Qed.

Lemma foldl_tallyContributor data t :
  foldl tallyContributor t data = foldl tallyWeek t (allEntries data).
Proof.
  revert t. induction data as [|k data IH]; intros t; [done|].
  unfold allEntries. simpl. rewrite foldl_app. apply IH.
Qed.

Lemma tally_talliesOf data :
  talliesOf (foldl tallyContributor {| allWeeks := []; weekToContributors := ∅ |} data)
    (allEntries data).
Proof.
  rewrite foldl_tallyContributor.
  apply (talliesOf_foldl (allEntries data) _ []).
  split; [apply NoDup_nil_2|]. split; [done|].
  intros week. simpl. apply lookup_empty.
Qed.

(** The reduction in closed form: the distinct week keys in ascending
    order, each with the number of its entries that carry commits. *)
Lemma contributorWeeks_eq data :
  contributorWeeks data
  = (λ week, ContributorWeek.mk week
               (Z.of_nat (length (activeEntries week (allEntries data)))))
    <$> merge_sort Z.le
          (allWeeks (foldl tallyContributor
                       {| allWeeks := []; weekToContributors := ∅ |} data)).
Proof.
  unfold contributorWeeks. apply list_fmap_ext. intros _ week _. simpl.
  f_equal. apply talliesOf_getOrZero, tally_talliesOf.
Qed.

Lemma contributorWeeks_weeks data :
  ContributorWeek.week <$> contributorWeeks data
  = merge_sort Z.le
      (allWeeks (foldl tallyContributor
                   {| allWeeks := []; weekToContributors := ∅ |} data)).
Proof.
  unfold contributorWeeks. rewrite <- list_fmap_compose.
  rewrite <- (list_fmap_id (merge_sort _ _)) at 2.
  by apply list_fmap_ext.
Qed.

Lemma contributorWeeks_NoDup data :
  NoDup (ContributorWeek.week <$> contributorWeeks data).
Proof.
  rewrite contributorWeeks_weeks, merge_sort_Permutation.
  apply (tally_talliesOf data).
Qed.

Lemma contributorWeeks_elem data week :
  week ∈ ContributorWeek.week <$> contributorWeeks data ↔ week ∈ w <$> allEntries data.
Proof.
  rewrite contributorWeeks_weeks, merge_sort_Permutation.
  apply (tally_talliesOf data).
Qed.

Lemma StronglySorted_lookup_le (l : list Z) i j x y :
  StronglySorted Z.le l → l !! i = Some x → l !! j = Some y → (i < j)%nat → x ≤ y.
Proof.
  intros Hs. revert i j x y.
  induction Hs as [|a l Hs IH Hall]; intros i j x y Hi Hj Hlt.
  - done.
  - destruct j as [|j]; [lia|]. simpl in Hj. destruct i as [|i].
    + simpl in Hi. inversion Hi; subst a.
      rewrite Forall_forall in Hall. apply Hall.
      eapply list_elem_of_lookup_2. done.
    + simpl in Hi. apply (IH i j); [done..|lia].
Qed.

(** Consecutive points of the contributor series are in strictly
    ascending week order. *)
Lemma contributorWeeks_ascending data (i : nat) p q :
  contributorWeeks data !! i = Some p →
  contributorWeeks data !! S i = Some q →
  ContributorWeek.week p < ContributorWeek.week q.
Proof.
  intros Hp Hq.
  assert ((ContributorWeek.week <$> contributorWeeks data) !! i
          = Some (ContributorWeek.week p)) as Hp'
    by (by rewrite list_lookup_fmap, Hp).
  assert ((ContributorWeek.week <$> contributorWeeks data) !! S i
          = Some (ContributorWeek.week q)) as Hq'
    by (by rewrite list_lookup_fmap, Hq).
  assert (ContributorWeek.week p ≤ ContributorWeek.week q) as Hle.
  { rewrite contributorWeeks_weeks in Hp', Hq'.
    eapply (StronglySorted_lookup_le _ i (S i)); [|done..|lia].
    apply (StronglySorted_merge_sort Z.le). }
  assert (ContributorWeek.week p ≠ ContributorWeek.week q); [|lia].
  intros Heq. rewrite <- Heq in Hq'.
  pose proof (NoDup_lookup _ _ _ _ (contributorWeeks_NoDup data) Hp' Hq'). lia.
Qed.

(** ** The star and issue series in closed form *)

Lemma starWeeks_nil dateNow : starWeeks dateNow [] = [].
Proof. done. Qed.

Lemma starWeeks_eq dateNow starDates :
  starDates ≠ [] →
  starWeeks dateNow starDates
  = (λ week, StarWeek.mk week (Z.of_nat (length (datesInWeek week starDates))))
    <$> weeksBetween (weekOfDate (firstStarDate starDates)) (weekOfDate dateNow).
Proof.
  intros Hne. unfold starWeeks.
  destruct starDates as [|d l]; [done|]. simpl length. simpl Nat.eqb. cbv iota.
  rewrite buildResult_weeksBetween. apply list_fmap_ext. intros _ week _. simpl.
  f_equal. rewrite countPerWeek_getOrZero. f_equal.
  apply datesInWeek_length_Permutation, merge_sort_Permutation.
Qed.

Lemma issueWeeks_eq fiftyTwoWeeksAgo dateNow issueDates :
  issueWeeks fiftyTwoWeeksAgo dateNow issueDates
  = (λ week, IssueWeek.mk week (Z.of_nat (length (datesInWeek week issueDates))))
    <$> weeksBetween (weekOfDate fiftyTwoWeeksAgo) (weekOfDate dateNow).
Proof.
  unfold issueWeeks. rewrite buildResult_weeksBetween.
  apply list_fmap_ext. intros _ week _. simpl.
  by rewrite countPerWeek_getOrZero.
Qed.

Lemma firstStarDate_elem starDates :
  starDates ≠ [] → firstStarDate starDates ∈ starDates.
Proof.
  intros Hne. unfold firstStarDate.
  pose proof (merge_sort_Permutation Z.le starDates) as Hperm.
  destruct (merge_sort Z.le starDates) as [|d l] eqn:Hsort.
  - apply Permutation_nil_l in Hperm. done.
  - simpl. rewrite <- Hperm. left.
Qed.

Lemma firstStarDate_least starDates date :
  date ∈ starDates → firstStarDate starDates ≤ date.
Proof.
  intros Hin. unfold firstStarDate.
  pose proof (merge_sort_Permutation Z.le starDates) as Hperm.
  pose proof (StronglySorted_merge_sort Z.le starDates) as Hsorted.
  rewrite <- Hperm in Hin.
  destruct (merge_sort Z.le starDates) as [|d l]; [by apply elem_of_nil in Hin|].
  simpl. apply StronglySorted_inv in Hsorted as [_ Hall].
  apply elem_of_cons in Hin as [->|Hin]; [done|].
  rewrite Forall_forall in Hall. by apply Hall.
Qed.

Lemma fetchStarHistory_Resolved fetch dateNow owner name maxPages series :
  fetchStarHistory fetch dateNow owner name maxPages = Resolved series →
  ∃ starDates,
    (starPages fetch owner name maxPages).2 = Resolved starDates ∧
    series = starWeeks dateNow starDates.
Proof.
  unfold fetchStarHistory.
  destruct (starPages fetch owner name maxPages).2 as [starDates|e]; [|done].
  intros [= <-]. by exists starDates.
Qed.

Lemma fetchIssuesOverTime_Resolved fetch fiftyTwoWeeksAgo dateNow owner name maxPages series :
  fetchIssuesOverTime fetch fiftyTwoWeeksAgo dateNow owner name maxPages = Resolved series →
  ∃ issueDates,
    (openedPages fetch fiftyTwoWeeksAgo owner name maxPages).2 = Resolved issueDates ∧
    series = issueWeeks fiftyTwoWeeksAgo dateNow issueDates.
Proof.
  unfold fetchIssuesOverTime.
  destruct (openedPages fetch fiftyTwoWeeksAgo owner name maxPages).2
    as [issueDates|e]; [|done].
  intros [= <-]. by exists issueDates.
Qed.

Lemma fetchIssuesClosedOverTime_Resolved fetch fiftyTwoWeeksAgo dateNow owner name maxPages series :
  fetchIssuesClosedOverTime fetch fiftyTwoWeeksAgo dateNow owner name maxPages = Resolved series →
  ∃ closedDates,
    (closedPages fetch fiftyTwoWeeksAgo owner name maxPages).2 = Resolved closedDates ∧
    series = issueWeeks fiftyTwoWeeksAgo dateNow closedDates.
Proof.
  unfold fetchIssuesClosedOverTime.
  destruct (closedPages fetch fiftyTwoWeeksAgo owner name maxPages).2
    as [closedDates|e]; [|done].
  intros [= <-]. by exists closedDates.
Qed.

(** Whatever is read off the weeks between two bounds steps by one week. *)
Lemma weeksBetween_fmap_step {R} (f : Z → R) (week : R → Z) first current (i : nat) p q :
  (∀ x, week (f x) = x) →
  (f <$> weeksBetween first current) !! i = Some p →
  (f <$> weeksBetween first current) !! S i = Some q →
  week q - week p = 604800.
Proof.
  intros Hweek Hp Hq.
  rewrite list_lookup_fmap, fmap_Some in Hp, Hq.
  destruct Hp as (x & Hx & ->), Hq as (y & Hy & ->).
  apply weeksBetween_lookup in Hx as [-> _], Hy as [-> _].
  rewrite !Hweek, secondsPerWeek_value. lia.
Qed.

Lemma weeksBetween_fmap_mod {R} (f : Z → R) (week : R → Z) first current p :
  (∀ x, week (f x) = x) →
  first mod secondsPerWeek = 0 →
  p ∈ f <$> weeksBetween first current →
  week p mod 604800 = 0.
Proof.
  intros Hweek Hfirst Hp.
  apply list_elem_of_fmap in Hp as (x & -> & Hx).
  apply list_elem_of_lookup in Hx as [i Hi].
  apply weeksBetween_lookup in Hi as [-> _].
  rewrite Hweek, <- secondsPerWeek_value.
  rewrite Z.mod_add by (rewrite secondsPerWeek_value; lia). done.
Qed.

Lemma starWeeks_step dateNow starDates (i : nat) p q :
  starWeeks dateNow starDates !! i = Some p →
  starWeeks dateNow starDates !! S i = Some q →
  StarWeek.week q - StarWeek.week p = 604800.
Proof.
  destruct (decide (starDates = [])) as [->|Hne]; [done|].
  rewrite (starWeeks_eq _ _ Hne). by apply weeksBetween_fmap_step.
Qed.

Lemma issueWeeks_step fiftyTwoWeeksAgo dateNow issueDates (i : nat) p q :
  issueWeeks fiftyTwoWeeksAgo dateNow issueDates !! i = Some p →
  issueWeeks fiftyTwoWeeksAgo dateNow issueDates !! S i = Some q →
  IssueWeek.week q - IssueWeek.week p = 604800.
Proof. rewrite issueWeeks_eq. by apply weeksBetween_fmap_step. Qed.

Lemma starWeeks_mod dateNow starDates p :
  p ∈ starWeeks dateNow starDates → StarWeek.week p mod 604800 = 0.
Proof.
  destruct (decide (starDates = [])) as [->|Hne].
  - intros Hin. by apply elem_of_nil in Hin.
  - rewrite (starWeeks_eq _ _ Hne).
    apply weeksBetween_fmap_mod; [done | apply weekOfDate_mod].
Qed.

Lemma issueWeeks_mod fiftyTwoWeeksAgo dateNow issueDates p :
  p ∈ issueWeeks fiftyTwoWeeksAgo dateNow issueDates → IssueWeek.week p mod 604800 = 0.
Proof.
  rewrite issueWeeks_eq.
  apply weeksBetween_fmap_mod; [done | apply weekOfDate_mod].
Qed.

Lemma weeksBetween_last first current :
  first ≤ current →
  (current - first) mod secondsPerWeek = 0 →
  last (weeksBetween first current) = Some current.
Proof.
  intros Hle Hgrid. pose proof secondsPerWeek_value as HW.
  rewrite last_lookup. apply weeksBetween_lookup.
  pose proof (weeksBetween_length _ _ Hle) as Hlen.
  assert (0 ≤ (current - first) / secondsPerWeek) by (apply Z.div_pos; lia).
  pose proof (Z.div_mod (current - first) secondsPerWeek).
  split; [|lia].
  replace (Z.of_nat (Init.Nat.pred (length (weeksBetween first current))))
    with ((current - first) / secondsPerWeek) by lia.
  lia.
Qed.

Lemma weeks_on_one_grid a b :
  a mod secondsPerWeek = 0 → b mod secondsPerWeek = 0 → (b - a) mod secondsPerWeek = 0.
Proof.
  intros Ha Hb. pose proof secondsPerWeek_value as HW.
  rewrite Zminus_mod, Ha, Hb. done.
Qed.

(** ** Steps of the series *)

(** C1, as the claim states it, fails for the contributor series: a
    contributor whose week keys are 1700352000 and 1701561600 gives two
    consecutive points 1209600 seconds apart. *)
Lemma C1_contributor_series_gap :
  ¬ (∀ series (i : nat) p q,
       fetchContributorsOverTime sparseContributors "o" "r" = Resolved series →
       series !! i = Some p → series !! S i = Some q →
       ContributorWeek.week q - ContributorWeek.week p = 604800).
Proof.
  intros Hdense.
  specialize (Hdense [ContributorWeek.mk 1700352000 1; ContributorWeek.mk 1701561600 1]
                0%nat (ContributorWeek.mk 1700352000 1) (ContributorWeek.mk 1701561600 1)
                eq_refl eq_refl eq_refl).
  simpl in Hdense. lia.
Qed.

(** C1 (amended).  In every series returned by the star-history, the
    issues-opened and the issues-closed operation, consecutive points are
    exactly 604800 seconds apart: no gaps, no duplicate weeks, strictly
    chronological.  In every series returned by the contributor operation
    consecutive points are in strictly increasing week order (so no week
    occurs twice); their distance is that of the week keys of the data. *)
Theorem C1_series_steps :
  (∀ fetch dateNow owner name maxPages series (i : nat) p q,
     fetchStarHistory fetch dateNow owner name maxPages = Resolved series →
     series !! i = Some p → series !! S i = Some q →
     StarWeek.week q - StarWeek.week p = 604800) ∧
  (∀ fetch fiftyTwoWeeksAgo dateNow owner name maxPages series (i : nat) p q,
     fetchIssuesOverTime fetch fiftyTwoWeeksAgo dateNow owner name maxPages
       = Resolved series →
     series !! i = Some p → series !! S i = Some q →
     IssueWeek.week q - IssueWeek.week p = 604800) ∧
  (∀ fetch fiftyTwoWeeksAgo dateNow owner name maxPages series (i : nat) p q,
     fetchIssuesClosedOverTime fetch fiftyTwoWeeksAgo dateNow owner name maxPages
       = Resolved series →
     series !! i = Some p → series !! S i = Some q →
     IssueWeek.week q - IssueWeek.week p = 604800) ∧
  (∀ response owner name series (i : nat) p q,
     fetchContributorsOverTime response owner name = Resolved series →
     series !! i = Some p → series !! S i = Some q →
     ContributorWeek.week p < ContributorWeek.week q).
Proof.
  repeat split.
  - intros * Hres Hp Hq.
    apply fetchStarHistory_Resolved in Hres as (starDates & _ & ->).
    by eapply starWeeks_step.
  - intros * Hres Hp Hq.
    apply fetchIssuesOverTime_Resolved in Hres as (issueDates & _ & ->).
    by eapply issueWeeks_step.
  - intros * Hres Hp Hq.
    apply fetchIssuesClosedOverTime_Resolved in Hres as (closedDates & _ & ->).
    by eapply issueWeeks_step.
  - intros response owner name series i p q Hres Hp Hq.
    unfold fetchContributorsOverTime in Hres.
    destruct (negb (ok response)); [done|].
    destruct (json response) as [| |[|k data]]; try done.
    injection Hres as <-. by eapply contributorWeeks_ascending.
Qed.

Lemma C1_series_steps_witness :
  fetchStarHistory sampleStars sampleNow "o" "r" None
    = Resolved [StarWeek.mk 1699488000 2; StarWeek.mk 1700092800 0;
                StarWeek.mk 1700697600 1] ∧
  StarWeek.week (StarWeek.mk 1700092800 0) - StarWeek.week (StarWeek.mk 1699488000 2)
    = 604800.
Proof.
  split; [vm_compute; reflexivity|].
  apply (proj1 C1_series_steps sampleStars sampleNow "o" "r" None
           [StarWeek.mk 1699488000 2; StarWeek.mk 1700092800 0;
            StarWeek.mk 1700697600 1] 0%nat);
    vm_compute; reflexivity.
Defined.

(** ** Alignment of the buckets *)

(** C7.  The bucketing [t - (t % 604800)] is anchored at the epoch: for
    every timestamp its result is congruent to 0 modulo 604800.  Hence
    every week emitted in a star or issue series is divisible by 604800,
    and so are the bounds of the range: the series of the star operation
    ends at the aligned current week, and the series of the issue
    operations start at the aligned week of the horizon and end at the
    aligned current week. *)
Theorem C7_bucket_alignment :
  (∀ t, weekStartOf t mod 604800 = 0 mod 604800 ∧ Z.rem (weekStartOf t) 604800 = 0) ∧
  (∀ date, weekOfDate date mod 604800 = 0) ∧
  (∀ fetch dateNow owner name maxPages series,
     fetchStarHistory fetch dateNow owner name maxPages = Resolved series →
     (∀ p, p ∈ series → StarWeek.week p mod 604800 = 0) ∧
     (∀ p, last series = Some p → StarWeek.week p = weekOfDate dateNow)) ∧
  (∀ fetch fiftyTwoWeeksAgo dateNow owner name maxPages series,
     fetchIssuesOverTime fetch fiftyTwoWeeksAgo dateNow owner name maxPages
       = Resolved series →
     (∀ p, p ∈ series → IssueWeek.week p mod 604800 = 0) ∧
     (∀ p, head series = Some p → IssueWeek.week p = weekOfDate fiftyTwoWeeksAgo) ∧
     (∀ p, last series = Some p → IssueWeek.week p = weekOfDate dateNow)) ∧
  (∀ fetch fiftyTwoWeeksAgo dateNow owner name maxPages series,
     fetchIssuesClosedOverTime fetch fiftyTwoWeeksAgo dateNow owner name maxPages
       = Resolved series →
     (∀ p, p ∈ series → IssueWeek.week p mod 604800 = 0) ∧
     (∀ p, head series = Some p → IssueWeek.week p = weekOfDate fiftyTwoWeeksAgo) ∧
     (∀ p, last series = Some p → IssueWeek.week p = weekOfDate dateNow)).
Proof.
  assert (∀ R (f : Z → R) (week : R → Z) first current p,
            (∀ x, week (f x) = x) →
            first mod secondsPerWeek = 0 → current mod secondsPerWeek = 0 →
            last (f <$> weeksBetween first current) = Some p →
            week p = current) as Hlast.
  { intros R f week first current p Hweek Hfirst Hcurrent Hp.
    rewrite fmap_last, fmap_Some in Hp. destruct Hp as (x & Hx & ->).
    rewrite Hweek.
    destruct (Z.le_gt_cases first current) as [Hle|Hgt].
    - rewrite weeksBetween_last in Hx; [congruence | done |].
      by apply weeks_on_one_grid.
    - by rewrite weeksBetween_nil in Hx by lia. }
  assert (∀ R (f : Z → R) (week : R → Z) first current p,
            (∀ x, week (f x) = x) →
            head (f <$> weeksBetween first current) = Some p →
            week p = first) as Hhead.
  { intros R f week first current p Hweek Hp.
    rewrite head_lookup, list_lookup_fmap, fmap_Some in Hp.
    destruct Hp as (x & Hx & ->). rewrite Hweek.
    apply weeksBetween_lookup in Hx as [-> _]. lia. }
  split; [|split; [|split; [|split]]].
  - intros t. rewrite <- secondsPerWeek_value.
    by rewrite weekStartOf_mod, weekStartOf_rem.
  - intros date. rewrite <- secondsPerWeek_value. apply weekOfDate_mod.
  - intros * Hres.
    apply fetchStarHistory_Resolved in Hres as (starDates & _ & ->).
    split; [intros p; apply starWeeks_mod|].
    intros p Hp. destruct (decide (starDates = [])) as [->|Hne]; [done|].
    rewrite (starWeeks_eq _ _ Hne) in Hp.
    eapply Hlast; [| | |exact Hp]; [done|apply weekOfDate_mod..].
  - intros * Hres.
    apply fetchIssuesOverTime_Resolved in Hres as (issueDates & _ & ->).
    split; [intros p; apply issueWeeks_mod|].
    rewrite issueWeeks_eq. split; intros p Hp.
    + eapply Hhead; [|exact Hp]; done.
    + eapply Hlast; [| | |exact Hp]; [done|apply weekOfDate_mod..].
  - intros * Hres.
    apply fetchIssuesClosedOverTime_Resolved in Hres as (closedDates & _ & ->).
    split; [intros p; apply issueWeeks_mod|].
    rewrite issueWeeks_eq. split; intros p Hp.
    + eapply Hhead; [|exact Hp]; done.
    + eapply Hlast; [| | |exact Hp]; [done|apply weekOfDate_mod..].
Qed.

Lemma C7_bucket_alignment_witness :
  fetchIssuesOverTime sampleIssues sampleHorizon sampleNow "o" "r" None
    = Resolved [IssueWeek.mk 1698278400 0; IssueWeek.mk 1698883200 0;
                IssueWeek.mk 1699488000 2; IssueWeek.mk 1700092800 0;
                IssueWeek.mk 1700697600 0] ∧
  IssueWeek.week (IssueWeek.mk 1699488000 2) mod 604800 = 0.
Proof.
  split; [vm_compute; reflexivity|].
  apply (proj1 (proj1 (proj2 (proj2 (proj2 C7_bucket_alignment)))
                  sampleIssues sampleHorizon sampleNow "o" "r" None _
                  ltac:(vm_compute; reflexivity))).
  apply list_elem_of_In. vm_compute. tauto.
Defined.

(** ** Zero fill *)

Lemma datesInWeek_nil_iff week dates :
  datesInWeek week dates = [] ↔ ∀ date, date ∈ dates → weekOfDate date ≠ week.
Proof.
  unfold datesInWeek. split.
  - intros Hnil date Hin Heq.
    assert (date ∈ filter (λ d, weekOfDate d = week) dates) as Hf
      by (by apply list_elem_of_filter).
    rewrite Hnil in Hf. by apply elem_of_nil in Hf.
  - intros Hno. destruct (filter _ dates) as [|d l] eqn:Hf; [done|].
    assert (d ∈ filter (λ d, weekOfDate d = week) dates) as Hd by (rewrite Hf; left).
    apply list_elem_of_filter in Hd as [Hw Hin]. by destruct (Hno d Hin).
Qed.

Lemma buildResult_zero_fill {R} (point : Z → Z → R) counts first current week :
  first mod 604800 = 0 → week mod 604800 = 0 →
  first ≤ week ≤ current →
  counts !! week = None →
  point week 0 ∈ buildResult point counts first current.
Proof.
  intros Hfirst Hweek Hrange Hnone.
  rewrite buildResult_weeksBetween. apply list_elem_of_fmap.
  exists week. split; [by rewrite (getOrZero_None _ _ Hnone)|].
  apply weeksBetween_elem; [done|]. by apply weeks_on_one_grid.
Qed.

(** C2, as the claim states it, fails when the clock has passed week
    N + 2: the sample stars fall in the weeks 2810 and 2812 only, and with
    the current instant in week 2813 the series has four points. *)
Lemma C2_star_series_runs_to_current_week :
  (starPages sampleStars "o" "r" None).2
    = Resolved [1699500000000; 1700700400000; 1699488000000] ∧
  weekOfDate <$> [1699500000000; 1700700400000; 1699488000000]
    = [2810 * 604800; 2812 * 604800; 2810 * 604800] ∧
  fetchStarHistory sampleStars lateNow "o" "r" None
    = Resolved [StarWeek.mk (2810 * 604800) 2; StarWeek.mk (2811 * 604800) 0;
                StarWeek.mk (2812 * 604800) 1; StarWeek.mk (2813 * 604800) 0].
Proof. repeat split; vm_compute; reflexivity. Qed.

(** C2 (amended).  For every bucket-aligned week inside the range
    [firstWeek, currentWeek] for which the counts mapping has no entry, the
    assembled series contains a point for that week with value exactly 0,
    in the loop itself and in the star and issue series.  In particular,
    star events only in the weeks N and N + 2, fetched when the current
    week is N + 2 or later, yield a series that starts with the points of
    N, N + 1 and N + 2, where N + 1 has value 0; the series has exactly
    these three points when the current week is N + 2, and otherwise goes
    on to the current week. *)
Theorem C2_zero_fill :
  (∀ R (point : Z → Z → R) counts firstWeek currentWeek week,
     firstWeek mod 604800 = 0 → week mod 604800 = 0 →
     firstWeek ≤ week ≤ currentWeek →
     counts !! week = None →
     point week 0 ∈ buildResult point counts firstWeek currentWeek) ∧
  (∀ dateNow starDates week,
     starDates ≠ [] → week mod 604800 = 0 →
     weekOfDate (firstStarDate starDates) ≤ week ≤ weekOfDate dateNow →
     countPerWeek (merge_sort Z.le starDates) !! week = None →
     StarWeek.mk week 0 ∈ starWeeks dateNow starDates) ∧
  (∀ fiftyTwoWeeksAgo dateNow issueDates week,
     week mod 604800 = 0 →
     weekOfDate fiftyTwoWeeksAgo ≤ week ≤ weekOfDate dateNow →
     countPerWeek issueDates !! week = None →
     IssueWeek.mk week 0 ∈ issueWeeks fiftyTwoWeeksAgo dateNow issueDates) ∧
  (∀ fetch dateNow owner name maxPages starDates N,
     (starPages fetch owner name maxPages).2 = Resolved starDates →
     Exists (λ date, weekOfDate date = N * 604800) starDates →
     Exists (λ date, weekOfDate date = (N + 2) * 604800) starDates →
     Forall (λ date, weekOfDate date = N * 604800
                     ∨ weekOfDate date = (N + 2) * 604800) starDates →
     (N + 2) * 604800 ≤ weekOfDate dateNow →
     ∃ a b rest,
       0 < a ∧ 0 < b ∧
       fetchStarHistory fetch dateNow owner name maxPages
         = Resolved (StarWeek.mk (N * 604800) a
                     :: StarWeek.mk ((N + 1) * 604800) 0
                     :: StarWeek.mk ((N + 2) * 604800) b :: rest) ∧
       (rest = [] ↔ weekOfDate dateNow = (N + 2) * 604800)).
Proof.
  split; [|split; [|split]].
  - intros *. apply buildResult_zero_fill.
  - intros dateNow starDates week Hne Hweek Hrange Hnone.
    rewrite (starWeeks_eq _ _ Hne). apply list_elem_of_fmap.
    exists week. split.
    + f_equal. rewrite countPerWeek_None in Hnone.
      assert (datesInWeek week starDates = []) as ->; [|done].
      apply datesInWeek_nil_iff. intros date Hin. apply Hnone.
      by rewrite merge_sort_Permutation.
    + apply weeksBetween_elem; [done|].
      rewrite <- secondsPerWeek_value in Hweek.
      apply weeks_on_one_grid; [apply weekOfDate_mod | done].
  - intros fiftyTwoWeeksAgo dateNow issueDates week Hweek Hrange Hnone.
    rewrite issueWeeks_eq. apply list_elem_of_fmap.
    exists week. split.
    + f_equal. rewrite countPerWeek_None in Hnone.
      assert (datesInWeek week issueDates = []) as ->; [|done].
      by apply datesInWeek_nil_iff.
    + apply weeksBetween_elem; [done|].
      rewrite <- secondsPerWeek_value in Hweek.
      apply weeks_on_one_grid; [apply weekOfDate_mod | done].
  - intros fetch dateNow owner name maxPages starDates N Hpages HN HN2 Hall Hnow.
    unfold fetchStarHistory. rewrite Hpages.
    rewrite <- secondsPerWeek_value in *.
    pose proof secondsPerWeek_value as HW.
    apply Exists_exists in HN as (dN & HdN & HwN).
    apply Exists_exists in HN2 as (dN2 & HdN2 & HwN2).
    rewrite Forall_forall in Hall.
    assert (starDates ≠ []) as Hne by (intros ->; by apply elem_of_nil in HdN).
    assert (weekOfDate (firstStarDate starDates) = N * secondsPerWeek) as Hfirst.
    { pose proof (firstStarDate_elem _ Hne) as Hin.
      pose proof (weekOfDate_mono _ _ (firstStarDate_least _ _ HdN)) as Hle.
      destruct (Hall _ Hin) as [?|Heq]; [done|]. lia. }
    rewrite (starWeeks_eq _ _ Hne), Hfirst.
    rewrite (weeksBetween_cons (N * secondsPerWeek)) by lia.
    rewrite (weeksBetween_cons (N * secondsPerWeek + secondsPerWeek)) by lia.
    rewrite (weeksBetween_cons (N * secondsPerWeek + secondsPerWeek + secondsPerWeek))
      by lia.
    rewrite !fmap_cons.
    replace (N * secondsPerWeek + secondsPerWeek) with ((N + 1) * secondsPerWeek) by lia.
    replace ((N + 1) * secondsPerWeek + secondsPerWeek)
      with ((N + 2) * secondsPerWeek) by lia.
    assert (datesInWeek ((N + 1) * secondsPerWeek) starDates = []) as ->.
    { apply datesInWeek_nil_iff. intros date Hin. destruct (Hall _ Hin); lia. }
    eexists _, _, _. split; [|split; [|split; [reflexivity|]]].
    + assert (dN ∈ datesInWeek (N * secondsPerWeek) starDates) as Hin
        by (by apply list_elem_of_filter).
      destruct (datesInWeek _ starDates); [by apply elem_of_nil in Hin|].
      simpl. lia.
    + assert (dN2 ∈ datesInWeek ((N + 2) * secondsPerWeek) starDates) as Hin
        by (by apply list_elem_of_filter).
      destruct (datesInWeek _ starDates); [by apply elem_of_nil in Hin|].
      simpl. lia.
    + split.
      * intros Hnil. apply fmap_nil_inv in Hnil.
        destruct (Z.le_gt_cases ((N + 2) * secondsPerWeek + secondsPerWeek)
                    (weekOfDate dateNow)) as [Hle|Hgt].
        { by rewrite (weeksBetween_cons _ _ Hle) in Hnil. }
        pose proof (weekOfDate_mod dateNow) as Hmod.
        apply Z.mod_divide in Hmod as [q Hq]; lia.
      * intros Heq. rewrite weeksBetween_nil; [done | lia].
Qed.

Lemma C2_zero_fill_witness :
  countPerWeek [1700000000000; 1699500000000] !! 1700092800 = None ∧
  IssueWeek.mk 1700092800 0
    ∈ issueWeeks sampleHorizon sampleNow [1700000000000; 1699500000000].
Proof.
  split; [vm_compute; reflexivity|].
  apply (proj1 (proj2 (proj2 C2_zero_fill))).
  - reflexivity.
  - vm_compute. split; discriminate.
  - vm_compute. reflexivity.
Defined.

(** ** Pagination *)

Lemma fullPage_true {A} (response : Response A) :
  fullPage response = true ↔
  ok response = true ∧ 100 ≤ Z.of_nat (length (items response)).
Proof. unfold fullPage. rewrite andb_true_iff, Z.leb_le. done. Qed.

Lemma fullPage_false {A} (response : Response A) :
  fullPage response = false ↔
  ok response = false ∨ Z.of_nat (length (items response)) < 100.
Proof. unfold fullPage. rewrite andb_false_iff, Z.leb_gt. done. Qed.

Lemma fetchPages_paginates {A} (fetch : Z → Response A) push failure maxPages :
  paginates fetch maxPages (foldl push []) (fetchPages fetch push failure maxPages).
Proof.
  destruct (fetchPages_spec fetch push failure maxPages)
    as (k & (Hk & Hmax & Hfull & Hzero & Hstop) & Hlog & Hres).
  exists k. unfold outcomeAt in Hres.
  split; [done|]. split; [done|]. split; [|split; [|split]].
  - intros j Hj. by apply fullPage_true, Hfull.
  - intros ->. split; [by apply Hzero | done].
  - intros Hpos. destruct (Hstop Hpos) as [Hnot| ->]; [|by right; right].
    apply fullPage_false in Hnot as [?|?]; [by left | by right; left].
  - intros Hpos Hok. rewrite Hres, Hok.
    by destruct (Z.eqb_spec k 0) as [->|_]; [lia|].
Qed.

Lemma foldl_pushStar starDates data :
  foldl pushStar starDates data = starDates ++ omap starDate data.
Proof.
  revert starDates. induction data as [|star data IH]; intros starDates; simpl.
  - by rewrite app_nil_r.
  - rewrite IH. unfold pushStar, starDate.
    destruct (starred_at star); [by rewrite <- (assoc_L (++))|done].
Qed.

Lemma foldl_pushOpened fiftyTwoWeeksAgo issueDates data :
  foldl (pushOpened fiftyTwoWeeksAgo) issueDates data
  = issueDates ++ omap (openedDate fiftyTwoWeeksAgo) data.
Proof.
  revert issueDates. induction data as [|issue data IH]; intros issueDates; simpl.
  - by rewrite app_nil_r.
  - rewrite IH. unfold pushOpened, openedDate.
    destruct (falsy (pull_request issue)); [|done].
    destruct (created_at issue) as [createdAt|]; [|done].
    destruct (fiftyTwoWeeksAgo <=? createdAt); [by rewrite <- (assoc_L (++))|done].
Qed.

Lemma foldl_pushClosed fiftyTwoWeeksAgo closedDates data :
  foldl (pushClosed fiftyTwoWeeksAgo) closedDates data
  = closedDates ++ omap (closedDate fiftyTwoWeeksAgo) data.
Proof.
  revert closedDates. induction data as [|issue data IH]; intros closedDates; simpl.
  - by rewrite app_nil_r.
  - rewrite IH. unfold pushClosed, closedDate.
    destruct (falsy (pull_request issue)); [|done].
    destruct (closed_at issue) as [closedAt|]; [|done].
    destruct (fiftyTwoWeeksAgo <=? closedAt); [by rewrite <- (assoc_L (++))|done].
Qed.

Lemma paginates_ext {A} (fetch : Z → Response A) maxPages kept kept' run :
  (∀ data, kept data = kept' data) →
  paginates fetch maxPages kept run → paginates fetch maxPages kept' run.
Proof.
  intros Hext (k & Hk & Hlog & Hfull & Hzero & Hstop & Hres).
  exists k. repeat (split; [done|]). intros Hpos Hok.
  by rewrite <- Hext, Hres.
Qed.

(** C6.  Each of the three paginated operations requests the pages 1, 2,
    ... in order and stops exactly at the first page that returns fewer
    than 100 items (none included) or at the page ceiling (10 when none is
    given) -- or at a page that fails; the accumulated dates are those of
    the items of the fetched pages, in page order.  With pages of sizes
    100, 100 and 57 exactly the pages 1, 2 and 3 are requested, with the
    default ceiling and with the ceiling 10. *)
Theorem C6_pagination :
  (∀ fetch owner name maxPages,
     paginates fetch (default 10 maxPages) (omap starDate)
       (starPages fetch owner name maxPages)) ∧
  (∀ fetch fiftyTwoWeeksAgo owner name maxPages,
     paginates fetch (default 10 maxPages) (omap (openedDate fiftyTwoWeeksAgo))
       (openedPages fetch fiftyTwoWeeksAgo owner name maxPages)) ∧
  (∀ fetch fiftyTwoWeeksAgo owner name maxPages,
     paginates fetch (default 10 maxPages) (omap (closedDate fiftyTwoWeeksAgo))
       (closedPages fetch fiftyTwoWeeksAgo owner name maxPages)) ∧
  (∀ (fetch : Z → Response Stargazer) owner name maxPages,
     maxPages = None ∨ maxPages = Some 10 →
     ok (fetch 1) = true → length (items (fetch 1)) = 100%nat →
     ok (fetch 2) = true → length (items (fetch 2)) = 100%nat →
     ok (fetch 3) = true → length (items (fetch 3)) = 57%nat →
     (starPages fetch owner name maxPages).1 = [1; 2; 3] ∧
     (starPages fetch owner name maxPages).2
       = Resolved (omap starDate (items (fetch 1) ++ items (fetch 2) ++ items (fetch 3)))).
Proof.
  split; [|split; [|split]].
  - intros *. eapply paginates_ext; [|apply fetchPages_paginates].
    intros data. by rewrite foldl_pushStar.
  - intros *. eapply paginates_ext; [|apply fetchPages_paginates].
    intros data. by rewrite foldl_pushOpened.
  - intros *. eapply paginates_ext; [|apply fetchPages_paginates].
    intros data. by rewrite foldl_pushClosed.
  - intros fetch owner name maxPages Hmax Hok1 Hlen1 Hok2 Hlen2 Hok3 Hlen3.
    assert (default 10 maxPages = 10) as Hten by (by destruct Hmax as [-> | ->]).
    unfold starPages. rewrite Hten.
    destruct (fetchPages_stopsAt fetch pushStar
                (pageFailure "star history" owner name) 10 3) as [Hlog Hres].
    { split; [lia|]. split; [lia|]. split; [|split; [lia|]].
      - intros j Hj. apply fullPage_true.
        assert (j = 1 ∨ j = 2) as [-> | ->] by lia; split; try done; lia.
      - intros _. left. apply fullPage_false. right. lia. }
    split; [by rewrite Hlog|].
    rewrite Hres. unfold outcomeAt. simpl. rewrite Hok3.
    assert (json (fetch 3) ≠ NotJson) as Hparsed.
    { intros Hjson. unfold items in Hlen3. by rewrite Hjson in Hlen3. }
    destruct (json (fetch 3)); [done|..];
      f_equal; rewrite foldl_pushStar; simpl; by rewrite app_nil_r.
Qed.

Lemma C6_pagination_witness :
  (starPages threePages "o" "r" None).1 = [1; 2; 3].
Proof.
  apply (proj2 (proj2 (proj2 C6_pagination)) threePages "o" "r" None);
    first [by left | vm_compute; reflexivity].
Defined.

(** ** Failure part-way *)

(** C9.  If the request for some page fails -- the first or any later
    one the loop reaches, that is one within the ceiling whose earlier
    pages were all successful and full -- the whole operation rejects with
    the error mapped from that response, whatever the earlier pages held:
    no series is returned.  A 404 maps to the not-found error and a 403 to
    the rate-limit error. *)
Theorem C9_failed_page_rejects :
  (∀ fetch dateNow owner name maxPages k,
     1 ≤ k ≤ default 10 maxPages →
     (∀ j, 1 ≤ j < k → fullPage (fetch j) = true) →
     ok (fetch k) = false →
     fetchStarHistory fetch dateNow owner name maxPages
       = Rejected (pageFailure "star history" owner name (fetch k))) ∧
  (∀ fetch fiftyTwoWeeksAgo dateNow owner name maxPages k,
     1 ≤ k ≤ default 10 maxPages →
     (∀ j, 1 ≤ j < k → fullPage (fetch j) = true) →
     ok (fetch k) = false →
     fetchIssuesOverTime fetch fiftyTwoWeeksAgo dateNow owner name maxPages
       = Rejected (pageFailure "issues" owner name (fetch k))) ∧
  (∀ fetch fiftyTwoWeeksAgo dateNow owner name maxPages k,
     1 ≤ k ≤ default 10 maxPages →
     (∀ j, 1 ≤ j < k → fullPage (fetch j) = true) →
     ok (fetch k) = false →
     fetchIssuesClosedOverTime fetch fiftyTwoWeeksAgo dateNow owner name maxPages
       = Rejected (pageFailure "issues" owner name (fetch k))) ∧
  (∀ A what owner name text (body : Json A),
     pageFailure what owner name (mkResponse 404 text body) = notFound owner name ∧
     pageFailure what owner name (mkResponse 403 text body) = rateLimited).
Proof.
  assert (∀ A (fetch : Z → Response A) push failure maxPages k,
            1 ≤ k ≤ maxPages →
            (∀ j, 1 ≤ j < k → fullPage (fetch j) = true) →
            ok (fetch k) = false →
            (fetchPages fetch push failure maxPages).2 = Rejected (failure (fetch k)))
    as Hrejects.
  { intros A fetch push failure maxPages k Hk Hfull Hfail.
    destruct (fetchPages_stopsAt fetch push failure maxPages k) as [_ Hres].
    - split; [lia|]. split; [lia|]. split; [done|]. split; [lia|].
      intros _. left. apply fullPage_false. by left.
    - rewrite Hres. unfold outcomeAt. rewrite Hfail.
      by destruct (Z.eqb_spec k 0) as [->|_]; [lia|]. }
  split; [|split; [|split]].
  - intros * Hk Hfull Hfail. unfold fetchStarHistory, starPages.
    by rewrite (Hrejects _ _ _ _ _ k).
  - intros * Hk Hfull Hfail. unfold fetchIssuesOverTime, openedPages.
    by rewrite (Hrejects _ _ _ _ _ k).
  - intros * Hk Hfull Hfail. unfold fetchIssuesClosedOverTime, closedPages.
    by rewrite (Hrejects _ _ _ _ _ k).
  - done.
Qed.

Lemma C9_failed_page_rejects_witness :
  fetchStarHistory failsOnThirdPage sampleNow "o" "r" None = Rejected rateLimited.
Proof.
  apply (proj1 C9_failed_page_rejects failsOnThirdPage sampleNow "o" "r" None 3).
  - vm_compute. split; discriminate.
  - intros j Hj. assert (j = 1 ∨ j = 2) as [-> | ->] by lia; vm_compute; reflexivity.
  - vm_compute. reflexivity.
Defined.

(** ** Pull requests *)

Lemma pageBody_items {A} (fetch : Z → Response A) push failure st :
  pageBody fetch push failure st =
    if negb (ok (fetch (page st))) then inl (failure (fetch (page st)))
    else if negb (parses (fetch (page st))) then inl SyntaxError
    else
      match items (fetch (page st)) with
      | [] => inr {| dates := dates st; page := page st; hasMore := false;
                     requested := requested st ++ [page st] |}
      | _ :: _ =>
          inr {| dates := foldl push (dates st) (items (fetch (page st)));
                 page := page st + 1;
                 hasMore := negb (Z.of_nat (length (items (fetch (page st)))) <? 100);
                 requested := requested st ++ [page st] |}
      end.
Proof.
  unfold pageBody, items, parses.
  destruct (negb (ok (fetch (page st)))); [done|].
  by destruct (json (fetch (page st))) as [| |[|x data]].
Qed.

(** The loop sees a server only through the success of its responses,
    the failure they map to, whether the body is JSON, the number of items
    and the dates pushed. *)
Lemma pageLoop_ext {A} (fetch fetch' : Z → Response A) push failure maxPages fuel st :
  (∀ p, ok (fetch p) = ok (fetch' p) ∧
        failure (fetch p) = failure (fetch' p) ∧
        parses (fetch p) = parses (fetch' p) ∧
        length (items (fetch p)) = length (items (fetch' p)) ∧
        ∀ acc, foldl push acc (items (fetch p)) = foldl push acc (items (fetch' p))) →
  pageLoop fetch push failure maxPages fuel st
  = pageLoop fetch' push failure maxPages fuel st.
Proof.
  intros Hsame. revert st. induction fuel as [|fuel IH]; intros st; [done|].
  simpl. destruct (hasMore st && (page st <=? maxPages)); [|done].
  rewrite !pageBody_items.
  destruct (Hsame (page st)) as (Hok & Hfail & Hparses & Hlen & Hpush).
  rewrite <- Hok, <- Hfail, <- Hparses, <- Hlen, <- Hpush.
  destruct (negb (ok (fetch (page st)))); [done|].
  destruct (negb (parses (fetch (page st)))); [done|].
  destruct (items (fetch (page st))) as [|x l], (items (fetch' (page st))) as [|x' l'];
    try done; apply IH.
Qed.

Lemma samePageButPulls_loop (fetch fetch' : Z → Response Issue) push what owner name
    maxPages :
  (∀ dates issue, falsy (pull_request issue) = false → push dates issue = dates) →
  (∀ p, samePageButPulls (fetch p) (fetch' p)) →
  fetchPages fetch push (pageFailure what owner name) maxPages
  = fetchPages fetch' push (pageFailure what owner name) maxPages.
Proof.
  intros Hskip Hsame. unfold fetchPages. apply pageLoop_ext. intros p.
  destruct (Hsame p) as (Hstatus & Htext & Hparses & Hitems).
  split; [by unfold ok; rewrite Hstatus|].
  split; [by unfold pageFailure, failedToFetch; rewrite Hstatus, Htext|].
  split; [done|].
  split; [by eapply Forall2_length|].
  induction Hitems as [|issue issue' l l' [->|[Hpr Hpr']] _ IH]; intros acc; simpl.
  - done.
  - apply IH.
  - rewrite (Hskip _ _ Hpr), (Hskip _ _ Hpr'). apply IH.
Qed.

Lemma pushOpened_pull_request fiftyTwoWeeksAgo issueDates issue :
  falsy (pull_request issue) = false →
  pushOpened fiftyTwoWeeksAgo issueDates issue = issueDates.
Proof. intros Hpr. unfold pushOpened. by rewrite Hpr. Qed.

Lemma pushClosed_pull_request fiftyTwoWeeksAgo closedDates issue :
  falsy (pull_request issue) = false →
  pushClosed fiftyTwoWeeksAgo closedDates issue = closedDates.
Proof. intros Hpr. unfold pushClosed. by rewrite Hpr. Qed.

(** C5.  An issue-shaped record that carries the pull-request
    discriminator (its [pull_request] field holds a truthy value, as the
    object of every pull request is) contributes to neither series, for
    all inputs: the callbacks push no date for it; the dates collected
    from a page are those collected from the page without the record; and
    the series of both operations are the same for two servers that
    differ only in what their pull requests carry. *)
Theorem C5_pull_requests_excluded :
  (∀ fiftyTwoWeeksAgo dates issue,
     falsy (pull_request issue) = false →
     pushOpened fiftyTwoWeeksAgo dates issue = dates ∧
     pushClosed fiftyTwoWeeksAgo dates issue = dates) ∧
  (∀ fiftyTwoWeeksAgo dates before issue after,
     falsy (pull_request issue) = false →
     foldl (pushOpened fiftyTwoWeeksAgo) dates (before ++ issue :: after)
       = foldl (pushOpened fiftyTwoWeeksAgo) dates (before ++ after) ∧
     foldl (pushClosed fiftyTwoWeeksAgo) dates (before ++ issue :: after)
       = foldl (pushClosed fiftyTwoWeeksAgo) dates (before ++ after)) ∧
  (∀ fetch fetch' fiftyTwoWeeksAgo dateNow owner name maxPages,
     (∀ page, samePageButPulls (fetch page) (fetch' page)) →
     fetchIssuesOverTime fetch fiftyTwoWeeksAgo dateNow owner name maxPages
       = fetchIssuesOverTime fetch' fiftyTwoWeeksAgo dateNow owner name maxPages ∧
     fetchIssuesClosedOverTime fetch fiftyTwoWeeksAgo dateNow owner name maxPages
       = fetchIssuesClosedOverTime fetch' fiftyTwoWeeksAgo dateNow owner name maxPages).
Proof.
  split; [|split].
  - intros * Hpr.
    by rewrite pushOpened_pull_request, pushClosed_pull_request.
  - intros * Hpr. rewrite !foldl_app. simpl.
    by rewrite pushOpened_pull_request, pushClosed_pull_request.
  - intros * Hsame.
    unfold fetchIssuesOverTime, fetchIssuesClosedOverTime, openedPages, closedPages.
    rewrite (samePageButPulls_loop fetch fetch' (pushOpened fiftyTwoWeeksAgo));
      [|intros; by apply pushOpened_pull_request | done].
    rewrite (samePageButPulls_loop fetch fetch' (pushClosed fiftyTwoWeeksAgo));
      [|intros; by apply pushClosed_pull_request | done].
    done.
Qed.

Lemma C5_pull_requests_excluded_witness :
  pushOpened sampleHorizon [1700000000000]
    (mkIssue (Some 1700000100000) (Some 1700000200000) (Some JsObject))
    = [1700000000000] ∧
  pushClosed sampleHorizon [1700000000000]
    (mkIssue (Some 1700000100000) (Some 1700000200000) (Some JsObject))
    = [1700000000000].
Proof.
  apply (proj1 C5_pull_requests_excluded). reflexivity.
Defined.

(** ** The contributor reduction *)

Lemma StronglySorted_le_NoDup_lt (l : list Z) :
  StronglySorted Z.le l → NoDup l → StronglySorted Z.lt l.
Proof.
  induction 1 as [|x l Hs IH Hall]; intros Hnd; [constructor|].
  apply NoDup_cons in Hnd as [Hx Hnd]. constructor; [by apply IH|].
  rewrite Forall_forall in Hall |- *. intros y Hy.
  assert (x ≠ y) by (intros ->; done). specialize (Hall y Hy). lia.
Qed.

Lemma activeEntries_app week l l' :
  activeEntries week (l ++ l') = activeEntries week l ++ activeEntries week l'.
Proof. unfold activeEntries. apply filter_app. Qed.

(** A record that lists each week once has at most one entry for it. *)
Lemma activeEntries_once week (entries : list WeekEntry) :
  NoDup (w <$> entries) →
  length (activeEntries week entries)
  = if decide (Exists (λ e, w e = week ∧ 0 < c e) entries) then 1%nat else 0%nat.
Proof.
  induction entries as [|e entries IH]; intros Hnd.
  - destruct (decide (Exists _ [])) as [Hex|_]; [by apply Exists_nil in Hex | done].
  - rewrite fmap_cons in Hnd. apply NoDup_cons in Hnd as [He Hnd].
    unfold activeEntries. rewrite filter_cons.
    destruct (decide (w e = week ∧ 0 < c e)) as [[Hw Hc]|Hno].
    + rewrite decide_True by (by left).
      assert (filter (λ e0, w e0 = week ∧ 0 < c e0) entries = []) as ->; [|done].
      destruct (filter _ entries) as [|e' l] eqn:Hf; [done|].
      assert (e' ∈ filter (λ e0, w e0 = week ∧ 0 < c e0) entries) as Hin
        by (rewrite Hf; left).
      apply list_elem_of_filter in Hin as [[Hw' _] Hin].
      destruct He. rewrite Hw, <- Hw'. by apply list_elem_of_fmap_2.
    + fold (activeEntries week entries). rewrite (IH Hnd).
      destruct (decide (Exists _ entries)) as [Hex|Hex].
      * by rewrite decide_True by (by right).
      * rewrite decide_False; [done|].
        intros Hex'. apply Exists_cons in Hex' as [?|?]; done.
Qed.

Lemma activeEntries_activeContributors week data :
  (∀ k, k ∈ data → NoDup (w <$> weeks k)) →
  length (activeEntries week (allEntries data))
  = length (activeContributors week data).
Proof.
  induction data as [|k data IH]; intros Hnd; [done|].
  unfold allEntries. rewrite fmap_cons. simpl concat.
  rewrite activeEntries_app, length_app.
  rewrite activeEntries_once by (apply Hnd; left).
  fold (allEntries data). rewrite IH by (intros k' Hk'; apply Hnd; by right).
  unfold activeContributors. rewrite filter_cons.
  by destruct (decide (Exists _ (weeks k))).
Qed.

Lemma activeLogins_size week data :
  NoDup (login <$> data) →
  size (activeLogins week data) = length (activeContributors week data).
Proof.
  intros Hnd. unfold activeLogins. rewrite size_list_to_set, length_fmap; [done|].
  eapply sublist_NoDup; [exact Hnd|].
  apply fmap_sublist, sublist_filter.
Qed.

Lemma contributorWeeks_value data p :
  p ∈ contributorWeeks data →
  ContributorWeek.contributors p
  = Z.of_nat (length (activeEntries (ContributorWeek.week p) (allEntries data))).
Proof.
  rewrite contributorWeeks_eq. intros Hp.
  by apply list_elem_of_fmap in Hp as (week & -> & _).
Qed.

Lemma allEntries_elem data e :
  e ∈ allEntries data ↔ ∃ k, k ∈ data ∧ e ∈ weeks k.
Proof.
  unfold allEntries. induction data as [|k data IH]; simpl.
  - split; [by intros ?%elem_of_nil|]. by intros (k & ?%elem_of_nil & _).
  - rewrite elem_of_app, IH. split.
    + intros [He|(k' & Hk' & He)]; [exists k; split; [left|done]|].
      exists k'. split; [by right|done].
    + intros (k' & Hk' & He). apply elem_of_cons in Hk' as [->|Hk']; [by left|].
      right. eauto.
Qed.

(** The reduction counts week entries and never looks at the login, so
    outside the shape the endpoint sends the value need not be a number of
    contributors: a record that lists a week twice, both times with
    commits, gives 2 for one contributor. *)
Lemma repeated_week_counted_twice :
  contributorWeeks repeatedWeek = [ContributorWeek.mk 1700352000 2] ∧
  size (activeLogins 1700352000 repeatedWeek) = 1%nat.
Proof. split; vm_compute; reflexivity. Qed.

(** C3.  For any list of contributor records the reduction returns one
    point per week in the union of all contributors' week keys, in
    ascending order -- a week whose entries all carry no commits included,
    with value 0.  For records as the endpoint sends them, one record per
    contributor and one entry per week in a record, each point's value is
    the count of distinct contributors whose commit count for that week is
    greater than zero.  The contributors a with (w = 1000 * 604800, c = 3)
    and b with (w = 1000 * 604800, c = 0) yield exactly one point, of week
    1000 * 604800 and value 1. *)
Theorem C3_contributor_weeks :
  (∀ data,
     StronglySorted Z.lt (ContributorWeek.week <$> contributorWeeks data) ∧
     (∀ week,
        week ∈ ContributorWeek.week <$> contributorWeeks data
        ↔ ∃ k e, k ∈ data ∧ e ∈ weeks k ∧ w e = week) ∧
     (∀ k e, k ∈ data → e ∈ weeks k →
        (∀ k' e', k' ∈ data → e' ∈ weeks k' → w e' = w e → c e' ≤ 0) →
        ContributorWeek.mk (w e) 0 ∈ contributorWeeks data) ∧
     (NoDup (login <$> data) →
      (∀ k, k ∈ data → NoDup (w <$> weeks k)) →
      ∀ p, p ∈ contributorWeeks data →
        ContributorWeek.contributors p
        = Z.of_nat (size (activeLogins (ContributorWeek.week p) data)))) ∧
  contributorWeeks scenarioContributors = [ContributorWeek.mk (1000 * 604800) 1].
Proof.
  split; [|vm_compute; reflexivity].
  intros data.
  assert (∀ week,
            week ∈ ContributorWeek.week <$> contributorWeeks data
            ↔ ∃ k e, k ∈ data ∧ e ∈ weeks k ∧ w e = week) as Hkeys.
  { intros week. rewrite contributorWeeks_elem, list_elem_of_fmap. split.
    - intros (e & -> & He). apply allEntries_elem in He as (k & Hk & He). eauto.
    - intros (k & e & Hk & He & <-). exists e. split; [done|].
      apply allEntries_elem. eauto. }
  split; [|split; [done|split]].
  - apply StronglySorted_le_NoDup_lt; [|apply contributorWeeks_NoDup].
    rewrite contributorWeeks_weeks. apply (StronglySorted_merge_sort Z.le).
  - intros k e Hk He Hnone.
    assert (w e ∈ ContributorWeek.week <$> contributorWeeks data) as Hin
      by (apply Hkeys; eauto).
    apply list_elem_of_fmap in Hin as (p & Hw & Hp).
    pose proof (contributorWeeks_value _ _ Hp) as Hvalue.
    rewrite <- Hw in Hvalue.
    assert (activeEntries (w e) (allEntries data) = []) as Hnil.
    { unfold activeEntries.
      destruct (filter _ (allEntries data)) as [|e' l] eqn:Hf; [done|].
      assert (e' ∈ filter (λ e0, w e0 = w e ∧ 0 < c e0) (allEntries data)) as Hin
        by (rewrite Hf; left).
      apply list_elem_of_filter in Hin as [[Hw' Hc'] Hin].
      apply allEntries_elem in Hin as (k' & Hk' & He').
      specialize (Hnone k' e' Hk' He' Hw'). lia. }
    rewrite Hnil in Hvalue. destruct p as [week value]. simpl in *. by subst.
  - intros Hlogins Hweeks p Hp.
    rewrite (contributorWeeks_value _ _ Hp).
    by rewrite activeEntries_activeContributors, activeLogins_size.
Qed.

Lemma C3_contributor_weeks_witness :
  NoDup (login <$> scenarioContributors) ∧
  ContributorWeek.contributors (ContributorWeek.mk (1000 * 604800) 1)
  = Z.of_nat (size (activeLogins (1000 * 604800) scenarioContributors)).
Proof.
  assert (NoDup (login <$> scenarioContributors)) as Hlogins.
  { apply (bool_decide_unpack _). vm_compute. exact I. }
  split; [exact Hlogins|].
  apply (proj2 (proj2 (proj2 (proj1 C3_contributor_weeks scenarioContributors)))
           Hlogins).
  - intros k Hk. apply list_elem_of_In in Hk. simpl in Hk.
    destruct Hk as [<-|[<-|[]]]; apply (bool_decide_unpack _); vm_compute; exact I.
  - apply list_elem_of_In. vm_compute. tauto.
Defined.

(** ** Empty input *)

Lemma fetchPages_no_items {A} (fetch : Z → Response A) push failure maxPages :
  ok (fetch 1) = true → parses (fetch 1) = true → items (fetch 1) = [] →
  (fetchPages fetch push failure maxPages).2 = Resolved [].
Proof.
  intros Hok Hparses Hnone.
  destruct (fetchPages_spec fetch push failure maxPages)
    as (k & (Hk & Hmax & Hfull & Hzero & Hstop) & _ & ->).
  unfold outcomeAt. destruct (Z.eqb_spec k 0) as [->|Hne]; [done|].
  assert (fullPage (fetch 1) = false) as Hshort
    by (apply fullPage_false; right; rewrite Hnone; simpl; lia).
  assert (k = 1) as ->.
  { destruct (decide (k = 1)) as [|Hne1]; [done|].
    rewrite Hfull in Hshort by lia. done. }
  rewrite Hok, (seqZ_cons 1 1) by lia. rewrite seqZ_nil by lia.
  rewrite fmap_cons, fmap_nil. cbn [concat]. rewrite Hnone.
  unfold parses in Hparses. by destruct (json (fetch 1)).
Qed.

Lemma issueWeeks_no_dates fiftyTwoWeeksAgo dateNow :
  issueWeeks fiftyTwoWeeksAgo dateNow []
  = (λ week, IssueWeek.mk week 0)
    <$> weeksBetween (weekOfDate fiftyTwoWeeksAgo) (weekOfDate dateNow).
Proof. by rewrite issueWeeks_eq. Qed.

Lemma contributorWeeks_no_entries data :
  (∀ k, k ∈ data → weeks k = []) ↔ contributorWeeks data = [].
Proof.
  split.
  - intros Hnone.
    destruct (contributorWeeks data) as [|p l] eqn:Hseries; [done|].
    assert (ContributorWeek.week p ∈ ContributorWeek.week <$> contributorWeeks data)
      as Hin by (rewrite Hseries; left).
    apply contributorWeeks_elem, list_elem_of_fmap in Hin as (e & _ & He).
    apply allEntries_elem in He as (k & Hk & He).
    rewrite (Hnone k Hk) in He. by apply elem_of_nil in He.
  - intros Hnil k Hk. destruct (weeks k) as [|e l] eqn:Hweeks; [done|].
    assert (w e ∈ ContributorWeek.week <$> contributorWeeks data) as Hin.
    { apply contributorWeeks_elem, list_elem_of_fmap_2, allEntries_elem.
      exists k. split; [done|]. rewrite Hweeks. left. }
    rewrite Hnil in Hin. by apply elem_of_nil in Hin.
Qed.

(** Moving an instant of 1971 or later back by 52 weeks moves its week
    back by 52 weeks. *)
Lemma weekOfDate_52_weeks_back dateNow :
  0 ≤ dateNow - 52 * 7 * 86400000 →
  weekOfDate (dateNow - 52 * 7 * 86400000) = weekOfDate dateNow - 52 * 604800.
Proof.
  intros Hpos. unfold weekOfDate, unixSeconds, weekStartOf.
  rewrite secondsPerWeek_value.
  replace (dateNow - 52 * 7 * 86400000) with (dateNow + (-31449600) * 1000) by lia.
  rewrite Z.div_add by lia.
  assert (0 ≤ dateNow / 1000 + -31449600).
  { assert (31449600 ≤ dateNow / 1000); [|lia]. apply Z.div_le_lower_bound; lia. }
  rewrite !Z.rem_mod_nonneg by lia.
  replace (dateNow / 1000 + -31449600) with (dateNow / 1000 + (-52) * 604800) by lia.
  rewrite Z.mod_add by lia. lia.
Qed.

(** C4, as the claim states it, fails for the contributor operation: a
    successful response that carries no contributor record at all rejects
    with [StatsComputingError] instead of resolving with the empty series. *)
Lemma C4_no_contributors_rejected :
  fetchContributorsOverTime (mkResponse 200 "OK" (Array [])) "o" "r"
    = Rejected StatsComputingError ∧
  fetchContributorsOverTime (mkResponse 200 "OK" (Array [])) "o" "r" ≠ Resolved [].
Proof. split; [reflexivity | discriminate]. Qed.

(** C4 (amended).  Aggregating zero raw events yields an empty series, not
    a single zero point, for the star operation (a first page whose JSON
    body holds no items) and for the contributor operation when the response holds
    contributor records that list no week; a contributor response that
    holds no record at all is instead rejected with [StatsComputingError].
    The two issue operations, whose range starts at the horizon, with zero
    observed events still emit the whole series of zero-valued weeks from
    the week of the horizon to the current week: at least one point, and
    53 points when the horizon is exactly 52 weeks before the current
    instant. *)
Theorem C4_empty_input :
  (∀ fetch dateNow owner name maxPages,
     ok (fetch 1) = true → parses (fetch 1) = true → items (fetch 1) = [] →
     fetchStarHistory fetch dateNow owner name maxPages = Resolved []) ∧
  (∀ response owner name k data,
     ok response = true → json response = Array (k :: data) →
     (∀ k', k' ∈ k :: data → weeks k' = []) →
     fetchContributorsOverTime response owner name = Resolved []) ∧
  (∀ response owner name,
     ok response = true → json response = Array [] →
     fetchContributorsOverTime response owner name = Rejected StatsComputingError) ∧
  (∀ fetch fiftyTwoWeeksAgo dateNow owner name maxPages,
     ok (fetch 1) = true → parses (fetch 1) = true → items (fetch 1) = [] →
     fiftyTwoWeeksAgo ≤ dateNow →
     let zeros := (λ week, IssueWeek.mk week 0)
                  <$> weeksBetween (weekOfDate fiftyTwoWeeksAgo) (weekOfDate dateNow) in
     fetchIssuesOverTime fetch fiftyTwoWeeksAgo dateNow owner name maxPages
       = Resolved zeros ∧
     fetchIssuesClosedOverTime fetch fiftyTwoWeeksAgo dateNow owner name maxPages
       = Resolved zeros ∧
     (1 ≤ length zeros)%nat ∧
     (0 ≤ fiftyTwoWeeksAgo → fiftyTwoWeeksAgo = dateNow - 52 * 7 * 86400000 →
      length zeros = 53%nat)).
Proof.
  split; [|split; [|split]].
  - intros * Hok Hparses Hnone. unfold fetchStarHistory, starPages.
    by rewrite fetchPages_no_items.
  - intros response owner name k data Hok Hjson Hnone.
    unfold fetchContributorsOverTime. rewrite Hok, Hjson. simpl.
    f_equal. by apply contributorWeeks_no_entries.
  - intros response owner name Hok Hjson.
    unfold fetchContributorsOverTime. by rewrite Hok, Hjson.
  - intros fetch fiftyTwoWeeksAgo dateNow owner name maxPages Hok Hparses Hnone Hle zeros.
    unfold fetchIssuesOverTime, fetchIssuesClosedOverTime, openedPages, closedPages.
    rewrite !fetchPages_no_items by done. rewrite issueWeeks_no_dates.
    split; [done|]. split; [done|].
    pose proof (weekOfDate_mono _ _ Hle) as Hweeks.
    pose proof (weeksBetween_length _ _ Hweeks) as Hlen.
    unfold zeros. rewrite length_fmap. split.
    + assert (0 ≤ (weekOfDate dateNow - weekOfDate fiftyTwoWeeksAgo) / secondsPerWeek).
      { apply Z.div_pos; [lia | by rewrite secondsPerWeek_value]. }
      lia.
    + intros Hpos ->. rewrite weekOfDate_52_weeks_back in Hlen |- * by done.
      replace (weekOfDate dateNow - (weekOfDate dateNow - 52 * 604800))
        with (52 * secondsPerWeek) in Hlen by (rewrite secondsPerWeek_value; lia).
      rewrite Z.div_mul in Hlen by (by rewrite secondsPerWeek_value). lia.
Qed.

Lemma C4_empty_input_witness :
  fetchStarHistory (λ _, mkResponse 200 "OK" (Array [])) sampleNow "o" "r" None
    = Resolved [].
Proof.
  apply (proj1 C4_empty_input (λ _, mkResponse 200 "OK" (Array [])) sampleNow "o" "r" None);
    reflexivity.
Defined.

(** ** Statistics that are still being computed *)

Lemma commitActivity_map_id (data : list CommitActivity.t) :
  map (λ week, CommitActivity.mk (CommitActivity.week week)
                 (CommitActivity.total week) (CommitActivity.days week)) data
  = data.
Proof. induction data as [|[? ? ?] data IH]; simpl; [done|]. by rewrite IH. Qed.

(** C8.  A 202 response of the commit-activity endpoint -- the statistics
    are being computed, and the body is JSON that carries no items (the
    object [{}]) -- makes the operation reject with [StatsComputingError],
    which is none of the errors made with [new Error]: not the generic
    "Failed to fetch" failure.  A 404 response rejects with the not-found
    error and a 403 response with the rate-limit error. *)
Theorem C8_commit_activity_status_202 :
  (∀ response owner name,
     status response = 202 →
     parses response = true → items response = [] →
     fetchCommitActivity response owner name = Rejected StatsComputingError ∧
     ∀ message, fetchCommitActivity response owner name ≠ Rejected (Error message)) ∧
  (∀ response owner name,
     status response = 404 →
     fetchCommitActivity response owner name = Rejected (notFound owner name)) ∧
  (∀ response owner name,
     status response = 403 →
     fetchCommitActivity response owner name = Rejected rateLimited).
Proof.
  split; [|split].
  - intros response owner name Hstatus Hparses Hnone.
    assert (fetchCommitActivity response owner name = Rejected StatsComputingError)
      as Hrejects.
    { unfold fetchCommitActivity, ok, parses, items in *. rewrite Hstatus. simpl.
      by destruct (json response) as [| |[|week data]]. }
    split; [done|]. intros message. by rewrite Hrejects.
  - intros response owner name Hstatus.
    unfold fetchCommitActivity, ok, statsFailure. by rewrite Hstatus.
  - intros response owner name Hstatus.
    unfold fetchCommitActivity, ok, statsFailure. by rewrite Hstatus.
Qed.

Lemma C8_commit_activity_status_202_witness :
  fetchCommitActivity acceptedComputing "o" "r" = Rejected StatsComputingError ∧
  ∀ message, fetchCommitActivity acceptedComputing "o" "r" ≠ Rejected (Error message).
Proof.
  apply (proj1 C8_commit_activity_status_202 acceptedComputing "o" "r");
    reflexivity.
Defined.

(** C10, as the claim states it, fails twice.  For the contributor
    operation a non-empty array whose record lists no week resolves with
    the empty series.  And a success without a JSON body, as a 204
    response is, rejects with the [SyntaxError] of [response.json()], which
    runs before the body is looked at. *)
Lemma C10_contributors_empty_series :
  (ok contributorWithoutWeeks = true ∧
   fetchContributorsOverTime contributorWithoutWeeks "o" "r" = Resolved []) ∧
  (ok noContent = true ∧ items noContent = [] ∧
   fetchCommitActivity noContent "o" "r" = Rejected SyntaxError ∧
   fetchCommitActivity noContent "o" "r" ≠ Rejected StatsComputingError).
Proof. repeat split; try reflexivity. discriminate. Qed.

(** C10 (amended).  When the commit-activity or the contributors fetch
    receives a successful (2xx) response whose body is JSON and is not an
    array or is an empty array, the operation rejects with
    [StatsComputingError] rather than returning an empty series.  So the
    commit-activity operation never returns an empty series on success;
    the contributors operation returns an empty series on success exactly
    when none of the records of the array lists a week. *)
Theorem C10_stats_empty_body :
  (∀ (response : Response CommitActivity.t) owner name,
     ok response = true →
     json response = NotArray ∨ json response = Array [] →
     fetchCommitActivity response owner name = Rejected StatsComputingError) ∧
  (∀ (response : Response Contributor) owner name,
     ok response = true →
     json response = NotArray ∨ json response = Array [] →
     fetchContributorsOverTime response owner name = Rejected StatsComputingError) ∧
  (∀ response owner name series,
     fetchCommitActivity response owner name = Resolved series → series ≠ []) ∧
  (∀ response owner name series,
     fetchContributorsOverTime response owner name = Resolved series →
     (series = [] ↔ ∀ k, k ∈ items response → weeks k = [])).
Proof.
  split; [|split; [|split]].
  - intros response owner name Hok Hbody. unfold fetchCommitActivity.
    rewrite Hok. by destruct Hbody as [-> | ->].
  - intros response owner name Hok Hbody. unfold fetchContributorsOverTime.
    rewrite Hok. by destruct Hbody as [-> | ->].
  - intros response owner name series. unfold fetchCommitActivity.
    destruct (negb (ok response)); [done|].
    destruct (json response) as [| |[|week data]]; try done.
    by intros [= <-].
  - intros response owner name series. unfold fetchContributorsOverTime, items.
    destruct (negb (ok response)); [done|].
    destruct (json response) as [| |[|k data]]; try done.
    intros [= <-]. simpl. by rewrite contributorWeeks_no_entries.
Qed.

Lemma C10_stats_empty_body_witness :
  fetchCommitActivity (mkResponse 200 "OK" (Array [])) "o" "r"
    = Rejected StatsComputingError ∧
  fetchContributorsOverTime (mkResponse 200 "OK" NotArray) "o" "r"
    = Rejected StatsComputingError.
Proof.
  split.
  - apply (proj1 C10_stats_empty_body (mkResponse 200 "OK" (Array [])) "o" "r");
      [reflexivity | by right].
  - apply (proj1 (proj2 C10_stats_empty_body) (mkResponse 200 "OK" NotArray) "o" "r");
      [reflexivity | by left].
Defined.

(** * Further properties of the aggregation *)

(** ** The window of a bucket *)

Lemma weekStartOf_window_nonneg t :
  0 ≤ t → weekStartOf t ≤ t < weekStartOf t + 604800.
Proof.
  intros Ht. unfold weekStartOf. rewrite secondsPerWeek_value.
  pose proof (Z.rem_bound_pos t 604800 Ht). lia.
Qed.

Lemma weekOfDate_window date week :
  0 ≤ date → week mod 604800 = 0 →
  weekOfDate date = week ↔ week * 1000 ≤ date < (week + 604800) * 1000.
Proof.
  intros Hdate Hweek. unfold weekOfDate, unixSeconds.
  assert (0 ≤ date / 1000) as Ht by (apply Z.div_pos; lia).
  pose proof (weekStartOf_window_nonneg _ Ht) as Hwin.
  pose proof (weekStartOf_mod (date / 1000)) as Hmod.
  rewrite secondsPerWeek_value in Hmod.
  revert Hwin Hmod. generalize (weekStartOf (date / 1000)). intros b Hwin Hmod.
  split.
  - intros <-. Z.div_mod_to_equations. lia.
  - intros Hrange. Z.div_mod_to_equations. lia.
Qed.

(** The bucket of a timestamp is the start of the 7-day window that holds
    it -- for timestamps at or after the epoch.  The remainder truncates
    towards zero, so for a timestamp before the epoch the bucket is the
    end of that window instead: it is never before the timestamp.
    Bucketing a bucket changes nothing. *)
Theorem weekStartOf_window :
  (∀ t, 0 ≤ t → weekStartOf t ≤ t < weekStartOf t + 604800) ∧
  (∀ t, t ≤ 0 → t ≤ weekStartOf t < t + 604800) ∧
  (∀ t, weekStartOf (weekStartOf t) = weekStartOf t) ∧
  (∀ date week,
     0 ≤ date → week mod 604800 = 0 →
     weekOfDate date = week ↔ week * 1000 ≤ date < (week + 604800) * 1000).
Proof.
  split; [apply weekStartOf_window_nonneg|]. split; [|split].
  - intros t Ht. unfold weekStartOf. rewrite secondsPerWeek_value.
    pose proof (Z.rem_bound_pos_neg t 604800 ltac:(lia) Ht). lia.
  - intros t. unfold weekStartOf at 1. rewrite weekStartOf_rem. lia.
  - apply weekOfDate_window.
Qed.

Lemma weekStartOf_window_witness :
  weekStartOf 1700000000 ≤ 1700000000 < weekStartOf 1700000000 + 604800.
Proof. apply (proj1 weekStartOf_window). lia. Defined.

(** ** Values and totals of the star and issue series *)

Lemma totalOf_cons x l : totalOf (x :: l) = x + totalOf l.
Proof. done. Qed.

Lemma totalOf_indicator_absent (weeks : list Z) x :
  x ∉ weeks →
  totalOf ((λ week, if decide (x = week) then 1 else 0) <$> weeks) = 0.
Proof.
  induction weeks as [|week weeks IH]; intros Hx; [done|].
  apply not_elem_of_cons in Hx as [Hne Hx].
  rewrite fmap_cons, totalOf_cons, IH by done.
  by rewrite decide_False.
Qed.

Lemma totalOf_indicator (weeks : list Z) x :
  NoDup weeks → x ∈ weeks →
  totalOf ((λ week, if decide (x = week) then 1 else 0) <$> weeks) = 1.
Proof.
  induction 1 as [|week weeks Hweek Hnd IH]; intros Hin.
  - by apply elem_of_nil in Hin.
  - rewrite fmap_cons, totalOf_cons.
    destruct (decide (x = week)) as [->|Hne].
    + by rewrite totalOf_indicator_absent.
    + apply elem_of_cons in Hin as [?|Hin]; [done|]. by rewrite IH.
Qed.

Lemma totalOf_fmap_add {A} (f g : A → Z) (l : list A) :
  totalOf ((λ x, f x + g x) <$> l) = totalOf (f <$> l) + totalOf (g <$> l).
Proof.
  induction l as [|x l IH]; [done|].
  rewrite !fmap_cons, !totalOf_cons, IH. lia.
Qed.

(** Counting the dates week by week over distinct weeks that cover them
    counts every date once. *)
Lemma totalOf_datesInWeek (weeks : list Z) dates :
  NoDup weeks →
  (∀ date, date ∈ dates → weekOfDate date ∈ weeks) →
  totalOf ((λ week, Z.of_nat (length (datesInWeek week dates))) <$> weeks)
  = Z.of_nat (length dates).
Proof.
  intros Hnd. induction dates as [|date dates IH]; intros Hcover.
  - simpl. clear. induction weeks as [|week weeks IHw]; [done|].
    by rewrite fmap_cons, totalOf_cons, IHw.
  - assert ((λ week, Z.of_nat (length (datesInWeek week (date :: dates)))) <$> weeks
            = (λ week, (if decide (weekOfDate date = week) then 1 else 0)
                       + Z.of_nat (length (datesInWeek week dates))) <$> weeks) as ->.
    { apply list_fmap_ext. intros _ week _. unfold datesInWeek. rewrite filter_cons.
      destruct (decide (weekOfDate date = week)); simpl length; lia. }
    rewrite totalOf_fmap_add, totalOf_indicator, IH.
    + simpl length. lia.
    + intros d Hd. apply Hcover. by right.
    + done.
    + apply Hcover. left.
Qed.

(** The dates the loop resolves with were pushed from items. *)
Lemma fetchPages_Resolved {A} (fetch : Z → Response A) push failure maxPages dates :
  (fetchPages fetch push failure maxPages).2 = Resolved dates →
  ∃ data, dates = foldl push [] data.
Proof.
  destruct (fetchPages_spec fetch push failure maxPages) as (k & _ & _ & ->).
  unfold outcomeAt. destruct (k =? 0); [intros [= <-]; by exists []|].
  destruct (ok (fetch k)); [|done].
  destruct (json (fetch k)); [done|..]; intros [= <-]; eauto.
Qed.

Lemma weeksBetween_NoDup first current : NoDup (weeksBetween first current).
Proof.
  apply NoDup_alt. intros i j week Hi Hj.
  apply weeksBetween_lookup in Hi as [Hi _], Hj as [Hj _].
  pose proof secondsPerWeek_value. nia.
Qed.

Lemma weeksBetween_covers first current date :
  first mod secondsPerWeek = 0 →
  first ≤ weekOfDate date → date ≤ current →
  weekOfDate date ∈ weeksBetween first (weekOfDate current).
Proof.
  intros Hfirst Hle Hnow. apply weeksBetween_elem.
  - split; [done | by apply weekOfDate_mono].
  - apply weeks_on_one_grid; [done | apply weekOfDate_mod].
Qed.

(** Every point of a star series holds the number of collected stars
    whose date falls in its week, and every point of an issue series the
    number of collected issue dates in its week.  When no collected date
    is later than the clock read, the values of the series add up to the
    number of collected dates: nothing is lost and nothing counted twice. *)
Theorem series_values_and_total :
  (∀ fetch dateNow owner name maxPages starDates,
     (starPages fetch owner name maxPages).2 = Resolved starDates →
     ∃ series,
       fetchStarHistory fetch dateNow owner name maxPages = Resolved series ∧
       (∀ p, p ∈ series →
          StarWeek.stars p
          = Z.of_nat (length (datesInWeek (StarWeek.week p) starDates))) ∧
       ((∀ date, date ∈ starDates → date ≤ dateNow) →
        totalOf (StarWeek.stars <$> series) = Z.of_nat (length starDates))) ∧
  (∀ fetch fiftyTwoWeeksAgo dateNow owner name maxPages issueDates,
     (openedPages fetch fiftyTwoWeeksAgo owner name maxPages).2 = Resolved issueDates →
     ∃ series,
       fetchIssuesOverTime fetch fiftyTwoWeeksAgo dateNow owner name maxPages
         = Resolved series ∧
       (∀ p, p ∈ series →
          IssueWeek.issues p
          = Z.of_nat (length (datesInWeek (IssueWeek.week p) issueDates))) ∧
       ((∀ date, date ∈ issueDates → date ≤ dateNow) →
        totalOf (IssueWeek.issues <$> series) = Z.of_nat (length issueDates))) ∧
  (∀ fetch fiftyTwoWeeksAgo dateNow owner name maxPages closedDates,
     (closedPages fetch fiftyTwoWeeksAgo owner name maxPages).2 = Resolved closedDates →
     ∃ series,
       fetchIssuesClosedOverTime fetch fiftyTwoWeeksAgo dateNow owner name maxPages
         = Resolved series ∧
       (∀ p, p ∈ series →
          IssueWeek.issues p
          = Z.of_nat (length (datesInWeek (IssueWeek.week p) closedDates))) ∧
       ((∀ date, date ∈ closedDates → date ≤ dateNow) →
        totalOf (IssueWeek.issues <$> series) = Z.of_nat (length closedDates))).
Proof.
  assert (∀ fiftyTwoWeeksAgo dateNow (push : Z → list Z → Issue → list Z)
            (keep : Z → Issue → option Z) fetch what owner name maxPages dates,
            (∀ h acc data, foldl (push h) acc data = acc ++ omap (keep h) data) →
            (∀ h issue d, keep h issue = Some d → h ≤ d) →
            (fetchPages fetch (push fiftyTwoWeeksAgo) (pageFailure what owner name)
               maxPages).2 = Resolved dates →
            (∀ p, p ∈ issueWeeks fiftyTwoWeeksAgo dateNow dates →
               IssueWeek.issues p
               = Z.of_nat (length (datesInWeek (IssueWeek.week p) dates))) ∧
            ((∀ date, date ∈ dates → date ≤ dateNow) →
             totalOf (IssueWeek.issues <$> issueWeeks fiftyTwoWeeksAgo dateNow dates)
             = Z.of_nat (length dates))) as Hissues.
  { intros h dateNow push keep fetch what owner name maxPages dates Hpush Hkeep Hpages.
    rewrite issueWeeks_eq. split.
    - intros p Hp. by apply list_elem_of_fmap in Hp as (week & -> & _).
    - intros Hnow. rewrite <- list_fmap_compose.
      apply totalOf_datesInWeek; [apply weeksBetween_NoDup|].
      intros date Hdate.
      apply weeksBetween_covers; [apply weekOfDate_mod| |by apply Hnow].
      apply weekOfDate_mono.
      apply fetchPages_Resolved in Hpages as (data & ->).
      rewrite Hpush in Hdate. simpl in Hdate.
      apply list_elem_of_omap in Hdate as (issue & _ & Hissue).
      by eapply Hkeep. }
  split; [|split].
  - intros fetch dateNow owner name maxPages starDates Hpages.
    exists (starWeeks dateNow starDates).
    unfold fetchStarHistory. rewrite Hpages. split; [done|].
    destruct (decide (starDates = [])) as [->|Hne]; [by split; [intros p ?%elem_of_nil|]|].
    rewrite (starWeeks_eq _ _ Hne). split.
    + intros p Hp. by apply list_elem_of_fmap in Hp as (week & -> & _).
    + intros Hnow. rewrite <- list_fmap_compose.
      apply totalOf_datesInWeek; [apply weeksBetween_NoDup|].
      intros date Hdate.
      apply weeksBetween_covers; [apply weekOfDate_mod| |by apply Hnow].
      by apply weekOfDate_mono, firstStarDate_least.
  - intros fetch h dateNow owner name maxPages issueDates Hpages.
    exists (issueWeeks h dateNow issueDates).
    unfold fetchIssuesOverTime. rewrite Hpages. split; [done|].
    eapply (Hissues h dateNow pushOpened openedDate); [| |exact Hpages].
    + apply foldl_pushOpened.
    + intros h' issue d. unfold openedDate.
      destruct (falsy _); [|done]. destruct (created_at issue); [|done].
      destruct (Z.leb_spec h' z); [|done]. by intros [= <-].
  - intros fetch h dateNow owner name maxPages closedDates Hpages.
    exists (issueWeeks h dateNow closedDates).
    unfold fetchIssuesClosedOverTime. rewrite Hpages. split; [done|].
    eapply (Hissues h dateNow pushClosed closedDate); [| |exact Hpages].
    + apply foldl_pushClosed.
    + intros h' issue d. unfold closedDate.
      destruct (falsy _); [|done]. destruct (closed_at issue); [|done].
      destruct (Z.leb_spec h' z); [|done]. by intros [= <-].
Qed.

Lemma series_values_and_total_witness :
  ∃ series,
    fetchStarHistory sampleStars sampleNow "o" "r" None = Resolved series ∧
    (∀ p, p ∈ series →
       StarWeek.stars p
       = Z.of_nat (length (datesInWeek (StarWeek.week p)
                             [1699500000000; 1700700400000; 1699488000000]))) ∧
    ((∀ date, date ∈ [1699500000000; 1700700400000; 1699488000000] → date ≤ sampleNow) →
     totalOf (StarWeek.stars <$> series) = Z.of_nat 3).
Proof.
  apply (proj1 series_values_and_total sampleStars sampleNow "o" "r" None
           [1699500000000; 1700700400000; 1699488000000]).
  vm_compute. reflexivity.
Defined.

(** ** The first point of the star series *)

(** A star series is empty only when no star date was collected or the
    earliest one lies in a week after the current week.  Otherwise it
    starts at the week of the earliest collected star, and that first
    point counts at least one star. *)
Theorem star_series_first_point :
  ∀ fetch dateNow owner name maxPages starDates,
    (starPages fetch owner name maxPages).2 = Resolved starDates →
    (fetchStarHistory fetch dateNow owner name maxPages = Resolved []
     ↔ starDates = [] ∨ weekOfDate dateNow < weekOfDate (firstStarDate starDates)) ∧
    (∀ series p,
       fetchStarHistory fetch dateNow owner name maxPages = Resolved series →
       head series = Some p →
       StarWeek.week p = weekOfDate (firstStarDate starDates) ∧ 1 ≤ StarWeek.stars p).
Proof.
  intros fetch dateNow owner name maxPages starDates Hpages.
  unfold fetchStarHistory. rewrite Hpages.
  destruct (decide (starDates = [])) as [->|Hne].
  { split; [by split; [left|]|]. by intros series p [= <-]. }
  rewrite (starWeeks_eq _ _ Hne).
  destruct (Z.le_gt_cases (weekOfDate (firstStarDate starDates)) (weekOfDate dateNow))
    as [Hle|Hgt].
  - rewrite (weeksBetween_cons _ _ Hle), fmap_cons. split.
    + split; [done|]. intros [?|?]; [done|lia].
    + intros series p [= <-] [= <-]. simpl. split; [done|].
      assert (firstStarDate starDates
              ∈ datesInWeek (weekOfDate (firstStarDate starDates)) starDates) as Hin.
      { apply list_elem_of_filter. split; [done|]. by apply firstStarDate_elem. }
      destruct (datesInWeek _ starDates); [by apply elem_of_nil in Hin|]. simpl. lia.
  - rewrite weeksBetween_nil by lia. split.
    + split; [by right|done].
    + by intros series p [= <-].
Qed.

Lemma star_series_first_point_witness :
  StarWeek.week (StarWeek.mk 1699488000 2)
  = weekOfDate (firstStarDate [1699500000000; 1700700400000; 1699488000000])
  ∧ 1 ≤ StarWeek.stars (StarWeek.mk 1699488000 2).
Proof.
  apply (proj2 (star_series_first_point sampleStars sampleNow "o" "r" None
                  [1699500000000; 1700700400000; 1699488000000] eq_refl)
           [StarWeek.mk 1699488000 2; StarWeek.mk 1700092800 0;
            StarWeek.mk 1700697600 1]);
    vm_compute; reflexivity.
Defined.

(** ** Order of the collected dates *)

Lemma merge_sort_Permutation_eq (l l' : list Z) :
  l ≡ₚ l' → merge_sort Z.le l = merge_sort Z.le l'.
Proof.
  intros Hperm. apply (StronglySorted_unique Z.le).
  - apply (StronglySorted_merge_sort Z.le).
  - apply (StronglySorted_merge_sort Z.le).
  - by rewrite !merge_sort_Permutation.
Qed.

(** The series built from the collected dates do not depend on the order
    in which the dates were collected. *)
Theorem series_order_independent :
  (∀ dateNow starDates starDates',
     starDates ≡ₚ starDates' →
     starWeeks dateNow starDates = starWeeks dateNow starDates') ∧
  (∀ fiftyTwoWeeksAgo dateNow issueDates issueDates',
     issueDates ≡ₚ issueDates' →
     issueWeeks fiftyTwoWeeksAgo dateNow issueDates
     = issueWeeks fiftyTwoWeeksAgo dateNow issueDates').
Proof.
  split.
  - intros dateNow l l' Hperm.
    destruct (decide (l = [])) as [->|Hne].
    { apply Permutation_nil_l in Hperm. by subst. }
    assert (l' ≠ []) as Hne'.
    { intros ->. by apply Permutation_nil_r in Hperm. }
    rewrite (starWeeks_eq _ _ Hne), (starWeeks_eq _ _ Hne').
    unfold firstStarDate. rewrite (merge_sort_Permutation_eq _ _ Hperm).
    apply list_fmap_ext. intros _ week _. f_equal. f_equal.
    by apply datesInWeek_length_Permutation.
  - intros h dateNow l l' Hperm. rewrite !issueWeeks_eq.
    apply list_fmap_ext. intros _ week _. f_equal. f_equal.
    by apply datesInWeek_length_Permutation.
Qed.

Lemma series_order_independent_witness :
  starWeeks sampleNow [1699500000000; 1700700400000]
  = starWeeks sampleNow [1700700400000; 1699500000000].
Proof.
  apply (proj1 series_order_independent). apply perm_swap.
Defined.

(** ** The weeks of the issue series *)

(** The weeks of an issue series are fixed by the two clock reads alone:
    whatever the server returned, a resolved issues-opened series and a
    resolved issues-closed series for the same horizon and current instant
    have the same weeks, point by point. *)
Theorem issue_series_share_weeks :
  ∀ fetch fetch' fiftyTwoWeeksAgo dateNow owner name maxPages maxPages' opened closed,
    fetchIssuesOverTime fetch fiftyTwoWeeksAgo dateNow owner name maxPages
      = Resolved opened →
    fetchIssuesClosedOverTime fetch' fiftyTwoWeeksAgo dateNow owner name maxPages'
      = Resolved closed →
    IssueWeek.week <$> opened
      = weeksBetween (weekOfDate fiftyTwoWeeksAgo) (weekOfDate dateNow) ∧
    IssueWeek.week <$> closed = IssueWeek.week <$> opened.
Proof.
  intros * Hopened Hclosed.
  apply fetchIssuesOverTime_Resolved in Hopened as (issueDates & _ & ->).
  apply fetchIssuesClosedOverTime_Resolved in Hclosed as (closedDates & _ & ->).
  rewrite !issueWeeks_eq, <- !list_fmap_compose.
  assert (∀ dates,
            (IssueWeek.week
             ∘ (λ week, IssueWeek.mk week (Z.of_nat (length (datesInWeek week dates)))))
            <$> weeksBetween (weekOfDate fiftyTwoWeeksAgo) (weekOfDate dateNow)
            = weeksBetween (weekOfDate fiftyTwoWeeksAgo) (weekOfDate dateNow)) as Hweeks.
  { intros dates. rewrite <- (list_fmap_id (weeksBetween _ _)) at 2.
    by apply list_fmap_ext. }
  by rewrite !Hweeks.
Qed.

Lemma issue_series_share_weeks_witness :
  IssueWeek.week
    <$> [IssueWeek.mk 1698278400 0; IssueWeek.mk 1698883200 0;
         IssueWeek.mk 1699488000 2; IssueWeek.mk 1700092800 0;
         IssueWeek.mk 1700697600 0]
  = weeksBetween (weekOfDate sampleHorizon) (weekOfDate sampleNow).
Proof.
  apply (issue_series_share_weeks sampleIssues sampleIssues sampleHorizon sampleNow
           "o" "r" None None _
           [IssueWeek.mk 1698278400 0; IssueWeek.mk 1698883200 0;
            IssueWeek.mk 1699488000 0; IssueWeek.mk 1700092800 0;
            IssueWeek.mk 1700697600 1]);
    vm_compute; reflexivity.
Defined.

(** ** Pages the loop does not reach *)

Lemma pageLoop_agree {A} (fetch fetch' : Z → Response A) push failure maxPages fuel st :
  (∀ p, page st ≤ p ≤ maxPages → fetch p = fetch' p) →
  pageLoop fetch push failure maxPages fuel st
  = pageLoop fetch' push failure maxPages fuel st.
Proof.
  revert st. induction fuel as [|fuel IH]; intros st Hsame; [done|].
  simpl. destruct (hasMore st); [|done]. simpl.
  destruct (Z.leb_spec (page st) maxPages) as [Hle|Hgt]; [|done].
  unfold pageBody. rewrite <- (Hsame (page st)) by lia.
  destruct (negb (ok (fetch (page st)))); [done|].
  destruct (json (fetch (page st))) as [| |[|x data]]; [done|..];
    apply IH; simpl; intros p Hp; apply Hsame; lia.
Qed.

(** The outcome of a paginated operation depends only on the responses
    for the pages 1 up to the ceiling: two servers that agree on those
    pages give the same outcome, whatever they would answer for later
    pages. *)
Theorem pages_beyond_ceiling_ignored :
  (∀ fetch fetch' dateNow owner name maxPages,
     (∀ p, 1 ≤ p ≤ default 10 maxPages → fetch p = fetch' p) →
     starPages fetch owner name maxPages = starPages fetch' owner name maxPages ∧
     fetchStarHistory fetch dateNow owner name maxPages
       = fetchStarHistory fetch' dateNow owner name maxPages) ∧
  (∀ fetch fetch' fiftyTwoWeeksAgo dateNow owner name maxPages,
     (∀ p, 1 ≤ p ≤ default 10 maxPages → fetch p = fetch' p) →
     fetchIssuesOverTime fetch fiftyTwoWeeksAgo dateNow owner name maxPages
       = fetchIssuesOverTime fetch' fiftyTwoWeeksAgo dateNow owner name maxPages ∧
     fetchIssuesClosedOverTime fetch fiftyTwoWeeksAgo dateNow owner name maxPages
       = fetchIssuesClosedOverTime fetch' fiftyTwoWeeksAgo dateNow owner name maxPages).
Proof.
  split.
  - intros * Hsame.
    assert (starPages fetch owner name maxPages = starPages fetch' owner name maxPages)
      as Hpages by (by apply pageLoop_agree).
    split; [done|]. unfold fetchStarHistory. by rewrite Hpages.
  - intros * Hsame.
    unfold fetchIssuesOverTime, fetchIssuesClosedOverTime, openedPages, closedPages,
      fetchPages.
    rewrite (pageLoop_agree fetch fetch' (pushOpened fiftyTwoWeeksAgo)) by done.
    by rewrite (pageLoop_agree fetch fetch' (pushClosed fiftyTwoWeeksAgo)) by done.
Qed.

Lemma pages_beyond_ceiling_ignored_witness :
  fetchStarHistory threePages sampleNow "o" "r" None
  = fetchStarHistory failsOnPageEleven sampleNow "o" "r" None.
Proof.
  apply (proj1 pages_beyond_ceiling_ignored threePages failsOnPageEleven).
  intros p Hp. simpl in Hp. unfold failsOnPageEleven.
  by destruct (Z.eqb_spec p 11); [lia|].
Defined.

(** ** A ceiling of no pages *)

(** With a page ceiling of zero or less no request is made and the
    operation still resolves: the star operation with the empty series,
    the issue operations with the series of zero-valued weeks. *)
Theorem no_pages_no_request :
  ∀ (maxPages : Z), maxPages ≤ 0 →
    (∀ fetch dateNow owner name,
       starPages fetch owner name (Some maxPages) = ([], Resolved []) ∧
       fetchStarHistory fetch dateNow owner name (Some maxPages) = Resolved []) ∧
    (∀ fetch fiftyTwoWeeksAgo dateNow owner name,
       openedPages fetch fiftyTwoWeeksAgo owner name (Some maxPages) = ([], Resolved []) ∧
       closedPages fetch fiftyTwoWeeksAgo owner name (Some maxPages) = ([], Resolved []) ∧
       fetchIssuesOverTime fetch fiftyTwoWeeksAgo dateNow owner name (Some maxPages)
         = Resolved ((λ week, IssueWeek.mk week 0)
                     <$> weeksBetween (weekOfDate fiftyTwoWeeksAgo) (weekOfDate dateNow)) ∧
       fetchIssuesClosedOverTime fetch fiftyTwoWeeksAgo dateNow owner name (Some maxPages)
         = Resolved ((λ week, IssueWeek.mk week 0)
                     <$> weeksBetween (weekOfDate fiftyTwoWeeksAgo) (weekOfDate dateNow))).
Proof.
  intros maxPages Hmax.
  assert (∀ A (fetch : Z → Response A) push failure,
            fetchPages fetch push failure maxPages = ([], Resolved [])) as Hnone.
  { intros A fetch push failure. unfold fetchPages, pageFuel. simpl.
    by destruct (Z.leb_spec 1 maxPages); [lia|]. }
  split.
  - intros fetch dateNow owner name.
    unfold fetchStarHistory, starPages. simpl. by rewrite Hnone.
  - intros fetch h dateNow owner name.
    unfold fetchIssuesOverTime, fetchIssuesClosedOverTime, openedPages, closedPages.
    simpl. rewrite !Hnone. simpl. by rewrite issueWeeks_no_dates.
Qed.

Lemma no_pages_no_request_witness :
  starPages threePages "o" "r" (Some 0) = ([], Resolved []) ∧
  fetchStarHistory threePages sampleNow "o" "r" (Some 0) = Resolved [].
Proof. apply (no_pages_no_request 0); lia. Defined.

(** ** When the statistics operations report computing *)

Lemma statsFailure_not_computing {A} what owner name (response : Response A) :
  ok response = false →
  statsFailure what owner name response ≠ StatsComputingError.
Proof.
  unfold ok, statsFailure. intros Hok.
  destruct (Z.eqb_spec (status response) 404); [done|].
  destruct (Z.eqb_spec (status response) 403); [done|].
  destruct (Z.eqb_spec (status response) 202) as [H202|]; [|done].
  rewrite H202 in Hok. done.
Qed.

Lemma statsFailure_not_syntax {A} what owner name (response : Response A) :
  statsFailure what owner name response ≠ SyntaxError.
Proof.
  unfold statsFailure, notFound, rateLimited, failedToFetch.
  by repeat case_match.
Qed.

(** What decides the outcome of the two statistics operations.  They
    reject with [StatsComputingError] exactly when the response is a
    success whose body is JSON and is not an array or is an empty array;
    they reject with the [SyntaxError] of [response.json()] exactly when
    the response is a success whose body is not JSON; and on every failed
    response they reject with a plain error. *)
Theorem stats_computing_iff :
  (∀ response owner name,
     fetchCommitActivity response owner name = Rejected StatsComputingError
     ↔ ok response = true ∧ (json response = NotArray ∨ json response = Array [])) ∧
  (∀ response owner name,
     fetchContributorsOverTime response owner name = Rejected StatsComputingError
     ↔ ok response = true ∧ (json response = NotArray ∨ json response = Array [])) ∧
  (∀ response owner name,
     fetchCommitActivity response owner name = Rejected SyntaxError
     ↔ ok response = true ∧ json response = NotJson) ∧
  (∀ response owner name,
     fetchContributorsOverTime response owner name = Rejected SyntaxError
     ↔ ok response = true ∧ json response = NotJson) ∧
  (∀ response owner name,
     ok response = false →
     ∃ message,
       fetchCommitActivity response owner name = Rejected (Error message)) ∧
  (∀ response owner name,
     ok response = false →
     ∃ message,
       fetchContributorsOverTime response owner name = Rejected (Error message)).
Proof.
  assert (∀ A what owner name (response : Response A),
            ∃ message, ok response = false →
                       statsFailure what owner name response = Error message) as Hplain.
  { intros A what owner name response.
    pose proof (statsFailure_not_computing what owner name response) as Hnot.
    pose proof (statsFailure_not_syntax what owner name response) as Hsyntax.
    destruct (statsFailure what owner name response) as [message| |] eqn:Hfail.
    - by exists message.
    - exists "". intros Hok. by destruct (Hnot Hok).
    - done. }
  split; [|split; [|split; [|split; [|split]]]].
  - intros response owner name. unfold fetchCommitActivity.
    destruct (ok response) eqn:Hok; simpl.
    + destruct (json response) as [| |[|week data]]; simpl; split;
        try done; try (by intros [_ [?|?]]); try (by split; [|left]);
        by split; [|right].
    + split; [|by intros [? _]]. intros [= Hfail].
      by apply statsFailure_not_computing in Hfail.
  - intros response owner name. unfold fetchContributorsOverTime.
    destruct (ok response) eqn:Hok; simpl.
    + destruct (json response) as [| |[|k data]]; simpl; split;
        try done; try (by intros [_ [?|?]]); try (by split; [|left]);
        by split; [|right].
    + split; [|by intros [? _]]. intros [= Hfail].
      by apply statsFailure_not_computing in Hfail.
  - intros response owner name. unfold fetchCommitActivity.
    destruct (ok response) eqn:Hok; simpl.
    + destruct (json response) as [| |[|week data]]; simpl; split;
        try done; by intros [_ ?].
    + split; [|by intros [? _]]. intros [= Hfail].
      by apply statsFailure_not_syntax in Hfail.
  - intros response owner name. unfold fetchContributorsOverTime.
    destruct (ok response) eqn:Hok; simpl.
    + destruct (json response) as [| |[|k data]]; simpl; split;
        try done; by intros [_ ?].
    + split; [|by intros [? _]]. intros [= Hfail].
      by apply statsFailure_not_syntax in Hfail.
  - intros response owner name Hok.
    destruct (Hplain _ "commit activity" owner name response) as [message Hmsg].
    exists message. unfold fetchCommitActivity. rewrite Hok. simpl. by rewrite Hmsg.
  - intros response owner name Hok.
    destruct (Hplain _ "contributors" owner name response) as [message Hmsg].
    exists message. unfold fetchContributorsOverTime. rewrite Hok. simpl. by rewrite Hmsg.
Qed.

Lemma stats_computing_iff_witness :
  ∃ message,
    fetchCommitActivity (mkResponse 500 "Server Error" NotArray) "o" "r"
    = Rejected (Error message).
Proof.
  apply (proj1 (proj2 (proj2 (proj2 (proj2 stats_computing_iff))))). reflexivity.
Defined.

(** ** Order and totals of the contributor reduction *)

Lemma activeEntries_length_Permutation week l l' :
  l ≡ₚ l' → length (activeEntries week l) = length (activeEntries week l').
Proof. intros Hp. unfold activeEntries. by rewrite Hp. Qed.

Lemma allEntries_Permutation data data' :
  data ≡ₚ data' → allEntries data ≡ₚ allEntries data'.
Proof.
  unfold allEntries. induction 1 as [|k l l' _ IH|k k' l|l l' l'' _ IH _ IH'].
  - done.
  - simpl. by rewrite IH.
  - simpl. rewrite !(assoc_L (++)). f_equiv. apply Permutation_app_comm.
  - by rewrite IH.
Qed.

(** The contributor series depends only on the collection of week
    entries, not on the order of the records or of the entries inside
    them. *)
Theorem contributor_series_order_independent :
  (∀ data data',
     allEntries data ≡ₚ allEntries data' →
     contributorWeeks data = contributorWeeks data') ∧
  (∀ data data', data ≡ₚ data' → contributorWeeks data = contributorWeeks data').
Proof.
  assert (∀ data data',
            allEntries data ≡ₚ allEntries data' →
            contributorWeeks data = contributorWeeks data') as Hentries.
  { intros data data' Hperm. rewrite !contributorWeeks_eq.
    assert (merge_sort Z.le
              (allWeeks (foldl tallyContributor
                           {| allWeeks := []; weekToContributors := ∅ |} data))
            = merge_sort Z.le
                (allWeeks (foldl tallyContributor
                             {| allWeeks := []; weekToContributors := ∅ |} data')))
      as ->.
    { apply merge_sort_Permutation_eq.
      destruct (tally_talliesOf data) as (Hnd & Hin & _).
      destruct (tally_talliesOf data') as (Hnd' & Hin' & _).
      apply NoDup_Permutation; [done..|].
      intros week. by rewrite Hin, Hin', Hperm. }
    apply list_fmap_ext. intros _ week _. f_equal. f_equal.
    by apply activeEntries_length_Permutation. }
  split; [done|]. intros data data' Hperm.
  by apply Hentries, allEntries_Permutation.
Qed.

Lemma contributor_series_order_independent_witness :
  contributorWeeks scenarioContributors = contributorWeeks (reverse scenarioContributors).
Proof.
  apply (proj2 contributor_series_order_independent). apply perm_swap.
Defined.

Lemma totalOf_activeEntries (weeks : list Z) entries :
  NoDup weeks →
  (∀ e, e ∈ entries → w e ∈ weeks) →
  totalOf ((λ week, Z.of_nat (length (activeEntries week entries))) <$> weeks)
  = Z.of_nat (length (filter (λ e, 0 < c e) entries)).
Proof.
  intros Hnd. induction entries as [|e entries IH]; intros Hcover.
  - simpl. clear. induction weeks as [|week weeks IHw]; [done|].
    by rewrite fmap_cons, totalOf_cons, IHw.
  - assert ((λ week, Z.of_nat (length (activeEntries week (e :: entries)))) <$> weeks
            = (λ week, (if decide (w e = week) then (if decide (0 < c e) then 1 else 0)
                        else 0)
                       + Z.of_nat (length (activeEntries week entries))) <$> weeks) as ->.
    { apply list_fmap_ext. intros _ week _. unfold activeEntries. rewrite filter_cons.
      destruct (decide (w e = week)), (decide (0 < c e));
        [rewrite decide_True by done | rewrite decide_False by (by intros [_ ?])
         | rewrite decide_False by (by intros [? _])
         | rewrite decide_False by (by intros [? _])]; simpl length; lia. }
    rewrite totalOf_fmap_add, IH by (intros e' He'; apply Hcover; by right).
    rewrite filter_cons.
    destruct (decide (0 < c e)).
    + rewrite (totalOf_indicator weeks (w e) Hnd) by (apply Hcover; left).
      simpl length. lia.
    + assert (totalOf ((λ week, if decide (w e = week) then 0 else 0) <$> weeks) = 0) as ->.
      { clear. induction weeks as [|week weeks IHw]; [done|].
        rewrite fmap_cons, totalOf_cons, IHw. by destruct (decide (w e = week)). }
      lia.
Qed.

(** The values of the contributor series add up to the number of week
    entries that carry commits; no value is negative, and when each record
    lists a week at most once no value exceeds the number of records. *)
Theorem contributor_series_totals :
  ∀ data,
    totalOf (ContributorWeek.contributors <$> contributorWeeks data)
      = Z.of_nat (length (filter (λ e, 0 < c e) (allEntries data))) ∧
    (∀ p, p ∈ contributorWeeks data → 0 ≤ ContributorWeek.contributors p) ∧
    ((∀ k, k ∈ data → NoDup (w <$> weeks k)) →
     ∀ p, p ∈ contributorWeeks data →
       ContributorWeek.contributors p ≤ Z.of_nat (length data)).
Proof.
  intros data. split; [|split].
  - rewrite contributorWeeks_eq, <- list_fmap_compose.
    destruct (tally_talliesOf data) as (Hnd & Hin & _).
    apply totalOf_activeEntries.
    + by rewrite merge_sort_Permutation.
    + intros e He. rewrite merge_sort_Permutation. apply Hin.
      by apply list_elem_of_fmap_2.
  - intros p Hp. rewrite (contributorWeeks_value _ _ Hp). lia.
  - intros Hweeks p Hp.
    rewrite (contributorWeeks_value _ _ Hp), activeEntries_activeContributors by done.
    unfold activeContributors.
    pose proof (length_filter (λ k, Exists (λ e, w e = ContributorWeek.week p ∧ 0 < c e)
                                      (weeks k)) data).
    lia.
Qed.

Lemma contributor_series_totals_witness :
  ContributorWeek.contributors (ContributorWeek.mk (1000 * 604800) 1)
  ≤ Z.of_nat (length scenarioContributors).
Proof.
  apply (proj2 (proj2 (contributor_series_totals scenarioContributors))).
  - intros k Hk. apply list_elem_of_In in Hk. simpl in Hk.
    destruct Hk as [<-|[<-|[]]]; apply (bool_decide_unpack _); vm_compute; exact I.
  - apply list_elem_of_In. vm_compute. tauto.
Defined.

(** * The stored token *)

(** Storing a non-empty token and reading it back gives the token;
    storing [null] or the empty string removes it; the storage never holds
    an empty token afterwards; and no other key of the storage changes. *)
Theorem stored_token_round_trip :
  (∀ token store, token ≠ [] →
     getStoredToken (setStoredToken (Some token) store) = Some token) ∧
  (∀ store,
     getStoredToken (setStoredToken None store) = None ∧
     getStoredToken (setStoredToken (Some []) store) = None) ∧
  (∀ token store, getStoredToken (setStoredToken token store) ≠ Some []) ∧
  (∀ token store key, key ≠ TOKEN_STORAGE_KEY →
     setStoredToken token store !! key = store !! key).
Proof.
  unfold getStoredToken, setStoredToken. split; [|split; [|split]].
  - intros [|c token] store Hne; [done|]. simpl. apply lookup_insert_eq.
  - intros store. simpl. by rewrite lookup_delete_eq.
  - intros [[|c token]|] store; simpl;
      rewrite ?lookup_delete_eq, ?lookup_insert_eq; done.
  - intros token store key Hkey.
    destruct (hasText token);
      [by rewrite lookup_insert_ne | by rewrite lookup_delete_ne].
Qed.

Lemma stored_token_round_trip_witness :
  getStoredToken (setStoredToken (Some (lit "ghp_abc")) ∅) = Some (lit "ghp_abc").
Proof. apply (proj1 stored_token_round_trip). discriminate. Defined.

(** Every request carries the Accept header.  It carries an
    Authorization header exactly when a non-empty token is stored, and
    its value is then "Bearer " followed by the token.  The stargazers
    request replaces the Accept header and keeps the Authorization header
    as it is; no other header is ever sent. *)
Theorem request_headers :
  ∀ store,
    buildHeaders store !! lit "Accept" = Some (lit "application/vnd.github.v3+json") ∧
    buildHeaders store !! lit "Authorization"
      = (if hasText (getStoredToken store)
         then Some (lit "Bearer " ++ default [] (getStoredToken store)) else None) ∧
    starHeaders store !! lit "Accept" = Some (lit "application/vnd.github.star+json") ∧
    starHeaders store !! lit "Authorization" = buildHeaders store !! lit "Authorization" ∧
    (∀ header, header ≠ lit "Accept" → header ≠ lit "Authorization" →
       buildHeaders store !! header = None ∧ starHeaders store !! header = None).
Proof.
  intros store. unfold starHeaders, buildHeaders.
  assert (lit "Authorization" ≠ lit "Accept") as Hne by (vm_compute; discriminate).
  generalize dependent (lit "Authorization"). generalize (lit "Accept").
  intros accept authorization Hne.
  destruct (hasText (getStoredToken store));
    repeat split; intros; by simplify_map_eq.
Qed.

(** ** Trimming *)

Lemma trimStart_suffix s : ∃ ws, s = ws ++ trimStart s ∧ Forall (λ c, isWhiteSpace c = true) ws.
Proof.
  induction s as [|c s (ws & Hs & Hws)]; [by exists []|]. simpl.
  destruct (isWhiteSpace c) eqn:Hc.
  - exists (c :: ws). split; [by rewrite Hs at 1|]. by constructor.
  - by exists [].
Qed.

Lemma trimStart_head s c : head (trimStart s) = Some c → isWhiteSpace c = false.
Proof.
  induction s as [|c' s IH]; [done|]. simpl.
  destruct (isWhiteSpace c') eqn:Hc'; [done|]. by intros [= <-].
Qed.

Lemma trimStart_nil s : trimStart s = [] ↔ Forall (λ c, isWhiteSpace c = true) s.
Proof.
  induction s as [|c s IH]; [done|]. simpl.
  destruct (isWhiteSpace c) eqn:Hc.
  - rewrite IH. split; [by constructor|]. by intros [_ ?]%Forall_cons.
  - split; [done|]. intros [? _]%Forall_cons. congruence.
Qed.

Lemma trimEnd_prefix s : ∃ ws, s = trimEnd s ++ ws ∧ Forall (λ c, isWhiteSpace c = true) ws.
Proof.
  unfold trimEnd. destruct (trimStart_suffix (reverse s)) as (ws & Hs & Hws).
  exists (reverse ws). split; [|by apply Forall_reverse].
  rewrite <- reverse_app, <- Hs. by rewrite reverse_involutive.
Qed.

Lemma trimEnd_last s c : last (trimEnd s) = Some c → isWhiteSpace c = false.
Proof. unfold trimEnd. rewrite last_reverse. apply trimStart_head. Qed.

Lemma trimEnd_nil s : trimEnd s = [] ↔ Forall (λ c, isWhiteSpace c = true) s.
Proof.
  unfold trimEnd. rewrite <- (reverse_nil (A:=N)), (inj_iff reverse), trimStart_nil.
  split; intros H; apply Forall_reverse in H; by rewrite ?reverse_involutive in H.
Qed.

Lemma trimEnd_head s c :
  head s = Some c → isWhiteSpace c = false → head (trimEnd s) = Some c.
Proof.
  intros Hhead Hc. destruct (trimEnd_prefix s) as (ws & Hs & Hws).
  destruct (trimEnd s) as [|c' t] eqn:Ht.
  - simpl in Hs. subst s. destruct ws as [|c' ws]; [done|].
    apply Forall_cons in Hws as [Hc' _]. simpl in Hhead. congruence.
  - rewrite Hs in Hhead. simpl in *. done.
Qed.

(** What [trim] returns: the text between its leading and trailing white
    space. *)
Lemma trim_spec s :
  (∃ before after,
     s = before ++ trim s ++ after ∧
     Forall (λ c, isWhiteSpace c = true) before ∧
     Forall (λ c, isWhiteSpace c = true) after) ∧
  (∀ c, head (trim s) = Some c → isWhiteSpace c = false) ∧
  (∀ c, last (trim s) = Some c → isWhiteSpace c = false) ∧
  (trim s = [] ↔ Forall (λ c, isWhiteSpace c = true) s).
Proof.
  unfold trim.
  destruct (trimStart_suffix s) as (before & Hs & Hbefore).
  destruct (trimEnd_prefix (trimStart s)) as (after & Ht & Hafter).
  split; [|split; [|split]].
  - exists before, after. by rewrite <- Ht.
  - intros c Hc. destruct (trimStart s) as [|c' t] eqn:Hstart; [done|].
    pose proof (trimStart_head s c') as Hhead. rewrite Hstart in Hhead.
    specialize (Hhead eq_refl).
    by rewrite (trimEnd_head (c' :: t) c' eq_refl Hhead) in Hc; injection Hc as <-.
  - apply trimEnd_last.
  - rewrite trimEnd_nil. split.
    + intros Hall. rewrite Hs. apply Forall_app. done.
    + intros Hall. rewrite Hs in Hall. by apply Forall_app in Hall as [_ ?].
Qed.

(** * The token form *)

(** Saving the form stores the trimmed input when the input holds
    anything but white space, and removes the token otherwise: a stored
    token is never empty and never starts or ends with white space.
    Clearing removes the token.  Saving and clearing advance the token
    version; cancelling touches neither the storage nor the version.  All
    three leave the form closed with an empty input. *)
Theorem token_form_handlers :
  ∀ form,
    (getStoredToken (localStorage (handleSave form))
     = if decide (Forall (λ c, isWhiteSpace c = true) (inputValue form)) then None
       else Some (trim (inputValue form))) ∧
    (∀ token, getStoredToken (localStorage (handleSave form)) = Some token →
       token ≠ [] ∧
       (∀ c, head token = Some c → isWhiteSpace c = false) ∧
       (∀ c, last token = Some c → isWhiteSpace c = false)) ∧
    hasToken (handleClear form) = false ∧
    tokenVersion (handleSave form) = tokenVersion form + 1 ∧
    tokenVersion (handleClear form) = tokenVersion form + 1 ∧
    localStorage (handleCancel form) = localStorage form ∧
    tokenVersion (handleCancel form) = tokenVersion form ∧
    (∀ form', form' ∈ [handleSave form; handleClear form; handleCancel form] →
       isEditing form' = false ∧ inputValue form' = []).
Proof.
  intros form.
  destruct (trim_spec (inputValue form)) as (_ & Hhead & Hlast & Hnil).
  assert (getStoredToken (localStorage (handleSave form))
          = if decide (Forall (λ c, isWhiteSpace c = true) (inputValue form)) then None
            else Some (trim (inputValue form))) as Hsave.
  { unfold handleSave, getStoredToken, setStoredToken. simpl.
    destruct (trim (inputValue form)) as [|c t] eqn:Htrim; simpl.
    - rewrite decide_True by (by apply Hnil). by rewrite lookup_delete_eq.
    - rewrite decide_False by (intros Hall; by apply Hnil in Hall).
      by rewrite lookup_insert_eq. }
  split; [done|]. split; [|split].
  - intros token. rewrite Hsave. case_decide as Hall; [done|]. intros [= <-].
    split; [|done]. intros Hempty. by apply Hnil in Hempty.
  - unfold hasToken, handleClear, getStoredToken, setStoredToken. simpl.
    by rewrite lookup_delete_eq.
  - do 4 (split; [done|]).
    intros form' Hin. apply list_elem_of_In in Hin. simpl in Hin.
    by destruct Hin as [<-|[<-|[<-|[]]]].
Qed.

(** * Colours *)

(** Every index from zero on gets a colour; indices six apart get the
    same colour and the indices 0 to 5 get six different ones.  A
    negative index that is no multiple of six gets none. *)
Theorem repo_colors :
  (∀ index, 0 ≤ index → is_Some (getRepoColor index)) ∧
  (∀ index, 0 ≤ index → getRepoColor (index + 6) = getRepoColor index) ∧
  (∀ i j, 0 ≤ i < 6 → 0 ≤ j < 6 → getRepoColor i = getRepoColor j → i = j) ∧
  (∀ index, index < 0 → index mod 6 ≠ 0 → getRepoColor index = None).
Proof.
  assert (∀ index, 0 ≤ index →
            getRepoColor index = REPO_COLORS !! Z.to_nat (index mod 6)) as Hmod.
  { intros index Hindex. unfold getRepoColor. cbv zeta.
    change (Z.of_nat (length REPO_COLORS)) with 6.
    rewrite Z.rem_mod_nonneg by lia.
    pose proof (Z.mod_pos_bound index 6 ltac:(lia)).
    destruct (Z.ltb_spec (index mod 6) 0); [lia|done]. }
  split; [|split; [|split]].
  - intros index Hindex. rewrite (Hmod _ Hindex).
    apply lookup_lt_is_Some. simpl.
    pose proof (Z.mod_pos_bound index 6 ltac:(lia)). lia.
  - intros index Hindex. rewrite !Hmod by lia. do 2 f_equal.
    replace (index + 6) with (index + 1 * 6) by lia. apply Z.mod_add. lia.
  - intros i j Hi Hj.
    assert (i = 0 ∨ i = 1 ∨ i = 2 ∨ i = 3 ∨ i = 4 ∨ i = 5) as Hi' by lia.
    assert (j = 0 ∨ j = 1 ∨ j = 2 ∨ j = 3 ∨ j = 4 ∨ j = 5) as Hj' by lia.
    destruct Hi' as [->|[->|[->|[->|[->| ->]]]]],
             Hj' as [->|[->|[->|[->|[->| ->]]]]]; vm_compute; congruence.
  - intros index Hneg Hmult. unfold getRepoColor. cbv zeta.
    change (Z.of_nat (length REPO_COLORS)) with 6.
    assert (Z.rem index 6 < 0) as Hrem.
    { pose proof (Z.rem_bound_pos_neg index 6 ltac:(lia) ltac:(lia)).
      assert (Z.rem index 6 ≠ 0); [|lia].
      intros Hzero. apply Hmult. by apply Z.rem_mod_eq_0 in Hzero. }
    destruct (Z.ltb_spec (Z.rem index 6) 0); [done|lia].
Qed.

Lemma repo_colors_witness : is_Some (getRepoColor 7).
Proof. apply (proj1 repo_colors). lia. Defined.

(** * The repositories in the address *)

Lemma split_nonempty sep s : split sep s ≠ [].
Proof.
  destruct s as [|c s]; [done|]. simpl.
  destruct (c =? sep)%N; [done|]. by destruct (split sep s).
Qed.

Lemma split_cons_other sep c s :
  c ≠ sep →
  ∃ piece pieces, split sep s = piece :: pieces ∧
                  split sep (c :: s) = (c :: piece) :: pieces.
Proof.
  intros Hne. simpl. destruct (N.eqb_spec c sep); [done|].
  destruct (split sep s) as [|piece pieces] eqn:Hs; [by apply split_nonempty in Hs|].
  eauto.
Qed.

Lemma split_no_sep (sep : N) s : sep ∉ s → split sep s = [s].
Proof.
  induction s as [|c s IH]; [done|]. intros Hnot.
  apply not_elem_of_cons in Hnot as [Hne Hnot].
  destruct (split_cons_other sep c s) as (piece & pieces & Hs & ->); [done|].
  rewrite (IH Hnot) in Hs. by injection Hs as <- <-.
Qed.

Lemma split_app_sep (sep : N) a b :
  sep ∉ a → split sep (a ++ sep :: b) = a :: split sep b.
Proof.
  induction a as [|c a IH]; intros Hnot.
  - simpl. by rewrite N.eqb_refl.
  - apply not_elem_of_cons in Hnot as [Hne Hnot].
    destruct (split_cons_other sep c (a ++ sep :: b)) as (piece & pieces & Hs & Hcons);
      [done|].
    change ((c :: a) ++ sep :: b) with (c :: a ++ sep :: b). rewrite Hcons.
    rewrite (IH Hnot) in Hs. by injection Hs as <- <-.
Qed.

(** The pieces of a split do not hold the separator and are made of code
    units of the string. *)
Lemma split_pieces (sep : N) s piece :
  piece ∈ split sep s → (sep ∉ piece) ∧ ∀ c, c ∈ piece → c ∈ s.
Proof.
  revert piece. induction s as [|c s IH]; intros piece Hin.
  - simpl in Hin. apply list_elem_of_singleton in Hin as ->.
    split; [apply not_elem_of_nil | done].
  - simpl in Hin. destruct (N.eqb_spec c sep) as [->|Hne].
    + apply elem_of_cons in Hin as [->|Hin].
      * split; [apply not_elem_of_nil | by intros c ?%elem_of_nil].
      * destruct (IH _ Hin) as [Hnot Hsub]. split; [done|].
        intros c Hc. right. by apply Hsub.
    + destruct (split sep s) as [|first rest] eqn:Hs; [by apply split_nonempty in Hs|].
      apply elem_of_cons in Hin as [->|Hin].
      * destruct (IH first) as [Hnot Hsub]; [left|]. split.
        -- apply not_elem_of_cons. split; [done|done].
        -- intros c' Hc'. apply elem_of_cons in Hc' as [->|Hc']; [left|].
           right. by apply Hsub.
      * destruct (IH piece) as [Hnot Hsub]; [by right|]. split; [done|].
        intros c' Hc'. right. by apply Hsub.
Qed.

Lemma split_join (sep : N) parts :
  parts ≠ [] → Forall (λ part, sep ∉ part) parts →
  split sep (join [sep] parts) = parts.
Proof.
  induction parts as [|part parts IH]; [done|]. intros _ Hall.
  apply Forall_cons in Hall as [Hpart Hall].
  destruct parts as [|part' parts].
  - simpl. by apply split_no_sep.
  - change (join [sep] (part :: part' :: parts))
      with (part ++ sep :: join [sep] (part' :: parts)).
    rewrite split_app_sep by done. f_equal. by apply IH.
Qed.

Lemma repoOfPiece_clean r :
  cleanRepo r →
  repoOfPiece (ParsedRepo.owner r ++ lit "/" ++ ParsedRepo.name r) = Some r.
Proof.
  intros (Howner & Hname & Ho47 & Hn47 & _). destruct r as [owner name]. simpl in *.
  unfold repoOfPiece. change (lit "/" ++ name) with (47%N :: name).
  rewrite split_app_sep, split_no_sep by done.
  by destruct owner, name.
Qed.

Lemma omap_repoOfPiece_clean repos :
  Forall cleanRepo repos →
  omap repoOfPiece ((λ r, ParsedRepo.owner r ++ lit "/" ++ ParsedRepo.name r) <$> repos)
  = repos.
Proof.
  induction 1 as [|r repos Hr _ IH]; [done|].
  rewrite fmap_cons. cbn [omap list_omap].
  by rewrite (repoOfPiece_clean _ Hr), IH.
Qed.

Lemma list_pair_ind {A} (P : list A → Prop) :
  P [] → (∀ x, P [x]) → (∀ x y l, P l → P (y :: l) → P (x :: y :: l)) →
  ∀ l, P l.
Proof.
  intros Hnil Hone Hstep l.
  assert (P l ∧ ∀ x, P (x :: l)) as [? _]; [|done].
  induction l as [|y l [IHl IHy]]; [by split|].
  split; [apply IHy|]. intros x. by apply Hstep.
Qed.

Lemma toWellFormed_plain c s :
  isLeadSurrogate c = false → isTrailSurrogate c = false →
  toWellFormed (c :: s) = c :: toWellFormed s.
Proof. intros Hl Ht. cbn [toWellFormed]. by rewrite Hl, Ht. Qed.

Lemma toWellFormed_pair x y l :
  toWellFormed (x :: y :: l)
  = if isLeadSurrogate x then
      if isTrailSurrogate y then x :: y :: toWellFormed l
      else 0xFFFD%N :: toWellFormed (y :: l)
    else if isTrailSurrogate x then 0xFFFD%N :: toWellFormed (y :: l)
    else x :: toWellFormed (y :: l).
Proof. done. Qed.

Lemma toWellFormed_length s : length (toWellFormed s) = length s.
Proof.
  induction s as [|x|x y l IHl IHy] using list_pair_ind; [done| |].
  - cbn [toWellFormed]. by destruct (isLeadSurrogate x), (isTrailSurrogate x).
  - rewrite toWellFormed_pair.
    destruct (isLeadSurrogate x), (isTrailSurrogate y), (isTrailSurrogate x);
      cbn [length]; by rewrite ?IHl, ?IHy.
Qed.

Lemma toWellFormed_app_sep a c b :
  isLeadSurrogate c = false → isTrailSurrogate c = false →
  toWellFormed (a ++ c :: b) = toWellFormed a ++ c :: toWellFormed b.
Proof.
  intros Hl Ht.
  induction a as [|x|x y l IHl IHy] using list_pair_ind.
  - by apply toWellFormed_plain.
  - change ([x] ++ c :: b) with (x :: c :: b).
    rewrite toWellFormed_pair, Ht, (toWellFormed_plain c) by done.
    cbn [toWellFormed].
    by destruct (isLeadSurrogate x), (isTrailSurrogate x).
  - change ((x :: y :: l) ++ c :: b) with (x :: y :: (l ++ c :: b)).
    change ((y :: l) ++ c :: b) with (y :: (l ++ c :: b)) in IHy.
    rewrite !toWellFormed_pair, IHl, IHy.
    by destruct (isLeadSurrogate x), (isTrailSurrogate y), (isTrailSurrogate x).
Qed.

Lemma toWellFormed_idempotent s : toWellFormed (toWellFormed s) = toWellFormed s.
Proof.
  induction s as [|x|x y l IHl IHy] using list_pair_ind; [done| |].
  - cbn [toWellFormed]. by destruct (isLeadSurrogate x) eqn:Hl, (isTrailSurrogate x) eqn:Ht;
      cbn [toWellFormed]; rewrite ?Hl, ?Ht.
  - rewrite toWellFormed_pair.
    destruct (isLeadSurrogate x) eqn:Hl.
    + destruct (isTrailSurrogate y) eqn:Hy.
      * by rewrite toWellFormed_pair, Hl, Hy, IHl.
      * by rewrite toWellFormed_plain, IHy.
    + destruct (isTrailSurrogate x) eqn:Ht.
      * by rewrite toWellFormed_plain, IHy.
      * by rewrite toWellFormed_plain, IHy.
Qed.

Lemma wellFormedText_app_sep a c b :
  isLeadSurrogate c = false → isTrailSurrogate c = false →
  wellFormedText (a ++ c :: b) ↔ wellFormedText a ∧ wellFormedText b.
Proof.
  intros Hl Ht. unfold wellFormedText. rewrite toWellFormed_app_sep by done.
  split.
  - intros Heq. apply app_inj_1 in Heq as [Ha Hb]; [|apply toWellFormed_length].
    by injection Hb as Hb.
  - by intros [-> ->].
Qed.

Lemma wellFormedText_join parts :
  Forall wellFormedText parts → wellFormedText (join [44%N] parts).
Proof.
  induction 1 as [|part parts Hpart Hparts IH]; [done|].
  destruct parts as [|part' parts]; [done|].
  change (join [44%N] (part :: part' :: parts))
    with (part ++ 44%N :: join [44%N] (part' :: parts)).
  by apply wellFormedText_app_sep.
Qed.

Lemma split_wellFormed (sep : N) s :
  isLeadSurrogate sep = false → isTrailSurrogate sep = false →
  wellFormedText s → Forall wellFormedText (split sep s).
Proof.
  intros Hl Ht. remember (length s) as n eqn:Hn. revert s Hn.
  induction n as [n IH] using lt_wf_ind. intros s -> Hs.
  destruct (decide (sep ∈ s)) as [Hin|Hnot].
  - apply list_elem_of_split_l in Hin as (a & b & -> & Ha).
    apply wellFormedText_app_sep in Hs as [Hwa Hwb]; [|done..].
    rewrite split_app_sep by done. constructor; [done|].
    apply (IH (length b)); [|done..]. rewrite length_app. simpl. lia.
  - rewrite split_no_sep by done. by constructor.
Qed.

Lemma updateUrl_getReposFromUrl :
  ∀ repos,
    Forall cleanRepo repos → Forall wellFormedUnicode repos →
    getReposFromUrl (updateUrl repos) = repos.
Proof.
  intros repos Hclean Hwf. unfold updateUrl.
  destruct repos as [|r repos]; [done|]. simpl Nat.eqb. cbv iota.
  set (pieces := (λ r, ParsedRepo.owner r ++ lit "/" ++ ParsedRepo.name r)
                   <$> r :: repos).
  assert (Forall (λ part, 44%N ∉ part) pieces) as Hcomma.
  { apply Forall_fmap. eapply Forall_impl; [exact Hclean|].
    intros r' (_ & _ & _ & _ & Ho44 & Hn44). simpl.
    change (lit "/") with [47%N].
    rewrite !not_elem_of_app, not_elem_of_cons. repeat split; try done. }
  assert (Forall wellFormedText pieces) as Hpieces.
  { apply Forall_fmap. eapply Forall_impl; [exact Hwf|].
    intros r' [Ho Hn]. simpl. change (lit "/" ++ ParsedRepo.name r')
      with (47%N :: ParsedRepo.name r').
    by apply wellFormedText_app_sep. }
  assert (join (lit ",") pieces ≠ []) as Hne.
  { apply Forall_cons in Hclean as [(Howner & _) _].
    unfold pieces. rewrite fmap_cons.
    destruct (ParsedRepo.owner r) as [|c o] eqn:Ho; [done|].
    by destruct ((λ r0, ParsedRepo.owner r0 ++ lit "/" ++ ParsedRepo.name r0) <$> repos). }
  assert (∀ text, text ≠ [] →
            getReposFromUrl (Some text) = omap repoOfPiece (split 44 text)) as Hget.
  { intros [|c text]; done. }
  change (lit ",") with [44%N] in *.
  rewrite (wellFormedText_join pieces Hpieces).
  rewrite (Hget _ Hne).
  rewrite split_join by done. by apply omap_repoOfPiece_clean.
Qed.

Lemma getReposFromUrl_wellFormed text r :
  wellFormedText text → r ∈ getReposFromUrl (Some text) → wellFormedUnicode r.
Proof.
  intros Htext. unfold getReposFromUrl.
  destruct (negb (hasText (Some text))); [by intros ?%elem_of_nil|].
  intros (piece & Hpiece & Hrepo)%list_elem_of_omap.
  pose proof (split_wellFormed 44 text eq_refl eq_refl Htext) as Hall.
  rewrite Forall_forall in Hall. specialize (Hall _ Hpiece).
  pose proof (split_wellFormed 47 piece eq_refl eq_refl Hall) as Hparts.
  unfold repoOfPiece in Hrepo.
  destruct (split 47 piece) as [|owner [|name rest]]; [done..|].
  destruct (hasText (Some owner) && hasText (Some name)); [|done].
  injection Hrepo as <-.
  apply Forall_cons in Hparts as [Ho Hparts].
  apply Forall_cons in Hparts as [Hn _]. by split.
Qed.

Lemma getReposFromUrl_clean reposParam r :
  r ∈ getReposFromUrl reposParam → cleanRepo r.
Proof.
  unfold getReposFromUrl.
  destruct (hasText reposParam); simpl; [|by intros ?%elem_of_nil].
  intros Hin. apply list_elem_of_omap in Hin as (piece & Hpiece & Hrepo).
  apply split_pieces in Hpiece as [Hcomma _].
  unfold repoOfPiece in Hrepo.
  destruct (split 47 piece) as [|owner [|name rest]] eqn:Hsplit; try done.
  destruct owner as [|c owner]; [done|]. destruct name as [|c' name]; [done|].
  simpl in Hrepo. injection Hrepo as <-.
  destruct (split_pieces 47 piece (c :: owner)) as [Ho47 Hosub];
    [rewrite Hsplit; left|].
  destruct (split_pieces 47 piece (c' :: name)) as [Hn47 Hnsub];
    [rewrite Hsplit; right; left|].
  repeat split; simpl; try done.
  - intros H44. apply Hcomma. by apply Hosub.
  - intros H44. apply Hcomma. by apply Hnsub.
Qed.

(** Every repository read from the address has a non-empty owner and a
    non-empty name, and neither holds a slash or a comma; an absent or
    empty parameter gives no repository. *)
Theorem repos_from_url_clean :
  (∀ reposParam r, r ∈ getReposFromUrl reposParam → cleanRepo r) ∧
  getReposFromUrl None = [] ∧ getReposFromUrl (Some []) = [].
Proof. split; [apply getReposFromUrl_clean | done]. Qed.

Lemma repos_from_url_clean_witness :
  cleanRepo (ParsedRepo.mk (lit "c") (lit "d")).
Proof.
  apply (proj1 repos_from_url_clean (Some (lit "a/b,c/d/e,,x"))).
  apply list_elem_of_In. vm_compute. tauto.
Defined.

(** * The list of repositories *)

Lemma handleRemoveRepo_shift (offset index : nat) (prev : list ParsedRepo.t) :
  snd <$> filter (λ ir, ir.1 ≠ (offset + index)%nat)
            (imap (λ i r, ((offset + i)%nat, r)) prev)
  = take index prev ++ drop (S index) prev.
Proof.
  revert offset index. induction prev as [|r prev IH]; intros offset index.
  - by destruct index.
  - rewrite imap_cons, filter_cons. simpl fst.
    assert (imap ((λ i r0, ((offset + i)%nat, r0)) ∘ S) prev
            = imap (λ i r0, ((S offset + i)%nat, r0)) prev) as ->.
    { apply imap_ext. intros i r' _. simpl. f_equal; lia. }
    destruct index as [|index].
    + rewrite decide_False by lia. simpl take. simpl drop.
      clear IH. rewrite drop_0. simpl app.
      assert (∀ k (l : list ParsedRepo.t),
                (k > offset)%nat →
                snd <$> filter (λ ir, ir.1 ≠ (offset + 0)%nat)
                          (imap (λ i r0, ((k + i)%nat, r0)) l) = l) as Hkeep.
      { intros k l. revert k. induction l as [|x l IHl]; intros k Hk; [done|].
        rewrite imap_cons, filter_cons. simpl fst.
        rewrite decide_True by lia. rewrite fmap_cons. simpl snd. f_equal.
        assert (imap ((λ i r0, ((k + i)%nat, r0)) ∘ S) l
                = imap (λ i r0, ((S k + i)%nat, r0)) l) as ->.
        { apply imap_ext. intros i r' _. simpl. f_equal; lia. }
        apply IHl. lia. }
      apply Hkeep. lia.
    + rewrite decide_True by lia. rewrite fmap_cons. simpl. f_equal.
      replace (offset + S index)%nat with (S offset + index)%nat by lia.
      apply IH.
Qed.

(** Removing by index drops exactly the repository at that index and
    keeps the others in order; an index outside the list changes nothing.
    Removing the repository that was just added gives back the list. *)
Theorem remove_repo_by_index :
  (∀ index prev, handleRemoveRepo index prev = take index prev ++ drop (S index) prev) ∧
  (∀ index prev, (length prev ≤ index)%nat → handleRemoveRepo index prev = prev) ∧
  (∀ index prev, (index < length prev)%nat →
     S (length (handleRemoveRepo index prev)) = length prev) ∧
  (∀ repo prev, handleRemoveRepo (length prev) (handleAddRepo repo prev) = prev).
Proof.
  assert (∀ index prev,
            handleRemoveRepo index prev = take index prev ++ drop (S index) prev) as Heq.
  { intros index prev. apply (handleRemoveRepo_shift 0 index prev). }
  split; [done|]. split; [|split].
  - intros index prev Hlen. rewrite Heq, take_ge, drop_ge by lia. apply app_nil_r.
  - intros index prev Hlen. rewrite Heq, length_app, length_take, length_drop. lia.
  - intros repo prev. rewrite Heq. unfold handleAddRepo.
    rewrite take_app_length, drop_app_ge by lia.
    replace (S (length prev) - length prev)%nat with 1%nat by lia.
    simpl. apply app_nil_r.
Qed.

Lemma remove_repo_by_index_witness :
  handleRemoveRepo 5 [ParsedRepo.mk (lit "a") (lit "b")]
  = [ParsedRepo.mk (lit "a") (lit "b")].
Proof. apply (proj1 (proj2 remove_repo_by_index)). simpl. lia. Defined.

(** * Parsing a repository *)

(** ** The matcher finds only words of the pattern *)

Section MatcherFacts.
Variable ignoreCase : bool.
Variable input : jsstring.

Lemma repeatGreedy_sound {M} cs (k : jsstring → option M) s m :
  repeatGreedy ignoreCase cs k s = Some m →
  ∃ w s', s = w ++ s' ∧ Forall (λ c, accepts ignoreCase cs c = true) w ∧ k s' = Some m.
Proof.
  induction s as [|c s IH]; simpl.
  - intros Hk. by exists [], [].
  - destruct (accepts ignoreCase cs c) eqn:Hc; [|intros Hk; by exists [], (c :: s)].
    destruct (repeatGreedy ignoreCase cs k s) as [m'|] eqn:Hrest.
    + intros [= <-]. destruct (IH eq_refl) as (w & s' & -> & Hw & Hk).
      exists (c :: w), s'. split; [done|]. split; [by constructor|done].
    + intros Hk. by exists [], (c :: s).
Qed.

Lemma repeatLazy_sound {M} cs (k : jsstring → option M) s m :
  repeatLazy ignoreCase cs k s = Some m →
  ∃ w s', s = w ++ s' ∧ Forall (λ c, accepts ignoreCase cs c = true) w ∧ k s' = Some m.
Proof.
  induction s as [|c s IH]; simpl.
  - destruct (k []) eqn:Hk; [|done]. intros [= <-]. by exists [], [].
  - destruct (k (c :: s)) eqn:Hk; [intros [= <-]; by exists [], (c :: s)|].
    destruct (accepts ignoreCase cs c) eqn:Hc; [|done].
    intros Hrest. destruct (IH Hrest) as (w & s' & -> & Hw & Hk').
    exists (c :: w), s'. split; [done|]. split; [by constructor|done].
Qed.

Lemma matcher_sound r k s captures m :
  matcher ignoreCase input r k s captures = Some m →
  ∃ w s' captures',
    s = w ++ s' ∧ matches ignoreCase r w ∧ k s' captures' = Some m ∧
    (groupFree r = true → captures' = captures).
Proof.
  revert k s captures. induction r as [|cs|r1 IH1 r2 IH2|r IH|lazy cs|index r IH| |];
    intros k s captures; simpl.
  - intros Hk. by exists [], s, captures.
  - destruct s as [|c s]; [done|].
    destruct (accepts ignoreCase cs c) eqn:Hc; [|done].
    intros Hk. exists [c], s, captures.
    split; [done|]. split; [by exists c|]. done.
  - intros Hm.
    destruct (IH1 _ _ _ Hm) as (u & s1 & captures1 & -> & Hu & Hm2 & Hfree1).
    destruct (IH2 _ _ _ Hm2) as (v & s2 & captures2 & -> & Hv & Hk & Hfree2).
    exists (u ++ v), s2, captures2. split; [by rewrite (assoc_L (++))|].
    split; [by exists u, v|]. split; [done|].
    intros [H1 H2]%andb_true_iff. by rewrite (Hfree2 H2), (Hfree1 H1).
  - destruct (matcher ignoreCase input r k s captures) as [m'|] eqn:Hm.
    + intros [= <-]. destruct (IH _ _ _ Hm) as (w & s' & captures' & -> & Hw & Hk & Hfree).
      exists w, s', captures'. split; [done|]. split; [by right|]. done.
    + intros Hk. exists [], s, captures. split; [done|]. split; [by left|]. done.
  - intros Hm.
    assert (∃ w s', s = w ++ s' ∧ Forall (λ c, accepts ignoreCase cs c = true) w
                    ∧ k s' captures = Some m) as (w & s' & -> & Hw & Hk).
    { destruct lazy; [by apply repeatLazy_sound in Hm | by apply repeatGreedy_sound in Hm]. }
    by exists w, s', captures.
  - intros Hm. destruct (IH _ _ _ Hm) as (w & s' & captures' & -> & Hw & Hk & _).
    exists w, s', (<[index := take (length (w ++ s') - length s') (w ++ s')]> captures').
    done.
  - destruct (length s =? length input)%nat; [|done].
    intros Hk. by exists [], s, captures.
  - destruct s as [|c s]; [|done]. intros Hk. by exists [], [], captures.
Qed.

(** A capturing group around a pattern without groups stores the word
    it consumed. *)
Lemma matcher_group_sound index r k s captures m :
  groupFree r = true →
  matcher ignoreCase input (Group index r) k s captures = Some m →
  ∃ w s', s = w ++ s' ∧ matches ignoreCase r w ∧ k s' (<[index := w]> captures) = Some m.
Proof.
  intros Hfree Hm. simpl in Hm.
  apply matcher_sound in Hm as (w & s' & captures' & -> & Hw & Hk & Hcaps).
  rewrite (Hcaps Hfree) in Hk. exists w, s'. split; [done|]. split; [done|].
  rewrite length_app in Hk.
  replace (length w + length s' - length s')%nat with (length w) in Hk by lia.
  by rewrite take_app_length in Hk.
Qed.

Lemma search_sound r s m :
  search ignoreCase input r s = Some m →
  ∃ before s0, s = before ++ s0 ∧
    matcher ignoreCase input r (λ _ captures, Some captures) s0 ∅ = Some m.
Proof.
  induction s as [|c s IH]; simpl.
  - destruct (matcher _ _ _ _ [] ∅) eqn:Hm; [|done]. intros [= <-]. by exists [], [].
  - destruct (matcher _ _ _ _ (c :: s) ∅) eqn:Hm.
    + intros [= <-]. by exists [], (c :: s).
    + intros Hs. destruct (IH Hs) as (before & s0 & -> & Hm0).
      by exists (c :: before), s0.
Qed.

Lemma matcher_Seq_free_sound r1 r2 k s captures m :
  groupFree r1 = true →
  matcher ignoreCase input (Seq r1 r2) k s captures = Some m →
  ∃ w s', s = w ++ s' ∧ matches ignoreCase r1 w ∧
          matcher ignoreCase input r2 k s' captures = Some m.
Proof.
  intros Hfree Hm. change (matcher ignoreCase input r1 (matcher ignoreCase input r2 k)
                             s captures = Some m) in Hm.
  apply matcher_sound in Hm as (w & s' & captures' & -> & Hw & Hk & Hcaps).
  rewrite (Hcaps Hfree) in Hk. eauto.
Qed.

Lemma matcher_Seq_Group_sound index r r2 k s captures m :
  groupFree r = true →
  matcher ignoreCase input (Seq (Group index r) r2) k s captures = Some m →
  ∃ w s', s = w ++ s' ∧ matches ignoreCase r w ∧
          matcher ignoreCase input r2 k s' (<[index := w]> captures) = Some m.
Proof.
  intros Hfree Hm.
  change (matcher ignoreCase input (Group index r) (matcher ignoreCase input r2 k)
            s captures = Some m) in Hm.
  by apply matcher_group_sound in Hm.
Qed.

Lemma matcher_Seq_Atom_sound cs r2 k s captures m :
  matcher ignoreCase input (Seq (Atom cs) r2) k s captures = Some m →
  ∃ c s', s = c :: s' ∧ accepts ignoreCase cs c = true ∧
          matcher ignoreCase input r2 k s' captures = Some m.
Proof.
  simpl. destruct s as [|c s]; [done|].
  destruct (accepts ignoreCase cs c) eqn:Hc; [|done]. eauto.
Qed.

Lemma matcher_Seq_Start_sound r2 k s captures m :
  matcher ignoreCase input (Seq StartOfInput r2) k s captures = Some m →
  length s = length input ∧ matcher ignoreCase input r2 k s captures = Some m.
Proof. simpl. by destruct (Nat.eqb_spec (length s) (length input)). Qed.

Lemma matcher_End_sound k s captures m :
  matcher ignoreCase input EndOfInput k s captures = Some m →
  s = [] ∧ k [] captures = Some m.
Proof. simpl. by destruct s. Qed.

Lemma matches_oneOrMore lazy c0 w :
  matches ignoreCase (oneOrMore lazy (NotChar c0)) w →
  w ≠ [] ∧ Forall (λ c, sameChar ignoreCase c c0 = false) w.
Proof.
  intros (u & v & -> & (c & -> & Hc) & Hv). simpl in *. split; [done|].
  constructor; [by apply negb_true_iff|].
  eapply Forall_impl; [exact Hv|]. intros x Hx. by apply negb_true_iff.
Qed.
End MatcherFacts.

Lemma canonicalize_slash c : canonicalize c = 47%N → c = 47%N.
Proof.
  unfold canonicalize.
  destruct ((97 <=? c)%N && (c <=? 122)%N) eqn:Hletter; [|done].
  apply andb_true_iff in Hletter as [H1%N.leb_le H2%N.leb_le]. lia.
Qed.

Lemma sameChar_slash ignoreCase c : sameChar ignoreCase c 47 = true ↔ c = 47%N.
Proof.
  unfold sameChar. destruct ignoreCase.
  - rewrite N.eqb_eq. split; [apply canonicalize_slash | by intros ->].
  - apply N.eqb_eq.
Qed.

Lemma no_slash ignoreCase (w : jsstring) :
  Forall (λ c, sameChar ignoreCase c 47 = false) w → 47%N ∉ w.
Proof.
  intros Hall Hin. rewrite Forall_forall in Hall. specialize (Hall _ Hin).
  by rewrite (proj2 (sameChar_slash ignoreCase 47) eq_refl) in Hall.
Qed.

(** A match of the short pattern takes the whole text: an owner and a
    name without slashes, around the one slash. *)
Lemma shortPattern_sound text m :
  exec false shortPattern text = Some m →
  ∃ owner name,
    text = owner ++ 47%N :: name ∧
    owner ≠ [] ∧ name ≠ [] ∧ (47%N ∉ owner) ∧ (47%N ∉ name) ∧
    repoOfMatch m = ParsedRepo.mk owner name.
Proof.
  unfold exec. intros Hm.
  apply search_sound in Hm as (before & s0 & Htext & Hm).
  unfold shortPattern in Hm.
  apply matcher_Seq_Start_sound in Hm as [Hlen Hm].
  assert (before = []) as ->.
  { rewrite Htext, length_app in Hlen. destruct before; [done|simpl in Hlen; lia]. }
  simpl in Htext. subst s0.
  apply matcher_Seq_Group_sound in Hm as (owner & s1 & Htext & Howner & Hm); [|done].
  apply matches_oneOrMore in Howner as [Howner Hoslash].
  apply matcher_Seq_Atom_sound in Hm as (c & s2 & -> & Hc & Hm).
  apply (sameChar_slash false) in Hc as ->.
  apply matcher_Seq_Group_sound in Hm as (name & s3 & -> & Hname & Hm); [|done].
  apply matches_oneOrMore in Hname as [Hname Hnslash].
  apply matcher_End_sound in Hm as [-> [= <-]].
  exists owner, name. rewrite app_nil_r in Htext.
  split; [done|]. split; [done|]. split; [done|].
  split; [by eapply no_slash|]. split; [by eapply no_slash|].
  unfold repoOfMatch. rewrite lookup_insert_ne by done.
  by rewrite !lookup_insert_eq.
Qed.

Lemma matches_chars ignoreCase (l : jsstring) w :
  matches ignoreCase (foldr (λ c r, Seq (Atom (Char c)) r) Empty l) w →
  Forall2 (λ c x, sameChar ignoreCase c x = true) w l.
Proof.
  revert w. induction l as [|x l IH]; intros w; simpl.
  - intros ->. constructor.
  - intros (u & v & -> & (c & -> & Hc) & Hv). constructor; [done|]. by apply IH.
Qed.

(** A match of the URL pattern lies after a slash (the one that ends
    "github.com/") and holds an owner and a name without slashes around a
    second slash. *)
Lemma urlPattern_sound text m :
  exec true urlPattern text = Some m →
  ∃ before owner name after,
    text = before ++ 47%N :: owner ++ 47%N :: name ++ after ∧
    owner ≠ [] ∧ name ≠ [] ∧ (47%N ∉ owner) ∧ (47%N ∉ name) ∧
    repoOfMatch m = ParsedRepo.mk owner name.
Proof.
  unfold exec. intros Hm.
  apply search_sound in Hm as (before & s0 & Htext & Hm).
  unfold urlPattern in Hm.
  apply matcher_Seq_free_sound in Hm as (scheme & s1 & -> & _ & Hm); [|done].
  apply matcher_Seq_free_sound in Hm as (www & s2 & -> & _ & Hm); [|done].
  apply matcher_Seq_free_sound in Hm as (host & s3 & -> & Hhost & Hm); [|done].
  apply matches_chars in Hhost.
  change (lit "github.com/") with (lit "github.com" ++ [47%N]) in Hhost.
  apply Forall2_app_inv_r in Hhost as (host' & slash & _ & Hslash & ->).
  apply Forall2_cons_inv_r in Hslash as (c & rest & Hc & Hrest & ->).
  apply Forall2_nil_inv_r in Hrest as ->.
  apply (sameChar_slash true) in Hc as ->.
  apply matcher_Seq_Group_sound in Hm as (owner & s4 & -> & Howner & Hm); [|done].
  apply matches_oneOrMore in Howner as [Howner Hoslash].
  apply matcher_Seq_Atom_sound in Hm as (c & s5 & -> & Hc & Hm).
  apply (sameChar_slash true) in Hc as ->.
  apply matcher_Seq_Group_sound in Hm as (name & s6 & -> & Hname & Hm); [|done].
  apply matches_oneOrMore in Hname as [Hname Hnslash].
  apply matcher_Seq_free_sound in Hm as (git & s7 & -> & _ & Hm); [|done].
  apply matcher_Seq_free_sound in Hm as (path & s8 & -> & _ & Hm); [|done].
  apply matcher_End_sound in Hm as [-> [= <-]].
  exists (before ++ scheme ++ www ++ host'), owner, name, (git ++ path).
  split.
  { rewrite Htext, app_nil_r. by rewrite <- !(assoc_L (++)). }
  split; [done|]. split; [done|].
  split; [by eapply no_slash|]. split; [by eapply no_slash|].
  unfold repoOfMatch. rewrite lookup_insert_ne by done.
  by rewrite !lookup_insert_eq.
Qed.

Lemma trim_sublist s c : c ∈ trim s → c ∈ s.
Proof.
  destruct (trim_spec s) as ((before & after & Hs & _) & _).
  intros Hc. rewrite Hs, !elem_of_app. auto.
Qed.

Lemma parseRepoInput_parts input r :
  parseRepoInput input = Some r →
  ParsedRepo.owner r ≠ [] ∧ ParsedRepo.name r ≠ [] ∧
  (47%N ∉ ParsedRepo.owner r) ∧ (47%N ∉ ParsedRepo.name r) ∧
  (47%N ∈ input).
Proof.
  unfold parseRepoInput.
  destruct (exec true urlPattern (trim input)) as [m|] eqn:Hurl.
  - intros [= <-].
    apply urlPattern_sound in Hurl
      as (before & owner & name & after & Htext & Ho & Hn & Ho47 & Hn47 & ->).
    repeat split; try done. apply trim_sublist. rewrite Htext.
    rewrite elem_of_app. right. left.
  - destruct (exec false shortPattern (trim input)) as [m|] eqn:Hshort; [|done].
    intros [= <-].
    apply shortPattern_sound in Hshort
      as (owner & name & Htext & Ho & Hn & Ho47 & Hn47 & ->).
    repeat split; try done. apply trim_sublist. rewrite Htext.
    rewrite elem_of_app. right. left.
Qed.

(** The owner and the name of a parsed repository are never empty and
    never hold a slash; an input without a slash -- the empty input, or
    white space only -- does not parse. *)
Theorem parsed_repo_parts :
  (∀ input r, parseRepoInput input = Some r →
     ParsedRepo.owner r ≠ [] ∧ ParsedRepo.name r ≠ [] ∧
     (47%N ∉ ParsedRepo.owner r) ∧ (47%N ∉ ParsedRepo.name r) ∧
     (47%N ∈ input)) ∧
  (∀ input, 47%N ∉ input → parseRepoInput input = None).
Proof.
  split; [apply parseRepoInput_parts|]. intros input Hnone.
  destruct (parseRepoInput input) as [r|] eqn:Hparse; [|done].
  by destruct (parseRepoInput_parts _ _ Hparse) as (_ & _ & _ & _ & Hin).
Qed.

Lemma parsed_repo_parts_witness : parseRepoInput (lit "no slash here") = None.
Proof.
  apply (proj2 parsed_repo_parts). apply (bool_decide_unpack _). vm_compute. exact I.
Defined.

(** ** What the matcher finds *)

Section MatcherRuns.
Variable ignoreCase : bool.
Variable input : jsstring.

Lemma repeatGreedy_run {M} cs (k : jsstring → option M) w s m :
  Forall (λ c, accepts ignoreCase cs c = true) w →
  stopsBefore ignoreCase cs s →
  k s = Some m →
  repeatGreedy ignoreCase cs k (w ++ s) = Some m.
Proof.
  intros Hw Hstop Hk. induction Hw as [|c w Hc _ IH]; simpl.
  - destruct s as [|c s]; [done|]. cbn [repeatGreedy stopsBefore] in *.
    by rewrite Hstop.
  - by rewrite Hc, IH.
Qed.

Lemma repeatLazy_run {M} cs (k : jsstring → option M) w s m :
  Forall (λ c, accepts ignoreCase cs c = true) w →
  (∀ w1 w2, w = w1 ++ w2 → w2 ≠ [] → k (w2 ++ s) = None) →
  k s = Some m →
  repeatLazy ignoreCase cs k (w ++ s) = Some m.
Proof.
  intros Hw. induction Hw as [|c w Hc _ IH]; intros Hnot Hk.
  - simpl. destruct s; simpl; by rewrite Hk.
  - pose proof (Hnot [] (c :: w) eq_refl ltac:(done)) as Hhere.
    cbn [repeatLazy app] in *. rewrite Hhere, Hc.
    apply IH; [|done]. intros w1 w2 -> Hw2. by apply (Hnot (c :: w1) w2).
Qed.

Lemma take_consumed (w s : jsstring) : take (length (w ++ s) - length s) (w ++ s) = w.
Proof.
  rewrite length_app.
  replace (length w + length s - length s)%nat with (length w) by lia.
  apply take_app_length.
Qed.

Lemma matcher_group_greedy_run index cs k w s captures m :
  w ≠ [] →
  Forall (λ c, accepts ignoreCase cs c = true) w →
  stopsBefore ignoreCase cs s →
  k s (<[index := w]> captures) = Some m →
  matcher ignoreCase input (Group index (oneOrMore false cs)) k (w ++ s) captures
  = Some m.
Proof.
  intros Hne Hw Hstop Hk. destruct w as [|c w]; [done|].
  apply Forall_cons in Hw as [Hc Hw].
  unfold oneOrMore. cbn [matcher app]. rewrite Hc.
  apply repeatGreedy_run; [done..|].
  change (c :: w ++ s) with ((c :: w) ++ s). by rewrite take_consumed.
Qed.

Lemma matcher_group_lazy_run index cs k w s captures m :
  w ≠ [] →
  Forall (λ c, accepts ignoreCase cs c = true) w →
  (∀ w1 w2, w = w1 ++ w2 → w1 ≠ [] → w2 ≠ [] →
     k (w2 ++ s) (<[index := w1]> captures) = None) →
  k s (<[index := w]> captures) = Some m →
  matcher ignoreCase input (Group index (oneOrMore true cs)) k (w ++ s) captures
  = Some m.
Proof.
  intros Hne Hw Hnot Hk. destruct w as [|c w]; [done|].
  apply Forall_cons in Hw as [Hc Hw].
  unfold oneOrMore. cbn [matcher app]. rewrite Hc.
  apply repeatLazy_run; [done| |].
  - intros w1 w2 -> Hw2.
    replace (c :: (w1 ++ w2) ++ s) with ((c :: w1) ++ (w2 ++ s))
      by (by rewrite <- (assoc_L (++))).
    rewrite take_consumed. by apply (Hnot (c :: w1) w2).
  - change (c :: w ++ s) with ((c :: w) ++ s). by rewrite take_consumed.
Qed.

Lemma matcher_chars_run (l l' : jsstring) k s captures :
  Forall2 (λ c x, sameChar ignoreCase c x = true) l' l →
  matcher ignoreCase input (foldr (λ c r, Seq (Atom (Char c)) r) Empty l) k
    (l' ++ s) captures
  = k s captures.
Proof.
  induction 1 as [|c x l' l Hc _ IH]; [done|]. simpl. simpl in Hc. by rewrite Hc.
Qed.

Lemma matcher_chars_mismatch x (l : jsstring) k s captures :
  match s with
  | c :: _ => sameChar ignoreCase c x = false
  | [] => True
  end →
  matcher ignoreCase input (foldr (λ c r, Seq (Atom (Char c)) r) Empty (x :: l)) k
    s captures
  = None.
Proof. destruct s as [|c s]; [done|]. simpl. by intros ->. Qed.

Lemma search_here r s m :
  matcher ignoreCase input r (λ _ captures, Some captures) s ∅ = Some m →
  search ignoreCase input r s = Some m.
Proof. intros Hm. destruct s; simpl; by rewrite Hm. Qed.
End MatcherRuns.

Lemma not_slash_accepts ignoreCase (w : jsstring) :
  47%N ∉ w → Forall (λ c, accepts ignoreCase (NotChar 47) c = true) w.
Proof.
  intros Hnot. apply Forall_forall. intros c Hc. simpl.
  apply negb_true_iff. destruct (sameChar ignoreCase c 47) eqn:Hsame; [|done].
  apply sameChar_slash in Hsame as ->. done.
Qed.

Lemma slash_stops ignoreCase s : stopsBefore ignoreCase (NotChar 47) (47%N :: s).
Proof.
  simpl. apply negb_false_iff. by apply sameChar_slash.
Qed.

Lemma shortPattern_run owner name :
  owner ≠ [] → name ≠ [] → 47%N ∉ owner → 47%N ∉ name →
  ∃ m, exec false shortPattern (owner ++ 47%N :: name) = Some m ∧
       repoOfMatch m = ParsedRepo.mk owner name.
Proof.
  intros Howner Hname Ho47 Hn47.
  exists (<[2%nat := name]> (<[1%nat := owner]> ∅)). split.
  - unfold exec. apply search_here. unfold shortPattern.
    change (matcher false (owner ++ 47%N :: name) (Seq StartOfInput ?r) ?k ?s ?c)
      with (if (length s =? length (owner ++ 47%N :: name))%nat
            then matcher false (owner ++ 47%N :: name) r k s c else None).
    rewrite Nat.eqb_refl.
    change (matcher false ?i (Seq (Group 1 ?r1) ?r2) ?k ?s ?c)
      with (matcher false i (Group 1 r1) (matcher false i r2 k) s c).
    apply matcher_group_greedy_run;
      [done | by apply not_slash_accepts | apply slash_stops |].
    change (matcher false ?i (Seq (Atom (Char 47)) ?r2) ?k (47%N :: ?s) ?c)
      with (matcher false i r2 k s c).
    change (matcher false ?i (Seq (Group 2 ?r1) ?r2) ?k ?s ?c)
      with (matcher false i (Group 2 r1) (matcher false i r2 k) s c).
    pose proof (matcher_group_greedy_run false (owner ++ 47%N :: name) 2 (NotChar 47)
                  (matcher false (owner ++ 47%N :: name) EndOfInput
                     (λ _ captures, Some captures))
                  name [] (<[1%nat := owner]> ∅)
                  (<[2%nat := name]> (<[1%nat := owner]> ∅))
                  Hname (not_slash_accepts false name Hn47) I eq_refl) as Hrun.
    by rewrite app_nil_r in Hrun.
  - unfold repoOfMatch. rewrite lookup_insert_ne by done.
    by rewrite !lookup_insert_eq.
Qed.

Lemma first_slash_unique (a a' b b' : jsstring) :
  47%N ∉ a → 47%N ∉ a' → a ++ 47%N :: b = a' ++ 47%N :: b' → a = a' ∧ b = b'.
Proof.
  revert a'. induction a as [|c a IH]; intros [|c' a'] Ha Ha'; simpl.
  - by intros [= ->].
  - intros [= <- _]. destruct Ha'. left.
  - intros [= -> _]. destruct Ha. left.
  - intros [= -> Heq]. apply not_elem_of_cons in Ha as [_ Ha], Ha' as [_ Ha'].
    destruct (IH a' Ha Ha' Heq) as [-> ->]. done.
Qed.

(** A text with one slash only is not matched by the URL pattern. *)
Lemma urlPattern_one_slash owner name :
  47%N ∉ owner → 47%N ∉ name → exec true urlPattern (owner ++ 47%N :: name) = None.
Proof.
  intros Ho47 Hn47.
  destruct (exec true urlPattern (owner ++ 47%N :: name)) as [m|] eqn:Hurl; [|done].
  apply urlPattern_sound in Hurl as (before & o & n & after & Htext & _).
  exfalso. destruct (decide (47%N ∈ before)) as [Hin|Hnot].
  - apply list_elem_of_split_l in Hin as (b1 & b2 & -> & Hb1).
    rewrite <- (assoc_L (++)) in Htext. simpl in Htext.
    apply first_slash_unique in Htext as [_ ->]; [|done..].
    apply Hn47. rewrite elem_of_app. right. left.
  - apply first_slash_unique in Htext as [_ ->]; [|done..].
    apply Hn47. rewrite elem_of_app. right. left.
Qed.

Lemma trimStart_id s :
  (∀ c, head s = Some c → isWhiteSpace c = false) → trimStart s = s.
Proof.
  destruct s as [|c s]; [done|]. intros Hhead. simpl.
  by rewrite (Hhead c eq_refl).
Qed.

Lemma trim_idempotent s : trim (trim s) = trim s.
Proof.
  destruct (trim_spec s) as (_ & Hhead & Hlast & _).
  unfold trim at 1. rewrite (trimStart_id _ Hhead).
  unfold trimEnd. rewrite trimStart_id; [apply reverse_involutive|].
  intros c Hc. apply Hlast. by rewrite <- head_reverse.
Qed.

(** White space around the input does not matter.  An input that, once
    trimmed, holds exactly one slash parses exactly when there is text on
    both sides of the slash, and then as that owner and that name. *)
Theorem parse_short_form :
  (∀ input, parseRepoInput input = parseRepoInput (trim input)) ∧
  (∀ input owner name,
     trim input = owner ++ 47%N :: name →
     47%N ∉ owner → 47%N ∉ name →
     parseRepoInput input
     = if decide (owner ≠ [] ∧ name ≠ []) then Some (ParsedRepo.mk owner name)
       else None).
Proof.
  split.
  - intros input. unfold parseRepoInput. by rewrite trim_idempotent.
  - intros input owner name Htrim Ho47 Hn47. unfold parseRepoInput.
    rewrite Htrim, urlPattern_one_slash by done.
    case_decide as Hparts.
    + destruct Hparts as [Howner Hname].
      by destruct (shortPattern_run owner name) as (m & -> & ->).
    + destruct (exec false shortPattern (owner ++ 47%N :: name)) as [m|] eqn:Hshort;
        [|done].
      apply shortPattern_sound in Hshort as (o & n & Htext & Ho & Hn & Ho' & Hn' & _).
      apply first_slash_unique in Htext as [-> ->]; [|done..].
      by destruct Hparts.
Qed.

Lemma parse_short_form_witness :
  parseRepoInput (lit "  facebook/react ")
  = if decide (lit "facebook" ≠ [] ∧ lit "react" ≠ [])
    then Some (ParsedRepo.mk (lit "facebook") (lit "react")) else None.
Proof.
  apply (proj2 parse_short_form).
  - vm_compute. reflexivity.
  - apply (bool_decide_unpack _). vm_compute. exact I.
  - apply (bool_decide_unpack _). vm_compute. exact I.
Defined.

(** ** GitHub addresses *)

Lemma matcher_Seq ignoreCase input r1 r2 k s captures :
  matcher ignoreCase input (Seq r1 r2) k s captures
  = matcher ignoreCase input r1 (matcher ignoreCase input r2 k) s captures.
Proof. done. Qed.

Lemma matcher_Optional_skip ignoreCase input r k s captures :
  matcher ignoreCase input r k s captures = None →
  matcher ignoreCase input (Optional r) k s captures = k s captures.
Proof. simpl. by intros ->. Qed.

Lemma matcher_Optional_take ignoreCase input r k s captures m :
  matcher ignoreCase input r k s captures = Some m →
  matcher ignoreCase input (Optional r) k s captures = Some m.
Proof. simpl. by intros ->. Qed.

Lemma canonicalize_other c x :
  (x < 65 ∨ (90 < x ∧ x < 97) ∨ 122 < x)%N → canonicalize c = canonicalize x → c = x.
Proof.
  unfold canonicalize. intros Hx.
  destruct (N.leb_spec 97 c), (N.leb_spec c 122), (N.leb_spec 97 x),
           (N.leb_spec x 122); simpl; lia.
Qed.

Lemma sameIgnoringCase_sameChar (text text' : jsstring) :
  sameIgnoringCase text text' →
  Forall2 (λ c x, sameChar true c x = true) text text'.
Proof.
  intros Hsame. eapply Forall2_impl; [exact Hsame|].
  intros c x Hcx. simpl. by apply N.eqb_eq.
Qed.

Lemma chars_run ignoreCase input text literal r k s captures :
  Forall2 (λ c x, sameChar ignoreCase c x = true) text (lit literal) →
  matcher ignoreCase input (Seq (chars literal) r) k (text ++ s) captures
  = matcher ignoreCase input r k s captures.
Proof. intros Htext. rewrite matcher_Seq. by apply matcher_chars_run. Qed.

Lemma chars_end_run ignoreCase input text literal k s captures :
  Forall2 (λ c x, sameChar ignoreCase c x = true) text (lit literal) →
  matcher ignoreCase input (chars literal) k (text ++ s) captures = k s captures.
Proof. apply matcher_chars_run. Qed.

(** After the name, the rest of the URL pattern accepts nothing, ".git",
    a path, or both. *)
Lemma urlTail_run input git path captures :
  git = [] ∨ sameIgnoringCase git (lit ".git") →
  path = [] ∨ (∃ rest, path = 47%N :: rest
                       ∧ Forall (λ c, isLineTerminator c = false) rest) →
  matcher true input urlTail (λ _ captures, Some captures) (git ++ path) captures
  = Some captures.
Proof.
  intros Hgit Hpath.
  assert (matcher true input
            (Seq (Optional (Seq (Atom (Char 47)) (Repeat false Dot))) EndOfInput)
            (λ _ captures, Some captures) path captures = Some captures) as Hrest.
  { rewrite matcher_Seq. destruct Hpath as [->|(rest & -> & Hrest)]; [done|].
    apply matcher_Optional_take. rewrite matcher_Seq.
    cbn [matcher]. change (accepts true (Char 47) 47) with true. cbv iota.
    rewrite <- (app_nil_r rest).
    apply repeatGreedy_run; [|done|done].
    eapply Forall_impl; [exact Hrest|]. intros c Hc. simpl. by rewrite Hc. }
  unfold urlTail. destruct Hgit as [->|Hgit].
  - rewrite matcher_Seq, matcher_Optional_skip; [done|].
    apply matcher_chars_mismatch.
    destruct Hpath as [->|(rest & -> & _)]; done.
  - rewrite matcher_Seq. apply matcher_Optional_take.
    rewrite (matcher_chars_run true input (lit ".git") git); [done|].
    by apply sameIgnoringCase_sameChar.
Qed.

(** Before a character of the name that is neither a dot nor a slash,
    the rest of the URL pattern fails. *)
Lemma urlTail_stuck input c s captures :
  c ≠ 46%N → c ≠ 47%N →
  matcher true input urlTail (λ _ captures, Some captures) (c :: s) captures = None.
Proof.
  intros Hdot Hslash. unfold urlTail.
  assert (sameChar true c 46 = false) as Hc46.
  { simpl. apply N.eqb_neq. intros Heq. apply Hdot.
    apply canonicalize_other; [lia | done]. }
  assert (sameChar true c 47 = false) as Hc47.
  { destruct (sameChar true c 47) eqn:Hsame; [|done].
    by apply sameChar_slash in Hsame. }
  rewrite matcher_Seq, matcher_Optional_skip by (by apply matcher_chars_mismatch).
  rewrite matcher_Seq, matcher_Optional_skip; [done|].
  rewrite matcher_Seq. cbn [matcher accepts]. by rewrite Hc47.
Qed.

Lemma urlPattern_run scheme www host owner name git path :
  scheme = [] ∨ sameIgnoringCase scheme (lit "http://")
  ∨ sameIgnoringCase scheme (lit "https://") →
  www = [] ∨ sameIgnoringCase www (lit "www.") →
  sameIgnoringCase host (lit "github.com/") →
  owner ≠ [] → 47%N ∉ owner →
  name ≠ [] → 47%N ∉ name → 46%N ∉ name →
  git = [] ∨ sameIgnoringCase git (lit ".git") →
  path = [] ∨ (∃ rest, path = 47%N :: rest
                       ∧ Forall (λ c, isLineTerminator c = false) rest) →
  ∃ m,
    exec true urlPattern (scheme ++ www ++ host ++ owner ++ 47%N :: name ++ git ++ path)
      = Some m ∧
    repoOfMatch m = ParsedRepo.mk owner name.
Proof.
  intros Hscheme Hwww Hhost Howner Ho47 Hname Hn47 Hn46 Hgit Hpath.
  set (text := scheme ++ www ++ host ++ owner ++ 47%N :: name ++ git ++ path).
  exists (<[2%nat := name]> (<[1%nat := owner]> ∅)).
  split; [|unfold repoOfMatch; rewrite lookup_insert_ne by done;
           by rewrite !lookup_insert_eq].
  unfold exec. apply search_here.
  (* from the name on *)
  assert (matcher true text (Seq (Group 2 (oneOrMore true (NotChar 47))) urlTail)
            (λ _ captures, Some captures) (name ++ git ++ path) (<[1%nat := owner]> ∅)
          = Some (<[2%nat := name]> (<[1%nat := owner]> ∅))) as Hfrom_name.
  { rewrite matcher_Seq.
    apply matcher_group_lazy_run; [done | by apply not_slash_accepts | |].
    - intros w1 w2 -> _ Hw2. destruct w2 as [|c w2]; [done|].
      apply urlTail_stuck.
      + intros ->. apply Hn46. rewrite elem_of_app. right. left.
      + intros ->. apply Hn47. rewrite elem_of_app. right. left.
    - by apply urlTail_run. }
  (* from the owner on *)
  assert (matcher true text
            (Seq (Group 1 (oneOrMore false (NotChar 47)))
               (Seq (Atom (Char 47))
                  (Seq (Group 2 (oneOrMore true (NotChar 47))) urlTail)))
            (λ _ captures, Some captures) (owner ++ 47%N :: name ++ git ++ path) ∅
          = Some (<[2%nat := name]> (<[1%nat := owner]> ∅))) as Hfrom_owner.
  { rewrite matcher_Seq.
    apply matcher_group_greedy_run;
      [done | by apply not_slash_accepts | apply slash_stops |].
    rewrite matcher_Seq. cbn [matcher].
    change (accepts true (Char 47) 47) with true. cbv iota. exact Hfrom_name. }
  (* from the host on *)
  assert (matcher true text
            (Seq (chars "github.com/")
               (Seq (Group 1 (oneOrMore false (NotChar 47)))
                  (Seq (Atom (Char 47))
                     (Seq (Group 2 (oneOrMore true (NotChar 47))) urlTail))))
            (λ _ captures, Some captures)
            (host ++ owner ++ 47%N :: name ++ git ++ path) ∅
          = Some (<[2%nat := name]> (<[1%nat := owner]> ∅))) as Hfrom_host.
  { rewrite chars_run by (by apply sameIgnoringCase_sameChar). exact Hfrom_owner. }
  assert (∃ g rest, host = g :: rest ∧ canonicalize g = 71%N) as (g & host' & Hg & Hcg).
  { unfold sameIgnoringCase in Hhost.
    change (lit "github.com/") with (103%N :: lit "ithub.com/") in Hhost.
    apply Forall2_cons_inv_r in Hhost as (g & rest & Hcg & _ & ->). eauto. }
  (* from the optional www. on *)
  assert (matcher true text
            (Seq (Optional (chars "www."))
               (Seq (chars "github.com/")
                  (Seq (Group 1 (oneOrMore false (NotChar 47)))
                     (Seq (Atom (Char 47))
                        (Seq (Group 2 (oneOrMore true (NotChar 47))) urlTail)))))
            (λ _ captures, Some captures)
            (www ++ host ++ owner ++ 47%N :: name ++ git ++ path) ∅
          = Some (<[2%nat := name]> (<[1%nat := owner]> ∅))) as Hfrom_www.
  { rewrite matcher_Seq. destruct Hwww as [->|Hwww].
    - rewrite matcher_Optional_skip; [exact Hfrom_host|].
      apply matcher_chars_mismatch. rewrite Hg. simpl. by rewrite Hcg.
    - apply matcher_Optional_take.
      rewrite (matcher_chars_run true text (lit "www.") www);
        [exact Hfrom_host | by apply sameIgnoringCase_sameChar]. }
  assert (∃ c rest, www ++ host = c :: rest
                    ∧ (canonicalize c = 71%N ∨ canonicalize c = 87%N))
    as (c0 & rest0 & Hc0 & Hcc0).
  { destruct Hwww as [->|Hwww]; [exists g, host'; eauto|].
    unfold sameIgnoringCase in Hwww.
    change (lit "www.") with (119%N :: lit "ww.") in Hwww.
    apply Forall2_cons_inv_r in Hwww as (c & rest & Hc & _ & ->).
    exists c, (rest ++ host). eauto. }
  (* the optional scheme *)
  unfold urlPattern. fold urlTail. rewrite matcher_Seq.
  destruct Hscheme as [->|[Hhttp|Hhttps]].
  - rewrite matcher_Optional_skip; [exact Hfrom_www|].
    rewrite matcher_Seq. apply matcher_chars_mismatch.
    unfold text. simpl app. rewrite (assoc_L (++)), Hc0. simpl.
    by destruct Hcc0 as [-> | ->].
  - apply matcher_Optional_take.
    unfold sameIgnoringCase in Hhttp.
    change (lit "http://") with (lit "http" ++ lit "://") in Hhttp.
    apply Forall2_app_inv_r in Hhttp as (h & colon & Hh & Hcolon & ->).
    unfold text. rewrite <- !(assoc_L (++)).
    rewrite chars_run by (by apply sameIgnoringCase_sameChar).
    rewrite matcher_Seq, matcher_Optional_skip.
    + rewrite chars_end_run by (by apply sameIgnoringCase_sameChar).
      exact Hfrom_www.
    + change (lit "://") with (58%N :: lit "//") in Hcolon.
      apply Forall2_cons_inv_r in Hcolon as (c & rest & Hc & _ & ->).
      cbn [matcher app accepts sameChar]. by rewrite Hc.
  - apply matcher_Optional_take.
    unfold sameIgnoringCase in Hhttps.
    change (lit "https://") with (lit "http" ++ [115%N] ++ lit "://") in Hhttps.
    apply Forall2_app_inv_r in Hhttps as (h & rest & Hh & Hrest & ->).
    apply Forall2_app_inv_r in Hrest as (s & colon & Hs & Hcolon & ->).
    apply Forall2_cons_inv_r in Hs as (c & nil & Hc & Hnil & ->).
    apply Forall2_nil_inv_r in Hnil as ->.
    unfold text. rewrite <- !(assoc_L (++)).
    rewrite chars_run by (by apply sameIgnoringCase_sameChar).
    rewrite matcher_Seq. apply matcher_Optional_take.
    cbn [matcher app accepts sameChar]. rewrite Hc. simpl N.eqb. cbv iota.
    rewrite chars_end_run by (by apply sameIgnoringCase_sameChar).
    exact Hfrom_www.
Qed.

(** A GitHub address -- with or without "http://" or "https://", with
    or without "www.", in any letter case -- followed by an owner and a
    name without slashes parses as that owner and that name, when the
    name holds no dot; a ".git" after the name and a path after that are
    left out.  White space around the address does not matter. *)
Theorem parse_github_url :
  ∀ input scheme www host owner name git path,
    trim input = scheme ++ www ++ host ++ owner ++ 47%N :: name ++ git ++ path →
    scheme = [] ∨ sameIgnoringCase scheme (lit "http://")
    ∨ sameIgnoringCase scheme (lit "https://") →
    www = [] ∨ sameIgnoringCase www (lit "www.") →
    sameIgnoringCase host (lit "github.com/") →
    owner ≠ [] → 47%N ∉ owner →
    name ≠ [] → 47%N ∉ name → 46%N ∉ name →
    git = [] ∨ sameIgnoringCase git (lit ".git") →
    path = [] ∨ (∃ rest, path = 47%N :: rest
                         ∧ Forall (λ c, isLineTerminator c = false) rest) →
    parseRepoInput input = Some (ParsedRepo.mk owner name).
Proof.
  intros input scheme www host owner name git path Htrim.
  intros Hscheme Hwww Hhost Howner Ho47 Hname Hn47 Hn46 Hgit Hpath.
  unfold parseRepoInput. rewrite Htrim.
  by destruct (urlPattern_run scheme www host owner name git path) as (m & -> & ->).
Qed.

Lemma parse_github_url_witness :
  parseRepoInput (lit " https://www.GitHub.com/rocq-prover/rocq.git/tree/master  ")
  = Some (ParsedRepo.mk (lit "rocq-prover") (lit "rocq")).
Proof.
  apply (parse_github_url _ (lit "https://") (lit "www.") (lit "GitHub.com/")
           (lit "rocq-prover") (lit "rocq") (lit ".git") (lit "/tree/master")).
  - vm_compute. reflexivity.
  - right. right. repeat constructor.
  - right. repeat constructor.
  - repeat constructor.
  - discriminate.
  - apply (bool_decide_unpack _). vm_compute. exact I.
  - discriminate.
  - apply (bool_decide_unpack _). vm_compute. exact I.
  - apply (bool_decide_unpack _). vm_compute. exact I.
  - right. repeat constructor.
  - right. exists (lit "tree/master"). split; [reflexivity|]. repeat constructor.
Defined.

(** * The repository form *)

Lemma handleRemoveRepo_delete index prev : handleRemoveRepo index prev = delete index prev.
Proof. rewrite delete_take_drop. apply (handleRemoveRepo_shift 0). Qed.

Lemma sameRepo_existsb toLowerCase parsed repos :
  existsb (RepoInput.sameRepo toLowerCase parsed) repos = false →
  (toLowerCase (ParsedRepo.owner parsed), toLowerCase (ParsedRepo.name parsed))
  ∉ (λ r, (toLowerCase (ParsedRepo.owner r), toLowerCase (ParsedRepo.name r))) <$> repos.
Proof.
  intros Hnone Hin. apply list_elem_of_fmap in Hin as (r & Heq & Hr).
  assert (existsb (RepoInput.sameRepo toLowerCase parsed) repos = true) as Hsome;
    [|congruence].
  apply existsb_exists. exists r. split; [by apply list_elem_of_In|].
  unfold RepoInput.sameRepo. injection Heq as Ho Hn.
  by rewrite !bool_decide_eq_true_2.
Qed.

(** Adding through the form either reports an error and changes neither
    the list nor the input, or appends exactly the parsed repository and
    empties the input.  A repository is appended only when it parses and
    no repository of the list has the same owner and name in lower case;
    its owner and name are then not empty and hold no slash. *)
Theorem repo_form_add :
  ∀ toLowerCase repos st,
    let result := RepoInput.handleAdd toLowerCase repos st in
    (RepoInput.error result.2 ≠ None ∧ result.1 = repos
     ∧ RepoInput.inputValue result.2 = RepoInput.inputValue st)
    ∨ (RepoInput.error result.2 = None ∧ RepoInput.inputValue result.2 = []
       ∧ ∃ parsed,
           parseRepoInput (RepoInput.inputValue st) = Some parsed ∧
           result.1 = repos ++ [parsed] ∧
           wellFormedRepo parsed ∧
           Forall (λ r, ¬ (toLowerCase (ParsedRepo.owner r)
                             = toLowerCase (ParsedRepo.owner parsed)
                           ∧ toLowerCase (ParsedRepo.name r)
                             = toLowerCase (ParsedRepo.name parsed))) repos).
Proof.
  intros toLowerCase repos st result. unfold result, RepoInput.handleAdd.
  destruct (parseRepoInput (RepoInput.inputValue st)) as [parsed|] eqn:Hparse;
    [|by left].
  destruct (existsb (RepoInput.sameRepo toLowerCase parsed) repos) eqn:Hdup;
    [by left|].
  right. split; [done|]. split; [done|]. exists parsed.
  split; [done|]. split; [done|]. split.
  - by destruct (parseRepoInput_parts _ _ Hparse) as (? & ? & ? & ? & _).
  - apply Forall_forall. intros r Hr [Ho Hn].
    apply (sameRepo_existsb toLowerCase parsed repos Hdup).
    apply list_elem_of_fmap. exists r. by rewrite Ho, Hn.
Qed.

(** The two handlers keep what they find.  A list without two
    repositories of the same owner and name in lower case stays so under
    every add through the form and every removal, and so does a list whose
    owners and names are all non-empty and free of slashes.  An add never
    removes a duplicate that is already there. *)
Theorem repo_list_preserved :
  ∀ toLowerCase,
    (∀ repos st,
       distinctIgnoringCase toLowerCase repos →
       distinctIgnoringCase toLowerCase (RepoInput.handleAdd toLowerCase repos st).1) ∧
    (∀ repos st,
       Forall wellFormedRepo repos →
       Forall wellFormedRepo (RepoInput.handleAdd toLowerCase repos st).1) ∧
    (∀ repos index,
       distinctIgnoringCase toLowerCase repos →
       distinctIgnoringCase toLowerCase (handleRemoveRepo index repos)) ∧
    (∀ repos index,
       Forall wellFormedRepo repos →
       Forall wellFormedRepo (handleRemoveRepo index repos)) ∧
    (∀ repos st,
       ¬ distinctIgnoringCase toLowerCase repos →
       ¬ distinctIgnoringCase toLowerCase (RepoInput.handleAdd toLowerCase repos st).1).
Proof.
  intros toLowerCase.
  split; [|split; [|split; [|split]]].
  - intros repos st Hdistinct. unfold RepoInput.handleAdd.
    destruct (parseRepoInput (RepoInput.inputValue st)) as [parsed|]; [|done].
    destruct (existsb (RepoInput.sameRepo toLowerCase parsed) repos) eqn:Hdup; [done|].
    simpl. unfold distinctIgnoringCase, handleAddRepo. rewrite fmap_app.
    apply NoDup_app. split; [done|]. split; [|apply NoDup_singleton].
    intros key Hkey Hnew. apply list_elem_of_singleton in Hnew as ->.
    by apply (sameRepo_existsb toLowerCase parsed repos Hdup).
  - intros repos st Hall. unfold RepoInput.handleAdd.
    destruct (parseRepoInput (RepoInput.inputValue st)) as [parsed|] eqn:Hparse; [|done].
    destruct (existsb (RepoInput.sameRepo toLowerCase parsed) repos); [done|].
    simpl. apply Forall_app. split; [done|]. constructor; [|done].
    by destruct (parseRepoInput_parts _ _ Hparse) as (? & ? & ? & ? & _).
  - intros repos index Hdistinct. rewrite handleRemoveRepo_delete.
    eapply sublist_NoDup; [exact Hdistinct|]. apply fmap_sublist, sublist_delete.
  - intros repos index Hall. rewrite handleRemoveRepo_delete.
    by apply Forall_delete.
  - intros repos st Hdup Hdistinct. apply Hdup. revert Hdistinct.
    unfold RepoInput.handleAdd.
    destruct (parseRepoInput (RepoInput.inputValue st)) as [parsed|]; [|done].
    destruct (existsb (RepoInput.sameRepo toLowerCase parsed) repos); [done|].
    simpl. unfold distinctIgnoringCase, handleAddRepo. rewrite fmap_app.
    by intros [? _]%NoDup_app.
Qed.

Lemma repo_list_preserved_witness :
  (RepoInput.handleAdd asciiLowerCase sampleRepos
     (RepoInput.mkState (lit "https://github.com/Facebook/React") None)).1
    = sampleRepos ∧
  distinctIgnoringCase asciiLowerCase
    (RepoInput.handleAdd asciiLowerCase sampleRepos
       (RepoInput.mkState (lit "https://github.com/Facebook/React") None)).1 ∧
  distinctIgnoringCase asciiLowerCase
    (RepoInput.handleAdd asciiLowerCase sampleRepos
       (RepoInput.mkState (lit "torvalds/linux") None)).1 ∧
  distinctIgnoringCase asciiLowerCase (handleRemoveRepo 0 sampleRepos).
Proof.
  assert (distinctIgnoringCase asciiLowerCase sampleRepos) as Hdistinct.
  { apply (bool_decide_unpack _). vm_compute. exact I. }
  split; [vm_compute; reflexivity|].
  split; [|split].
  - apply (proj1 (repo_list_preserved asciiLowerCase) sampleRepos). exact Hdistinct.
  - apply (proj1 (repo_list_preserved asciiLowerCase) sampleRepos). exact Hdistinct.
  - apply (proj1 (proj2 (proj2 (repo_list_preserved asciiLowerCase))) sampleRepos).
    exact Hdistinct.
Defined.

(** * The list the application starts from *)

(** The list is first read from the address.  Its repositories have
    non-empty, slash-free owners and names, which the handlers keep: that
    holds of every list the application reaches.  But the address may
    name a repository twice, and then the list starts with a duplicate,
    whatever the lower-casing: the check of the form does not cover it. *)
Theorem initial_repo_list :
  (∀ reposParam, Forall wellFormedRepo (getReposFromUrl reposParam)) ∧
  (∀ toLowerCase r,
     cleanRepo r → wellFormedUnicode r →
     getReposFromUrl (updateUrl [r; r]) = [r; r] ∧
     ¬ distinctIgnoringCase toLowerCase (getReposFromUrl (updateUrl [r; r]))).
Proof.
  split.
  - intros reposParam. apply Forall_forall. intros r Hr.
    apply getReposFromUrl_clean in Hr as (? & ? & ? & ? & _). by repeat split.
  - intros toLowerCase r Hclean Hwf.
    assert (getReposFromUrl (updateUrl [r; r]) = [r; r]) as ->
      by (apply updateUrl_getReposFromUrl; do 2 (constructor; [done|]); constructor).
    split; [done|]. unfold distinctIgnoringCase. rewrite !fmap_cons.
    intros Hnd. apply NoDup_cons in Hnd as [Hnot _]. apply Hnot. left.
Qed.

Lemma initial_repo_list_witness :
  getReposFromUrl (Some (lit "facebook/react,facebook/react"))
    = [ParsedRepo.mk (lit "facebook") (lit "react");
       ParsedRepo.mk (lit "facebook") (lit "react")] ∧
  ¬ distinctIgnoringCase asciiLowerCase
      (getReposFromUrl (Some (lit "facebook/react,facebook/react"))).
Proof.
  apply (proj2 initial_repo_list asciiLowerCase
           (ParsedRepo.mk (lit "facebook") (lit "react"))).
  - repeat split; try discriminate;
      apply (bool_decide_unpack _); vm_compute; exact I.
  - split; vm_compute; reflexivity.
Defined.

(** * The address and the form together *)

(** Writing a list of repositories to the address and reading the
    address back gives the same list exactly when every owner and name is
    not empty, holds no slash and no comma, and holds no surrogate code
    unit outside a pair.  So a repository that [parseRepoInput] returned
    comes back from the address as it was, provided its owner and name
    hold no comma and are well-formed text. *)
Theorem repos_url_round_trip :
  (∀ repos,
     getReposFromUrl (updateUrl repos) = repos
     ↔ Forall cleanRepo repos ∧ Forall wellFormedUnicode repos) ∧
  (∀ input r,
     parseRepoInput input = Some r →
     44%N ∉ ParsedRepo.owner r → 44%N ∉ ParsedRepo.name r →
     wellFormedUnicode r →
     getReposFromUrl (updateUrl [r]) = [r]).
Proof.
  split.
  - intros repos. split; [|by intros [? ?]; apply updateUrl_getReposFromUrl].
    intros Hback. split; apply Forall_forall; intros r Hr.
    + apply (getReposFromUrl_clean (updateUrl repos)). by rewrite Hback.
    + rewrite <- Hback in Hr. unfold updateUrl in Hr.
      destruct (length repos =? 0)%nat; [by apply elem_of_nil in Hr|].
      eapply getReposFromUrl_wellFormed; [|exact Hr].
      apply toWellFormed_idempotent.
  - intros input r Hparse Ho44 Hn44 Hwf. apply updateUrl_getReposFromUrl.
    + constructor; [|done].
      destruct (parseRepoInput_parts _ _ Hparse) as (? & ? & ? & ? & _).
      by repeat split.
    + by constructor.
Qed.

Lemma repos_url_round_trip_witness :
  parseRepoInput (lit " github.com/rocq-prover/rocq.git ")
    = Some (ParsedRepo.mk (lit "rocq-prover") (lit "rocq")) ∧
  getReposFromUrl (updateUrl [ParsedRepo.mk (lit "rocq-prover") (lit "rocq")])
    = [ParsedRepo.mk (lit "rocq-prover") (lit "rocq")].
Proof.
  split; [vm_compute; reflexivity|].
  apply (proj2 repos_url_round_trip (lit " github.com/rocq-prover/rocq.git "));
    [vm_compute; reflexivity
    | apply (bool_decide_unpack _); vm_compute; exact I
    | apply (bool_decide_unpack _); vm_compute; exact I
    | split; vm_compute; reflexivity].
Defined.

Lemma request_headers_witness :
  buildHeaders (setStoredToken (Some (lit "ghp_abc")) ∅) !! lit "User-Agent" = None ∧
  starHeaders (setStoredToken (Some (lit "ghp_abc")) ∅) !! lit "User-Agent" = None.
Proof.
  apply (proj2 (proj2 (proj2 (proj2
           (request_headers (setStoredToken (Some (lit "ghp_abc")) ∅))))));
    vm_compute; discriminate.
Defined.

Lemma token_form_handlers_witness :
  lit "ghp_abc" ≠ [] ∧
  (∀ c, head (lit "ghp_abc") = Some c → isWhiteSpace c = false) ∧
  (∀ c, last (lit "ghp_abc") = Some c → isWhiteSpace c = false).
Proof.
  apply (proj1 (proj2 (token_form_handlers
                         (mkTokenForm true (lit "  ghp_abc ") ∅ 0)))).
  vm_compute. reflexivity.
Defined.

